(** * Tentative-load analysis and shadow model builder: a shallow embedding

    Sources embedded here:
    - [lib/Analysis/Integrator/TentativeLoads.cpp] (interference store,
      per-instruction classification, the block walk);
    - [llpe/main/Shadows.cpp] (the invariant model builder).

    Integers of the program are [Z]; where the program does arithmetic on
    64-bit quantities the wrap-around is written out with [u64] and [i64]. *)

From Stdlib Require Import ZArith List Bool Lia String Sorted.
From stdpp Require Import base option gmap.
Import ListNotations.
Local Open Scope Z_scope.

(** ** Machine integers *)

Definition u64 (z : Z) : Z := z mod 2 ^ 64.
Definition i64 (z : Z) : Z := (z + 2 ^ 63) mod 2 ^ 64 - 2 ^ 63.

(** ** [TLMapTy]: the interval map of known-safe byte ranges *)

(** Modelled from the spec: the declaration of [TLMapTy] is in a header
    that is not among the sources.  The spec calls it a byte-interval map
    of known-safe ranges merged by sorted-range intersection, and the code
    uses it as an [llvm::IntervalMap<uint64_t, bool>] over half-open
    intervals (every range is inserted as [start, start + Len)), whose
    insertion coalesces adjacent intervals of equal value.  The model
    keeps what an iteration over the map shows: the intervals in
    increasing order.  An iterator is the list of intervals from its
    position onwards, so [it != end] is [it <> []] and [++it] is the tail. *)

Module IntervalMap.

Definition t : Type := list (Z * Z).

Definition empty : t := [].

(** [M->clear()] *)
Definition clear (m : t) : t := [].

(** [M->find(x)]: the first interval that does not stop at or before [x]
    (half-open traits: [stopLess(b, x)] is [b <= x]). *)
Fixpoint find (x : Z) (m : t) : t :=
  match m with
  | [] => []
  | (s, e) :: rest => if e <=? x then find x rest else m
  end.

(** [M->insert(a, b, true)].  The leaf insertion coalesces with an
    adjacent neighbour on either side; an empty interval or one that
    overlaps its right neighbour trips the container's assertion, which
    is [None] here. *)
Fixpoint insertFrom (a b : Z) (m : t) : option t :=
  match m with
  | [] => Some [(a, b)]
  | (s, e) :: rest =>
      if e <? a then
        match insertFrom a b rest with
        | Some rest' => Some ((s, e) :: rest')
        | None => None
        end
      else if e =? a then
        match rest with
        | [] => Some [(s, b)]
        | (s', e') :: rest' =>
            if b <? s' then Some ((s, b) :: rest)
            else if b =? s' then Some ((s, e') :: rest')
            else None
        end
      else if b <? s then Some ((a, b) :: m)
      else if b =? s then Some ((a, e) :: rest)
      else None
  end.

Definition insert (a b : Z) (m : t) : option t :=
  if b <=? a then None else insertFrom a b m.

(** Inserting a sequence of ranges, in order, as the loops over
    [keepRanges] and [addRanges] do. *)
Fixpoint insertAll (rs : list (Z * Z)) (m : t) : option t :=
  match rs with
  | [] => Some m
  | (a, b) :: rs' =>
      match insert a b m with
      | Some m' => insertAll rs' m'
      | None => None
      end
  end.

(** Byte [x] is covered by some interval of the map. *)
Fixpoint mem (x : Z) (m : t) : bool :=
  match m with
  | [] => false
  | (s, e) :: rest => ((s <=? x) && (x <? e)) || mem x rest
  end.

(** The container's representation invariant: intervals are non-empty,
    increasing, and two neighbours are neither overlapping nor adjacent
    (adjacent ones with the same value are coalesced on insertion). *)
Fixpoint wf_from (lo : Z) (m : t) : Prop :=
  match m with
  | [] => True
  | (s, e) :: rest => lo < s /\ s < e /\ wf_from e rest
  end.

Definition wf (m : t) : Prop :=
  match m with
  | [] => True
  | (s, e) :: rest => s < e /\ wf_from e rest
  end.

Fixpoint wf_fromb (lo : Z) (m : t) : bool :=
  match m with
  | [] => true
  | (s, e) :: rest => (lo <? s) && (s <? e) && wf_fromb e rest
  end.

Definition wfb (m : t) : bool :=
  match m with
  | [] => true
  | (s, e) :: rest => (s <? e) && wf_fromb e rest
  end.

(** Auxiliary order predicates used to state the container lemmas. *)

(** All intervals of [m] stop at or before [hi]. *)
Fixpoint below (hi : Z) (m : t) : Prop :=
  match m with
  | [] => True
  | (_, e) :: rest => e <= hi /\ below hi rest
  end.

(** A list of ranges to insert: non-empty, increasing, possibly adjacent. *)
Fixpoint ranges_from (lo : Z) (rs : list (Z * Z)) : Prop :=
  match rs with
  | [] => True
  | (a, b) :: rs' => lo <= a /\ a < b /\ ranges_from b rs'
  end.

Definition stops_above (x : Z) (m : t) : Prop :=
  match m with
  | [] => True
  | (_, e) :: _ => x < e
  end.

End IntervalMap.

Abbreviation TLMapTy := IntervalMap.t.

(** ** [TLMapPointer::mergeStores] *)

(** The inner loop: from iterator [toit], while [toit.start() < it.stop()],
    keep the overlap of [toit] with [it = [itstart, itstop)]. *)
Fixpoint keepOverlaps (itstart itstop : Z) (toit : TLMapTy) : list (Z * Z) :=
  match toit with
  | [] => []
  | (ts, te) :: rest =>
      if ts <? itstop
      then (Z.max ts itstart, Z.min te itstop) :: keepOverlaps itstart itstop rest
      else []
  end.

(** The outer loop over [mergeFrom] filling [keepRanges]. *)
Fixpoint keepRanges (mergeFrom mergeTo : TLMapTy) : list (Z * Z) :=
  match mergeFrom with
  | [] => []
  | (s, e) :: rest =>
      keepOverlaps s e (IntervalMap.find s mergeTo) ++ keepRanges rest mergeTo
  end.

(** [mergeStores(mergeFrom, mergeTo, ASize, Visitor)]: the new contents of
    [mergeTo].  [ASize] and [Visitor] are not used by the body. *)
Definition mergeStores (mergeFrom mergeTo : TLMapTy) (ASize : Z) : option TLMapTy :=
  IntervalMap.insertAll (keepRanges mergeFrom mergeTo)
                        (IntervalMap.clear mergeTo).

(** Merging the maps of several predecessors for one allocation: the
    target starts as the first predecessor's map and every further
    predecessor is merged into it. *)
Fixpoint mergeAll (mergeTo : TLMapTy) (preds : list TLMapTy) (ASize : Z)
  : option TLMapTy :=
  match preds with
  | [] => Some mergeTo
  | p :: ps =>
      match mergeStores p mergeTo ASize with
      | Some m => mergeAll m ps ASize
      | None => None
      end
  end.

(** ** Values supplied by the value-propagation engine *)

(** A [ShadowValue] used as the base of a pointer.  Only the observations
    made by this file are kept: whether it is the null pointer, a global
    (and then whether the global is constant), or an allocation living in
    a stack frame or on the heap.  Non-constant globals own a heap slot
    ([allocIdx], assigned by [initShadowGlobals]). *)
Inductive ShadowValue : Type :=
| SVNull
| SVGlobal (allocIdx : N) (isConstant : bool)
| SVStackObj (frame : nat) (idx : N)
| SVHeapObj (idx : N)
| SVOther.

Definition isNullPointer (V : ShadowValue) : bool :=
  match V with SVNull => true | _ => false end.

Definition isGV (V : ShadowValue) : bool :=
  match V with SVGlobal _ _ => true | _ => false end.

(** [V.isGV() && V.u.GV->G->isConstant()] *)
Definition isConstantGV (V : ShadowValue) : bool :=
  match V with SVGlobal _ c => c | _ => false end.

(** Modelled from the spec: the enumeration is declared outside the
    sources; the code only ever compares a set type with [ValSetTypePB]. *)
Inductive ValSetType : Type := ValSetTypePB | ValSetTypeScalar | ValSetTypeUnknown.

Definition isPB (ty : ValSetType) : bool :=
  match ty with ValSetTypePB => true | _ => false end.

Record ImprovedVal : Type := mkImprovedVal
  { V : ShadowValue;
    Offset : Z (* int64_t *) }.

Record ImprovedValSetSingle : Type := mkIVS
  { SetType : ValSetType;
    Values : list ImprovedVal;
    whollyUnknown : bool (* result of [isWhollyUnknown()] *) }.

(** [SI.i.PB]: a single value set, or a map from byte ranges of the loaded
    value to value sets. *)
Inductive ImprovedValSet : Type :=
| IVSingle (s : ImprovedValSetSingle)
| IVMulti (Map : list (Z * Z * ImprovedValSetSingle)).

Definition isWhollyUnknown (iv : ImprovedValSet) : bool :=
  match iv with
  | IVSingle s => whollyUnknown s
  | IVMulti _ => false
  end.

(** An operand as the analysis sees it: what [tryGetUniqueIV],
    [getIVOrSingleVal] and [tryGetConstantInt] answer for it. *)
Record Operand : Type := mkOperand
  { uniqueIV : option (ValSetType * ImprovedVal);
    ivOrSingle : ImprovedValSetSingle + (ValSetType * ImprovedVal);
    constantInt : option Z }.

(** ** Instructions *)

(** Modelled from the spec: the three states never-check, no-check-needed
    and must-check; the enumeration is declared outside the sources.  Its
    order is the one [std::min] relies on in [shouldCheckLoad], whose loop
    stops at [TLS_MUSTCHECK]: the stronger requirement is the smaller
    value. *)
Inductive ThreadLocalState : Type := TLS_MUSTCHECK | TLS_NOCHECK | TLS_NEVERCHECK.

Definition TLS_rank (s : ThreadLocalState) : Z :=
  match s with TLS_MUSTCHECK => 0 | TLS_NOCHECK => 1 | TLS_NEVERCHECK => 2 end.

Definition TLS_min (a b : ThreadLocalState) : ThreadLocalState :=
  if TLS_rank b <? TLS_rank a then b else a.

Definition TLS_eqb (a b : ThreadLocalState) : bool := TLS_rank a =? TLS_rank b.

Inductive RuntimeCheckType : Type :=
  RUNTIME_CHECK_NONE | RUNTIME_CHECK_AS_EXPECTED | RUNTIME_CHECK_SPECIAL.

Definition RCT_eqb (a b : RuntimeCheckType) : bool :=
  match a, b with
  | RUNTIME_CHECK_NONE, RUNTIME_CHECK_NONE
  | RUNTIME_CHECK_AS_EXPECTED, RUNTIME_CHECK_AS_EXPECTED
  | RUNTIME_CHECK_SPECIAL, RUNTIME_CHECK_SPECIAL => true
  | _, _ => false
  end.

Inductive specialfunctions : Type := SF_MALLOC | SF_REALLOC | SF_OTHER.

Record Function : Type := mkFunction { fid : N; fname : string }.

Inductive InstKind : Type :=
| KAlloca (storeSize : Z)
| KLoad (isVolatile volatileLoadIsSimple : bool) (ptr : Operand) (typeStoreSize : Z)
| KStore (ptr : Operand) (valueStoreSize : Z)
| KMemSet (args : list Operand)
| KMemTransfer (args : list Operand)
| KCall (calledFunction : option Function) (args : list Operand)
        (readFile : option Z) (heapStoreSize : Z)
| KPHI
| KOther.

Record ShadowInstruction : Type := mkSI
  { instId : N;
    kind : InstKind;
    self : Operand;              (* [ShadowValue(SI)] used as a pointer *)
    PB : option ImprovedValSet;  (* [SI.i.PB] *)
    typeIsVoid : bool;
    isThreadLocal : ThreadLocalState;
    needsRuntimeCheck : RuntimeCheckType }.

Definition with_isThreadLocal (s : ThreadLocalState) (SI : ShadowInstruction)
  : ShadowInstruction :=
  {| instId := instId SI; kind := kind SI; self := self SI; PB := PB SI;
     typeIsVoid := typeIsVoid SI; isThreadLocal := s;
     needsRuntimeCheck := needsRuntimeCheck SI |}.

Definition emptyOperand : Operand :=
  {| uniqueIV := None;
     ivOrSingle := inl {| SetType := ValSetTypeUnknown; Values := []; whollyUnknown := true |};
     constantInt := None |}.

(** [SI->getCallArgOperand(i)] *)
Definition getCallArgOperand (SI : ShadowInstruction) (i : nat) : Operand :=
  match kind SI with
  | KMemSet args | KMemTransfer args | KCall _ args _ _ => nth i args emptyOperand
  | _ => emptyOperand
  end.

Definition is_LoadInst (SI : ShadowInstruction) : bool :=
  match kind SI with KLoad _ _ _ _ => true | _ => false end.

Definition is_MemTransferInst (SI : ShadowInstruction) : bool :=
  match kind SI with KMemTransfer _ => true | _ => false end.

(** Memory intrinsics are call instructions too. *)
Definition is_CallInst (SI : ShadowInstruction) : bool :=
  match kind SI with KMemSet _ | KMemTransfer _ | KCall _ _ _ _ => true | _ => false end.

Definition is_PHINode (SI : ShadowInstruction) : bool :=
  match kind SI with KPHI => true | _ => false end.

Definition getCalledFunction (SI : ShadowInstruction) : option Function :=
  match kind SI with KCall F _ _ _ => F | _ => None end.

(** [ShadowInstruction::isCopyInst] *)
Definition isCopyInst (SI : ShadowInstruction) : bool :=
  if is_MemTransferInst SI then true
  else if is_CallInst SI then
    match getCalledFunction SI with
    | Some F => String.eqb (fname F) "realloc"
    | None => false
    end
  else false.

(** ** The analysis configuration ([GlobalIHP] and [SpecialFunctionMap]) *)

Record Config : Type := mkConfig
  { programSingleThreaded : bool;
    omitChecks : bool;
    yieldFunctions : gset N;
    SpecialFunctionMap : gmap N specialfunctions;
    pessimisticLocks : gset N;                       (* call instructions *)
    lockDomains : gmap N (list ShadowValue);         (* call -> globals *)
    memcpyValues : gmap N (list (Z * Z * ImprovedValSetSingle)) }.

(** ** The interference store *)

(** Modelled from the spec: [TLLocalStore] and its methods
    ([getReadableStoreFor], [getOrCreateStoreFor], [getWritableFrameList],
    [getEmptyMap], [pushStackFrame], [popStackFrame], [dropReference]) are
    declared in a header that is not among the sources.  Following the
    data model, a store maps allocations to interval maps of known-safe
    bytes, is organised as a stack of per-call frames plus the heap, and
    carries the flag "every allocation not listed is unsafe".
    Copy-on-write sharing is value semantics here: [getWritableFrameList]
    is the identity and the reference count, which only decides when a
    copy is made and when the object is freed, is not part of the value. *)

Record TLLocalStore : Type := mkStore
  { frames : list (gmap N TLMapTy);
    heap : gmap N TLMapTy;
    allOthersClobbered : bool }.

(** Modelled from the spec: [new TLLocalStore(0)], a store that lists
    nothing and has no frame yet. *)
Definition newStore : TLLocalStore :=
  {| frames := []; heap := ∅; allOthersClobbered := false |}.

(** Modelled from the spec: [getReadableStoreFor], the readable view of
    an allocation, absent when the store does not list it. *)
Definition getReadableStoreFor (st : TLLocalStore) (O : ShadowValue) : option TLMapTy :=
  match O with
  | SVStackObj f i => frames st !! f ≫= fun fr => fr !! i
  | SVHeapObj i => heap st !! i
  | SVGlobal i _ => heap st !! i
  | SVNull | SVOther => None
  end.

(** Modelled from the spec: the writable view.  This writes back the map
    of [O] obtained from [getOrCreateStoreFor]; a value that names no slot
    of the store leaves it as it is. *)
Definition setStoreFor (st : TLLocalStore) (O : ShadowValue) (m : TLMapTy)
  : TLLocalStore :=
  match O with
  | SVStackObj f i =>
      {| frames := alter (fun fr => <[i := m]> fr) f (frames st);
         heap := heap st; allOthersClobbered := allOthersClobbered st |}
  | SVHeapObj i | SVGlobal i _ =>
      {| frames := frames st; heap := <[i := m]> (heap st);
         allOthersClobbered := allOthersClobbered st |}
  | SVNull | SVOther => st
  end.

(** Modelled from the spec: [getEmptyMap] drops the map; the frame stack
    keeps its depth and the flag its value. *)
Definition getEmptyMap (st : TLLocalStore) : TLLocalStore :=
  {| frames := (fun _ => ∅) <$> frames st; heap := ∅;
     allOthersClobbered := allOthersClobbered st |}.

Definition set_allOthersClobbered (b : bool) (st : TLLocalStore) : TLLocalStore :=
  {| frames := frames st; heap := heap st; allOthersClobbered := b |}.

(** Modelled from the spec: [pushStackFrame] and [popStackFrame], the
    per-call stack lifetime; popping releases the allocations of the
    innermost frame. *)
Definition pushStackFrame (st : TLLocalStore) : TLLocalStore :=
  {| frames := frames st ++ [∅]; heap := heap st;
     allOthersClobbered := allOthersClobbered st |}.

Definition popStackFrame (st : TLLocalStore) : TLLocalStore :=
  {| frames := removelast (frames st); heap := heap st;
     allOthersClobbered := allOthersClobbered st |}.

(** No allocation is listed in the store. *)
Definition storeIsEmpty (st : TLLocalStore) : Prop :=
  heap st = ∅ /\ Forall (fun fr => fr = ∅) (frames st).

(** Byte [x] of allocation [O] is known-safe in [st], as [shouldCheckRead]
    reads the store: listed allocations by their map, the others by the
    flag. *)
Definition knownSafe (st : TLLocalStore) (O : ShadowValue) (x : Z) : bool :=
  match getReadableStoreFor st O with
  | Some M => IntervalMap.mem x M
  | None => negb (allOthersClobbered st)
  end.

(** ** What the walk mutates besides the instruction itself *)

Inductive YieldState : Type := BARRIER_NONE | BARRIER_HERE.

(** [bbStore] is [SI->parent->tlStore]; the other two fields are
    [yieldState] and [readsTentativeData] of the context [SI->parent->IA]. *)
Record TLState : Type := mkTLState
  { bbStore : TLLocalStore;
    iaYieldState : YieldState;
    iaReadsTentativeData : bool }.

Definition with_tlStore (st : TLLocalStore) (s : TLState) : TLState :=
  {| bbStore := st; iaYieldState := iaYieldState s;
     iaReadsTentativeData := iaReadsTentativeData s |}.

(** ** [ShadowBB::getWritableTLStore]: the map to write, empty when new *)
Definition getWritableTLStore (st : TLLocalStore) (O : ShadowValue) : TLMapTy :=
  match getReadableStoreFor st O with
  | Some m => m
  | None => IntervalMap.empty
  end.

(** ** [markAllObjectsTentative] *)
Definition markAllObjectsTentative (s : TLState) : TLState :=
  {| bbStore := set_allOthersClobbered true (getEmptyMap (bbStore s));
     iaYieldState := BARRIER_HERE;
     iaReadsTentativeData := iaReadsTentativeData s |}.

(** ** [markGoodBytes] *)

(** The loop over the extents that start before [stop], collecting the
    gap to the right of each. *)
Fixpoint gapsRight (stop : Z) (it : TLMapTy) : list (Z * Z) :=
  match it with
  | [] => []
  | (s, e) :: nextit =>
      if s <? stop then
        (if e <? stop then
           let gapend := match nextit with
                         | [] => stop
                         | (ns, _) :: _ => Z.min stop ns
                         end in
           if e =? gapend then [] else [(e, gapend)]
         else [])
        ++ gapsRight stop nextit
      else []
  end.

(** The ranges of [start, stop) not yet in the map. *)
Definition addRangesFor (store : option TLMapTy) (start stop : Z) : list (Z * Z) :=
  match store with
  | None => [(start, stop)]
  | Some M =>
      match IntervalMap.find start M with
      | [] => [(start, stop)]
      | (s, e) :: nextit =>
          if stop <=? s then [(start, stop)]
          else (if start <? s then [(start, s)] else [])
               ++ gapsRight stop ((s, e) :: nextit)
      end
  end.

Definition markGoodBytes (GoodPtr : Operand) (Len : Z) (contextEnabled : bool)
    (st : TLLocalStore) (OffsetArg : Z) : option TLLocalStore :=
  if negb contextEnabled then Some st
  else if negb (allOthersClobbered st) then Some st
  else
    match uniqueIV GoodPtr with
    | None => Some st
    | Some (ty, PtrTarget) =>
        if negb (isPB ty) then Some st
        else if isConstantGV (V PtrTarget) then Some st
        else
          let store := getReadableStoreFor st (V PtrTarget) in
          let start := u64 (Offset PtrTarget + OffsetArg) in
          let stop := u64 (Offset PtrTarget + OffsetArg + Len) in
          match addRangesFor store start stop with
          | [] => Some st
          | addRanges =>
              match IntervalMap.insertAll addRanges
                      (getWritableTLStore st (V PtrTarget)) with
              | Some M => Some (setStoreFor st (V PtrTarget) M)
              | None => None
              end
          end
    end.

(** [walkCopyInst] *)
Definition walkCopyInst (CopyFrom CopyTo LenSV : Operand) (contextEnabled : bool)
    (st : TLLocalStore) : option TLLocalStore :=
  match constantInt LenSV with
  | None => Some st
  | Some Len =>
      match markGoodBytes CopyTo Len contextEnabled st 0 with
      | Some st' => markGoodBytes CopyFrom Len contextEnabled st' 0
      | None => None
      end
  end.

(** ** Classification and store update of one instruction *)

Section Analysis.

(** The configuration, and [ShadowValue::isNullOrConst], whose body is
    not among the sources. *)
Variable cfg : Config.
Variable isNullOrConst : ShadowValue -> bool.

(** Clearing the maps of the globals of a lock domain. *)
Fixpoint clearDomain (domain : list ShadowValue) (st : TLLocalStore) : TLLocalStore :=
  match domain with
  | [] => st
  | SV :: rest =>
      clearDomain rest
        (setStoreFor st SV (IntervalMap.clear (getWritableTLStore st SV)))
  end.

Definition lift_store (r : option TLLocalStore) (s : TLState) : option TLState :=
  match r with
  | Some st => Some (with_tlStore st s)
  | None => None
  end.

Definition inYieldFunctions (F : option Function) : bool :=
  match F with
  | Some f => bool_decide (fid f ∈ yieldFunctions cfg)
  | None => false
  end.

Definition findSpecialFunction (F : option Function) : option specialfunctions :=
  match F with
  | Some f => SpecialFunctionMap cfg !! fid f
  | None => None
  end.

(** [updateTLStore] *)
Definition updateTLStore (SI : ShadowInstruction) (contextEnabled : bool)
    (s : TLState) : option TLState :=
  match kind SI with
  | KAlloca storeSize =>
      lift_store (markGoodBytes (self SI) storeSize contextEnabled (bbStore s) 0) s
  | KLoad isVolatile simple ptr size =>
      if isVolatile && negb (programSingleThreaded cfg) && negb simple
      then Some (markAllObjectsTentative s)
      else lift_store (markGoodBytes ptr size contextEnabled (bbStore s) 0) s
  | KStore ptr size =>
      lift_store (markGoodBytes ptr size contextEnabled (bbStore s) 0) s
  | KMemSet _ =>
      match constantInt (getCallArgOperand SI 2) with
      | None => Some s
      | Some MemSize =>
          lift_store (markGoodBytes (getCallArgOperand SI 0) MemSize
                        contextEnabled (bbStore s) 0) s
      end
  | KMemTransfer _ =>
      lift_store (walkCopyInst (getCallArgOperand SI 0) (getCallArgOperand SI 1)
                    (getCallArgOperand SI 2) contextEnabled (bbStore s)) s
  | KCall F _ readFile heapStoreSize =>
      match readFile with
      | Some readSize =>
          lift_store (markGoodBytes (getCallArgOperand SI 1) readSize
                        contextEnabled (bbStore s) 0) s
      | None =>
          match findSpecialFunction F with
          | Some SF_REALLOC =>
              match walkCopyInst (self SI) (getCallArgOperand SI 0)
                      (getCallArgOperand SI 1) contextEnabled (bbStore s) with
              | Some st' =>
                  lift_store (markGoodBytes (self SI) heapStoreSize
                                contextEnabled st' 0) s
              | None => None
              end
          | Some SF_MALLOC =>
              lift_store (markGoodBytes (self SI) heapStoreSize
                            contextEnabled (bbStore s) 0) s
          | Some SF_OTHER => Some s
          | None =>
              if (match F with None => true | Some _ => false end
                  && negb (programSingleThreaded cfg))
                 || inYieldFunctions F
              then
                if bool_decide (instId SI ∈ pessimisticLocks cfg) then Some s
                else
                  match lockDomains cfg !! instId SI with
                  | Some domain => Some (with_tlStore (clearDomain domain (bbStore s)) s)
                  | None => Some (markAllObjectsTentative s)
                  end
              else Some s
          end
      end
  | KPHI | KOther => Some s
  end.

(** [shouldCheckRead] *)
Definition shouldCheckRead (Ptr : ImprovedVal) (Size : Z) (st : TLLocalStore) : bool :=
  if isNullPointer (V Ptr) then false
  else if isConstantGV (V Ptr) then false
  else
    match getReadableStoreFor st (V Ptr) with
    | None => allOthersClobbered st
    | Some M =>
        let coveredByMap :=
          match IntervalMap.find (u64 (Offset Ptr)) M with
          | [] => false
          | (s, e) :: _ =>
              (i64 s <=? Offset Ptr) && (i64 (Offset Ptr + i64 Size) <=? i64 e)
          end in
        negb coveredByMap
    end.

(** The loops of [shouldCheckCopy] and [shouldCheckLoadFrom] over the
    ranges of values read during propagation. *)
Fixpoint checkRanges (Ptr : ImprovedVal) (vals : list (Z * Z * ImprovedValSetSingle))
    (st : TLLocalStore) : ThreadLocalState :=
  match vals with
  | [] => TLS_NOCHECK
  | (first, second, val) :: rest =>
      if whollyUnknown val then checkRanges Ptr rest st
      else
        let ReadPtr := {| V := V Ptr; Offset := i64 (Offset Ptr + first) |} in
        if shouldCheckRead ReadPtr (u64 (second - first)) st then TLS_MUSTCHECK
        else checkRanges Ptr rest st
  end.

(** [IntegrationAttempt::shouldCheckCopy] *)
Definition shouldCheckCopy (SI : ShadowInstruction) (PtrOp LenSV : Operand)
    (st : TLLocalStore) : ThreadLocalState :=
  match constantInt LenSV, uniqueIV PtrOp with
  | Some Len, Some (ty, Ptr) =>
      if negb (isPB ty) then TLS_NEVERCHECK
      else if Len =? 0 then TLS_NEVERCHECK
      else
        match memcpyValues cfg !! instId SI with
        | None | Some [] => TLS_NEVERCHECK
        | Some vals => checkRanges Ptr vals st
        end
  | _, _ => TLS_NEVERCHECK
  end.

(** [IntegrationAttempt::shouldCheckLoadFrom] *)
Definition shouldCheckLoadFrom (SI : ShadowInstruction) (Ptr : ImprovedVal)
    (LoadSize : Z) (st : TLLocalStore) : ThreadLocalState :=
  if isNullOrConst (V Ptr) then TLS_NEVERCHECK
  else
    match PB SI with
    | Some (IVMulti Map) => checkRanges Ptr Map st
    | _ => if shouldCheckRead Ptr LoadSize st then TLS_MUSTCHECK else TLS_NOCHECK
    end.

(** The loop of [shouldCheckLoad] over the values of a pointer set. *)
Fixpoint checkValues (SI : ShadowInstruction) (vals : list ImprovedVal)
    (LoadSize : Z) (st : TLLocalStore) (result : ThreadLocalState)
  : ThreadLocalState :=
  match vals with
  | [] => result
  | v :: rest =>
      if TLS_eqb result TLS_MUSTCHECK then result
      else checkValues SI rest LoadSize st
             (TLS_min (shouldCheckLoadFrom SI v LoadSize st) result)
  end.

(** [IntegrationAttempt::shouldCheckLoad] *)
Definition shouldCheckLoad (SI : ShadowInstruction) (st : TLLocalStore)
  : ThreadLocalState :=
  if programSingleThreaded cfg then TLS_NEVERCHECK
  else
    match kind SI with
    | KLoad _ _ PtrOp LoadSize =>
        (* Load doesn't extract any useful information? *)
        let moot := match PB SI with
                    | Some (IVSingle IVS) => whollyUnknown IVS
                    | _ => false
                    end in
        if moot then TLS_NEVERCHECK
        else
          match ivOrSingle PtrOp with
          | inl IVS =>
              if whollyUnknown IVS || negb (isPB (SetType IVS))
              then TLS_NEVERCHECK
              else checkValues SI (Values IVS) LoadSize st TLS_NEVERCHECK
          | inr (ty, Single) =>
              if negb (isPB ty) then TLS_NEVERCHECK
              else shouldCheckLoadFrom SI Single LoadSize st
          end
    | KMemTransfer _ =>
        shouldCheckCopy SI (getCallArgOperand SI 1) (getCallArgOperand SI 2) st
    | _ =>
        (* Realloc instruction *)
        shouldCheckCopy SI (getCallArgOperand SI 0) (getCallArgOperand SI 1) st
    end.

(** [IntegrationAttempt::TLAnalyseInstruction] *)
Definition TLAnalyseInstruction (SI : ShadowInstruction)
    (commitDisabledHere secondPass : bool) (s : TLState)
  : option (ShadowInstruction * TLState) :=
  if TLS_eqb (isThreadLocal SI) TLS_NEVERCHECK then Some (SI, s)
  else if is_LoadInst SI || isCopyInst SI then
    if secondPass && TLS_eqb (isThreadLocal SI) TLS_MUSTCHECK then Some (SI, s)
    else
      let SI' := with_isThreadLocal (shouldCheckLoad SI (bbStore s)) SI in
      let s' :=
        if TLS_eqb (isThreadLocal SI') TLS_MUSTCHECK
        then {| bbStore := bbStore s; iaYieldState := iaYieldState s;
                iaReadsTentativeData := true |}
        else s in
      match updateTLStore SI' (negb commitDisabledHere) s' with
      | Some s'' => Some (SI', s'')
      | None => None
      end
  else
    match updateTLStore SI (negb commitDisabledHere) s with
    | Some s' => Some (SI, s')
    | None => None
    end.

(** The instruction loop of a block that holds no inlined call: every
    instruction is analysed in order, threading the block's store. *)
Fixpoint analyseInsts (insts : list ShadowInstruction)
    (commitDisabledHere secondPass : bool) (s : TLState)
  : option (list ShadowInstruction * TLState) :=
  match insts with
  | [] => Some ([], s)
  | SI :: rest =>
      match TLAnalyseInstruction SI commitDisabledHere secondPass s with
      | Some (SI', s') =>
          match analyseInsts rest commitDisabledHere secondPass s' with
          | Some (rest', s'') => Some (SI' :: rest', s'')
          | None => None
          end
      | None => None
      end
  end.

End Analysis.

(** ** The shadow function model and the context tree *)

(** A natural loop with its chain of parents ([getParentLoop]). *)
Inductive Loop : Type :=
| TopLoop (id : N)
| SubLoop (id : N) (parent : Loop).

Fixpoint Loop_eqb (a b : Loop) : bool :=
  match a, b with
  | TopLoop i, TopLoop j => N.eqb i j
  | SubLoop i p, SubLoop j q => N.eqb i j && Loop_eqb p q
  | _, _ => false
  end.

Definition scope_eqb (a b : option Loop) : bool :=
  match a, b with
  | None, None => true
  | Some x, Some y => Loop_eqb x y
  | _, _ => false
  end.

(** [LoopBase::contains(const LoopT *L)]: [L] is this loop or nested in it. *)
Fixpoint Loop_contains (this l : Loop) : bool :=
  Loop_eqb l this
  || match l with
     | TopLoop _ => false
     | SubLoop _ p => Loop_contains this p
     end.

Definition contains (this : Loop) (l : option Loop) : bool :=
  match l with
  | Some l' => Loop_contains this l'
  | None => false
  end.

Record ShadowBBInvar : Type := mkBBInvar
  { idx : nat;
    succIdxs : list nat;
    predIdxs : list nat;
    naturalScope : option Loop;
    terminatorIsReturn : bool (* [isa<ReturnInst>(BB->getTerminator())] *) }.

Record ShadowLoopInvar : Type := mkLoopInvar
  { headerIdx : nat;
    preheaderIdx : nat;
    latchIdx : nat;
    nBlocks : nat }.

Record ShadowFunctionInvar : Type := mkFunctionInvar
  { fBBs : list ShadowBBInvar;
    LInfo : list (Loop * ShadowLoopInvar);
    frameSize : Z (* int32_t, -1 when the function never allocates *) }.

Record ShadowBB : Type := mkBB
  { invar : ShadowBBInvar;
    tlStore : option TLLocalStore;
    succsAlive : list bool;
    insts : list ShadowInstruction }.

Definition set_tlStore (st : option TLLocalStore) (BB : ShadowBB) : ShadowBB :=
  {| invar := invar BB; tlStore := st; succsAlive := succsAlive BB;
     insts := insts BB |}.

Definition set_insts (l : list ShadowInstruction) (BB : ShadowBB) : ShadowBB :=
  {| invar := invar BB; tlStore := tlStore BB; succsAlive := succsAlive BB;
     insts := l |}.

(** A specialization context (root call, inlined call or peeled
    iteration) with the children it owns. *)
#[warnings="-register-all"]
Inductive IntegrationAttempt : Type := mkIA
  { thisL : option Loop;                 (* [this->L] *)
    invarInfo : ShadowFunctionInvar;
    BBsOffset : nat;
    BBs : list (option ShadowBB);        (* [nBBs] is its length *)
    inlineChildren : list (N * IntegrationAttempt);
    peelChildren : list (Loop * PeelAttempt);
    tentativeLoadsRun : bool;
    readsTentativeData : bool;
    yieldState : YieldState;
    isEnabled : bool;
    isRootMainCall : bool;
    hasCallers : bool;                   (* [Callers.size() != 0] *)
    backupTlStore : option TLLocalStore }
with PeelAttempt : Type := mkPA
  { Iterations : list IntegrationAttempt;
    isTerminated : bool;
    paIsEnabled : bool }.

Definition nBBs (ia : IntegrationAttempt) : nat := length (BBs ia).

Definition getBBInvar (ia : IntegrationAttempt) (i : nat) : option ShadowBBInvar :=
  fBBs (invarInfo ia) !! i.

(** Modelled from the spec: [getBB(i)], whose body is not among the
    sources, for an index of this context's own range (the block array is
    offset by [BBsOffset]); a block not yet created reads as absent. *)
Definition getBB (ia : IntegrationAttempt) (i : nat) : option ShadowBB :=
  if (i <? BBsOffset ia)%nat then None
  else match BBs ia !! (i - BBsOffset ia)%nat with
       | Some (Some BB) => Some BB
       | _ => None
       end.

Definition set_BBs (l : list (option ShadowBB)) (ia : IntegrationAttempt)
  : IntegrationAttempt :=
  {| thisL := thisL ia; invarInfo := invarInfo ia; BBsOffset := BBsOffset ia;
     BBs := l; inlineChildren := inlineChildren ia;
     peelChildren := peelChildren ia; tentativeLoadsRun := tentativeLoadsRun ia;
     readsTentativeData := readsTentativeData ia; yieldState := yieldState ia;
     isEnabled := isEnabled ia; isRootMainCall := isRootMainCall ia;
     hasCallers := hasCallers ia; backupTlStore := backupTlStore ia |}.

Definition setBB (ia : IntegrationAttempt) (i : nat) (BB : ShadowBB)
  : IntegrationAttempt :=
  set_BBs (<[(i - BBsOffset ia)%nat := Some BB]> (BBs ia)) ia.

Definition set_inlineChildren (l : list (N * IntegrationAttempt))
    (ia : IntegrationAttempt) : IntegrationAttempt :=
  {| thisL := thisL ia; invarInfo := invarInfo ia; BBsOffset := BBsOffset ia;
     BBs := BBs ia; inlineChildren := l;
     peelChildren := peelChildren ia; tentativeLoadsRun := tentativeLoadsRun ia;
     readsTentativeData := readsTentativeData ia; yieldState := yieldState ia;
     isEnabled := isEnabled ia; isRootMainCall := isRootMainCall ia;
     hasCallers := hasCallers ia; backupTlStore := backupTlStore ia |}.

Definition set_peelChildren (l : list (Loop * PeelAttempt))
    (ia : IntegrationAttempt) : IntegrationAttempt :=
  {| thisL := thisL ia; invarInfo := invarInfo ia; BBsOffset := BBsOffset ia;
     BBs := BBs ia; inlineChildren := inlineChildren ia;
     peelChildren := l; tentativeLoadsRun := tentativeLoadsRun ia;
     readsTentativeData := readsTentativeData ia; yieldState := yieldState ia;
     isEnabled := isEnabled ia; isRootMainCall := isRootMainCall ia;
     hasCallers := hasCallers ia; backupTlStore := backupTlStore ia |}.

Definition set_tentativeLoadsRun (b : bool) (ia : IntegrationAttempt)
  : IntegrationAttempt :=
  {| thisL := thisL ia; invarInfo := invarInfo ia; BBsOffset := BBsOffset ia;
     BBs := BBs ia; inlineChildren := inlineChildren ia;
     peelChildren := peelChildren ia; tentativeLoadsRun := b;
     readsTentativeData := readsTentativeData ia; yieldState := yieldState ia;
     isEnabled := isEnabled ia; isRootMainCall := isRootMainCall ia;
     hasCallers := hasCallers ia; backupTlStore := backupTlStore ia |}.

(** Writing back the two context fields an instruction may change. *)
Definition set_flags (y : YieldState) (r : bool) (ia : IntegrationAttempt)
  : IntegrationAttempt :=
  {| thisL := thisL ia; invarInfo := invarInfo ia; BBsOffset := BBsOffset ia;
     BBs := BBs ia; inlineChildren := inlineChildren ia;
     peelChildren := peelChildren ia; tentativeLoadsRun := tentativeLoadsRun ia;
     readsTentativeData := r; yieldState := y;
     isEnabled := isEnabled ia; isRootMainCall := isRootMainCall ia;
     hasCallers := hasCallers ia; backupTlStore := backupTlStore ia |}.

Fixpoint lookupLoop {A} (l : Loop) (m : list (Loop * A)) : option A :=
  match m with
  | [] => None
  | (k, a) :: rest => if Loop_eqb k l then Some a else lookupLoop l rest
  end.

Fixpoint updateLoop {A} (l : Loop) (a : A) (m : list (Loop * A)) : list (Loop * A) :=
  match m with
  | [] => []
  | (k, b) :: rest =>
      if Loop_eqb k l then (k, a) :: rest else (k, b) :: updateLoop l a rest
  end.

Fixpoint lookupInst {A} (i : N) (m : list (N * A)) : option A :=
  match m with
  | [] => None
  | (k, a) :: rest => if N.eqb k i then Some a else lookupInst i rest
  end.

Fixpoint updateInst {A} (i : N) (a : A) (m : list (N * A)) : list (N * A) :=
  match m with
  | [] => []
  | (k, b) :: rest =>
      if N.eqb k i then (k, a) :: rest else (k, b) :: updateInst i a rest
  end.

Definition getPeelAttempt (ia : IntegrationAttempt) (l : Loop) : option PeelAttempt :=
  lookupLoop l (peelChildren ia).

Definition getInlineAttempt (ia : IntegrationAttempt) (SI : ShadowInstruction)
  : option IntegrationAttempt :=
  lookupInst (instId SI) (inlineChildren ia).

(** ** [IntegrationAttempt::resetTentativeLoads] *)
Fixpoint resetTentativeLoads (ia : IntegrationAttempt) : IntegrationAttempt :=
  {| thisL := thisL ia; invarInfo := invarInfo ia; BBsOffset := BBsOffset ia;
     BBs := BBs ia;
     inlineChildren :=
       map (fun kc => (fst kc, resetTentativeLoads (snd kc))) (inlineChildren ia);
     peelChildren :=
       map (fun kp =>
              (fst kp,
               match snd kp with
               | mkPA its term en =>
                   if term then mkPA (map resetTentativeLoads its) term en
                   else mkPA its term en
               end)) (peelChildren ia);
     tentativeLoadsRun := false;
     readsTentativeData := readsTentativeData ia; yieldState := yieldState ia;
     isEnabled := isEnabled ia; isRootMainCall := isRootMainCall ia;
     hasCallers := hasCallers ia; backupTlStore := backupTlStore ia |}.

(** ** The walk over a context *)

(** Outcome of a walk: a result, a failed [release_assert] or container
    assertion or a null dereference ([Fatal]), or the recursion budget of
    the model exhausted ([OutOfFuel]). *)
Inductive Result (A : Type) : Type :=
| Ok (a : A)
| Fatal
| OutOfFuel.
Arguments Ok {A} a.
Arguments Fatal {A}.
Arguments OutOfFuel {A}.

Definition bindR {A B} (r : Result A) (k : A -> Result B) : Result B :=
  match r with
  | Ok a => k a
  | Fatal => Fatal
  | OutOfFuel => OutOfFuel
  end.

#[global] Instance Result_bind : MBind Result := fun A B k r => bindR r k.

Definition ofOption {A} (o : option A) : Result A :=
  match o with
  | Some a => Ok a
  | None => Fatal
  end.

(** The file's static progress counter and the dots it prints. *)
Record Globals : Type := mkGlobals
  { TLProgressN : Z;
    errsDots : nat }.

Definition TLProgressLimit : Z := 1000.

Definition TLProgress (g : Globals) : Globals :=
  let n := TLProgressN g + 1 in
  if n =? TLProgressLimit
  then {| TLProgressN := 0; errsDots := S (errsDots g) |}
  else {| TLProgressN := n; errsDots := errsDots g |}.

(** The test made for every live successor edge before a reference to the
    block's store is taken for it (the body of the loop over
    [BB->invar->succIdxs]): [Some true] when the edge is served,
    [Some false] when it is skipped, [None] when the [release_assert] that
    only the latch branches to the header fails. *)
Definition servesSuccessor (l thisl : option Loop) (LInfo_l : option ShadowLoopInvar)
    (latchToHeader : bool) (BBidx : nat) (SuccBBI : ShadowBBInvar) : option bool :=
  match l, LInfo_l with
  | Some l', Some LI =>
      if negb (scope_eqb l thisl) && latchToHeader
         && negb (contains l' (naturalScope SuccBBI))
      then Some false
      else if negb (scope_eqb l thisl) && negb latchToHeader
              && (idx SuccBBI =? headerIdx LI)%nat
      then (if (BBidx =? latchIdx LI)%nat then Some false else None)
      else Some true
  | _, _ => Some true
  end.

Section Walk.

Variable cfg : Config.
Variable isNullOrConst : ShadowValue -> bool.

(** Code that is called by the walk and is not among the sources: the
    merge of the predecessors' stores for a block ([TLMerger] driven by
    [visitNormalPredecessorsBW]), the merge of a callee's return-block
    stores ([visitLiveReturnBlocks]), the effect of the path conditions
    attached to a block on its store, and [edgeIsDead]. *)
Variable doTLStoreMerge : IntegrationAttempt -> nat -> option TLLocalStore.
Variable doTLCallMerge : IntegrationAttempt -> IntegrationAttempt -> option TLLocalStore.
Variable TLWalkPathConditions :
  IntegrationAttempt -> nat -> bool -> bool -> TLLocalStore -> Result TLLocalStore.
Variable edgeIsDead : IntegrationAttempt -> nat -> nat -> bool.

Definition WalkFn : Type :=
  Globals -> IntegrationAttempt -> option Loop -> bool -> bool -> bool ->
  Result (Globals * IntegrationAttempt).

(** [BBs[0]->tlStore = st] *)
Definition setEntryStore (ia : IntegrationAttempt) (st : option TLLocalStore)
  : Result IntegrationAttempt :=
  match BBs ia with
  | Some BB :: rest => Ok (set_BBs (Some (set_tlStore st BB) :: rest) ia)
  | _ => Fatal
  end.

(** [getBB(i)->tlStore] *)
Definition getBBStore (ia : IntegrationAttempt) (i : nat)
  : Result (option TLLocalStore) :=
  match getBB ia i with
  | Some BB => Ok (tlStore BB)
  | None => Fatal
  end.

(** [getBB(i)->tlStore = st] *)
Definition setBBStore (ia : IntegrationAttempt) (i : nat) (st : option TLLocalStore)
  : Result IntegrationAttempt :=
  match getBB ia i with
  | Some BB => Ok (setBB ia i (set_tlStore st BB))
  | None => Fatal
  end.

Definition getLInfo (ia : IntegrationAttempt) (l : Loop) : Result ShadowLoopInvar :=
  ofOption (lookupLoop l (LInfo (invarInfo ia))).

Section OpenRecursion.

(** [findTentativeLoadsInLoop] as seen by its callers. *)
Variable findTentativeLoadsInLoop : WalkFn.

(** [InlineAttempt::findTentativeLoads] *)
Definition findTentativeLoads (g : Globals) (ia : IntegrationAttempt)
    (commitDisabledHere secondPass : bool)
  : Result (Globals * IntegrationAttempt) :=
  ia1 ← (if isRootMainCall ia
          then setEntryStore ia (Some newStore)
          else Ok ia);
  ia2 ← (if negb (frameSize (invarInfo ia1) =? -1) || negb (hasCallers ia1)
          then
            match BBs ia1 with
            | Some BB :: _ =>
                match tlStore BB with
                | Some st => setEntryStore ia1 (Some (pushStackFrame st))
                | None => Fatal
                end
            | _ => Fatal
            end
          else Ok ia1);
  findTentativeLoadsInLoop g ia2 None commitDisabledHere secondPass false.

(** [IntegrationAttempt::findTentativeLoadsInUnboundedLoop] *)
Definition findTentativeLoadsInUnboundedLoop (g : Globals)
    (ia : IntegrationAttempt) (UL : Loop) (commitDisabledHere secondPass : bool)
  : Result (Globals * IntegrationAttempt) :=
  NewLInfo ← getLInfo ia UL;
  (* Give header its store: *)
  pre ← getBBStore ia (preheaderIdx NewLInfo);
  ia1 ← setBBStore ia (headerIdx NewLInfo) pre;
  if negb (edgeIsDead ia1 (latchIdx NewLInfo) (headerIdx NewLInfo)) then
    if negb secondPass then
      '(g2, ia2) ← findTentativeLoadsInLoop g ia1 (Some UL)
                      commitDisabledHere false true;
      latch ← getBBStore ia2 (latchIdx NewLInfo);
      ia3 ← setBBStore ia2 (headerIdx NewLInfo) latch;
      findTentativeLoadsInLoop g2 ia3 (Some UL) commitDisabledHere true false
    else
      findTentativeLoadsInLoop g ia1 (Some UL) commitDisabledHere true false
  else
    findTentativeLoadsInLoop g ia1 (Some UL) commitDisabledHere secondPass false.

(** The loop over the iterations of a terminated peel attempt.  [done]
    holds the iterations already walked and [entry] is the store
    handed to the header of the next one (the preheader's store for
    the first iteration, the previous latch's afterwards). *)
Fixpoint walkIterations (g : Globals) (done its : list IntegrationAttempt)
    (entry : option TLLocalStore)
    (scope : Loop) (latch : nat) (commitDisabled secondPass : bool)
  : Result (Globals * list IntegrationAttempt) :=
  match its with
  | [] => Ok (g, done)
  | it :: rest =>
      it0 ← setEntryStore it entry;
      '(g', it') ← findTentativeLoadsInLoop g it0 (Some scope)
                      commitDisabled secondPass false;
      match rest with
      | [] => Ok (g', done ++ [it'])
      | _ :: _ =>
          st ← getBBStore it' latch;
          walkIterations g' (done ++ [it']) rest st scope latch
            commitDisabled secondPass
      end
  end.

(** A block that belongs to a child loop: walk the whole loop, through
    its peeled iterations when the peel attempt is terminated and in
    place otherwise. *)
Definition walkChildLoop (g : Globals) (ia : IntegrationAttempt) (scope : Loop)
    (commitDisabledHere secondPass : bool)
  : Result (Globals * IntegrationAttempt) :=
  NewLInfo ← getLInfo ia scope;
  match getPeelAttempt ia scope with
  | Some (mkPA its true en) =>
      pre ← getBBStore ia (preheaderIdx NewLInfo);
      match its with
      | [] => Fatal
      | _ :: _ =>
          '(g', its') ← walkIterations g [] its pre scope
                           (latchIdx NewLInfo)
                           (commitDisabledHere || negb en) secondPass;
          Ok (g', set_peelChildren
                    (updateLoop scope (mkPA its' true en) (peelChildren ia)) ia)
      end
  | LPA =>
      findTentativeLoadsInUnboundedLoop g ia scope
        (commitDisabledHere
         || match LPA with Some pa => negb (paIsEnabled pa) | None => false end)
        secondPass
  end.

(** [while(i != ilim && scope->contains(getBBInvar(i)->naturalScope)) ++i] *)
Fixpoint skipLoopBlocks (n : nat) (ia : IntegrationAttempt) (scope : Loop)
    (i ilim : nat) : nat :=
  match n with
  | O => i
  | S n' =>
      if (i =? ilim)%nat then i
      else match getBBInvar ia i with
           | Some BBI =>
               if contains scope (naturalScope BBI)
               then skipLoopBlocks n' ia scope (S i) ilim
               else i
           | None => i
           end
  end.

(** The instruction loop of a block.  [BBst] is [BB->tlStore]; the
    result carries the analysed instructions and whether the loop
    broke on a call that never returns. *)
Fixpoint walkInsts (g : Globals) (ia : IntegrationAttempt)
    (BBst : option TLLocalStore)
    (done todo : list ShadowInstruction)
    (commitDisabledHere secondPass : bool) {struct todo}
  : Result (Globals * IntegrationAttempt * option TLLocalStore
            * list ShadowInstruction * bool) :=
  match todo with
  | [] => Ok (g, ia, BBst, done, false)
  | SI :: rest =>
      st ← ofOption BBst;
      '(SI', s') ← ofOption
           (TLAnalyseInstruction cfg isNullOrConst SI commitDisabledHere secondPass
              {| bbStore := st; iaYieldState := yieldState ia;
                 iaReadsTentativeData := readsTentativeData ia |});
      let ia1 := set_flags (iaYieldState s') (iaReadsTentativeData s') ia in
      let done' := done ++ [SI'] in
      if is_CallInst SI' then
        match getInlineAttempt ia1 SI' with
        | Some IA =>
            IA1 ← setEntryStore IA (Some (bbStore s'));
            '(g', IA2) ← findTentativeLoads g IA1
                            (commitDisabledHere || negb (isEnabled IA1)) secondPass;
            let ia2 := set_inlineChildren
                         (updateInst (instId SI') IA2 (inlineChildren ia1)) ia1 in
            match doTLCallMerge ia2 IA2 with
            | None => Ok (g', ia2, None, done' ++ rest, true)
            | Some merged =>
                walkInsts g' ia2 (Some merged) done' rest
                  commitDisabledHere secondPass
            end
        | None =>
            walkInsts g ia1 (Some (bbStore s')) done' rest
              commitDisabledHere secondPass
        end
      else
        walkInsts g ia1 (Some (bbStore s')) done' rest
          commitDisabledHere secondPass
  end.

(** The loop over the successors: fails when the assertion in
    [servesSuccessor] does. *)
Fixpoint checkSuccessors (ia : IntegrationAttempt) (l : option Loop)
    (LInfo_l : option ShadowLoopInvar) (latchToHeader : bool) (BB : ShadowBB)
    (succs : list nat) (alive : list bool) : Result unit :=
  match succs, alive with
  | sidx :: succs', a :: alive' =>
      if a then
        SuccBBI ← ofOption (getBBInvar ia sidx);
        _ ← ofOption (servesSuccessor l (thisL ia) LInfo_l latchToHeader
                         (idx (invar BB)) SuccBBI);
        checkSuccessors ia l LInfo_l latchToHeader BB succs' alive'
      else checkSuccessors ia l LInfo_l latchToHeader BB succs' alive'
  | [], _ => Ok tt
  | _ :: _, [] => Fatal
  end.

(** One block of the context's own scope, from the merge of its
    predecessors' stores to the release of its store. *)
Definition walkBlock (g : Globals) (ia : IntegrationAttempt) (l : option Loop)
    (LInfo_l : option ShadowLoopInvar) (startIdx i : nat) (BB : ShadowBB)
    (commitDisabledHere secondPass latchToHeader : bool)
  : Result (Globals * IntegrationAttempt) :=
  let st0 := if negb (i =? startIdx)%nat then doTLStoreMerge ia i
             else tlStore BB in
  st1 ← ofOption st0;
  st2 ← TLWalkPathConditions ia i (negb commitDisabledHere) secondPass st1;
  bindR (walkInsts g ia (Some st2) [] (insts BB) commitDisabledHere secondPass)
  (fun '(g', ia', st3, insts', brokeOnUnreachableCall) =>
  match st3 with
  | None =>
      (* Block doesn't have a store due to a never-returns call. *)
      if brokeOnUnreachableCall
      then Ok (g', setBB ia' i (set_insts insts' (set_tlStore None BB)))
      else Fatal
  | Some st =>
      _ ← checkSuccessors ia' l LInfo_l latchToHeader BB
             (succIdxs (invar BB)) (succsAlive BB);
      (* Drop stack allocations here. *)
      let st' := match succIdxs (invar BB) with
                 | [] => if negb (frameSize (invarInfo ia') =? -1)
                         then popStackFrame st else st
                 | _ => st
                 end in
      Ok (g', setBB ia' i (set_insts insts' (set_tlStore (Some st') BB)))
  end).

(** The loop over the blocks, [n] bounding the number of iterations
    left ([i] grows by at least one each time). *)
Fixpoint walkBlocks (n : nat) (g : Globals) (ia : IntegrationAttempt)
    (l : option Loop) (LInfo_l : option ShadowLoopInvar) (startIdx i : nat)
    (commitDisabledHere secondPass latchToHeader : bool)
  : Result (Globals * IntegrationAttempt) :=
  match n with
  | O => Ok (g, ia)
  | S n' =>
      let ilim := (nBBs ia + BBsOffset ia)%nat in
      if (i =? ilim)%nat then Ok (g, ia)
      else
        BBI ← ofOption (getBBInvar ia i);
        if match l with
           | None => true
           | Some l' => contains l' (naturalScope BBI)
           end
        then
          match getBB ia i with
          | None =>
              walkBlocks n' g ia l LInfo_l startIdx (S i)
                commitDisabledHere secondPass latchToHeader
          | Some BB =>
              if negb (scope_eqb (naturalScope (invar BB)) l) then
                scope ← ofOption (naturalScope (invar BB));
                '(g', ia') ← walkChildLoop g ia scope commitDisabledHere secondPass;
                walkBlocks n' g' ia' l LInfo_l startIdx
                  (skipLoopBlocks n' ia' scope i ilim)
                  commitDisabledHere secondPass latchToHeader
              else
                '(g', ia') ← walkBlock g ia l LInfo_l startIdx i BB
                                commitDisabledHere secondPass latchToHeader;
                walkBlocks n' g' ia' l LInfo_l startIdx (S i)
                  commitDisabledHere secondPass latchToHeader
          end
        else Ok (g, ia)
  end.

(** The body of [IntegrationAttempt::findTentativeLoadsInLoop]. *)
Definition findTentativeLoadsInLoop_body : WalkFn :=
  fun g ia l commitDisabledHere secondPass latchToHeader =>
    (* Don't repeat search due to sharing: *)
    if tentativeLoadsRun ia then Ok (g, ia)
    else
      let g1 := TLProgress g in
      LInfo_l ← match l with
                 | Some l' => LI ← getLInfo ia l' ; Ok (Some LI)
                 | None => Ok None
                 end;
      let startIdx := match LInfo_l with
                      | Some LI => headerIdx LI
                      | None => O
                      end in
      walkBlocks (S (nBBs ia + BBsOffset ia - startIdx)) g1 ia l LInfo_l
        startIdx startIdx commitDisabledHere secondPass latchToHeader.

End OpenRecursion.

(** Tying the knot: [fuel] bounds the nesting of recursive walks. *)
Fixpoint findTentativeLoadsInLoop (fuel : nat) : WalkFn :=
  match fuel with
  | O => fun _ _ _ _ _ _ => OutOfFuel
  | S fuel' => findTentativeLoadsInLoop_body (findTentativeLoadsInLoop fuel')
  end.

(** [rerunTentativeLoads(SI, IA)]: the new value of [SI->parent->tlStore]. *)
Definition rerunTentativeLoads (BBst : TLLocalStore) (IA : IntegrationAttempt)
  : Result TLLocalStore :=
  if readsTentativeData IA then
    Ok (set_allOthersClobbered true (getEmptyMap BBst))
  else
    ofOption (backupTlStore IA).

End Walk.

(** ** The interface to the other passes *)

(** [IntegrationAttempt::containsTentativeLoads] and
    [PeelAttempt::containsTentativeLoads] *)
Definition containsTentativeLoads (ia : IntegrationAttempt) : bool :=
  readsTentativeData ia.

Definition PeelAttempt_containsTentativeLoads (pa : PeelAttempt) : bool :=
  existsb containsTentativeLoads (Iterations pa).

(** Modelled from the spec: [immediateChildLoop(Parent, Child)], whose
    body is not among the sources, is the ancestor of [Child] (or [Child]
    itself) whose parent is [Parent], found by walking up the parent
    chain. *)
Fixpoint immediateChildLoop (Parent : option Loop) (Child : Loop) : Loop :=
  match Child with
  | TopLoop _ => Child
  | SubLoop _ p =>
      if scope_eqb (Some p) Parent then Child else immediateChildLoop Parent p
  end.

(** The loop of [requiresRuntimeCheck2] over the predecessors of a PHI's
    block: some predecessor lies in a terminated, disabled child loop that
    reads tentative data. *)
Definition phiPredNeedsCheck (ia : IntegrationAttempt) (predIdx : nat) : bool :=
  match getBBInvar ia predIdx with
  | None => false
  | Some predBBI =>
      if negb (scope_eqb (naturalScope predBBI) (thisL ia))
         && match thisL ia with
            | None => true
            | Some l => contains l (naturalScope predBBI)
            end
      then
        match naturalScope predBBI with
        | None => false
        | Some c =>
            match getPeelAttempt ia (immediateChildLoop (thisL ia) c) with
            | Some LPA =>
                isTerminated LPA && negb (paIsEnabled LPA)
                && PeelAttempt_containsTentativeLoads LPA
            | None => false
            end
        end
      else false
  end.

(** [IntegrationAttempt::requiresRuntimeCheck2] for an instruction [SI] of
    block [BB] of context [ia]. *)
Definition requiresRuntimeCheck2 (ia : IntegrationAttempt) (BB : ShadowBB)
    (SI : ShadowInstruction) (includeSpecialChecks : bool) : bool :=
  if typeIsVoid SI then false
  else
    match PB SI with
    | None => false (* member of a disabled loop that hasn't been analysed *)
    | Some pb =>
        if RCT_eqb (needsRuntimeCheck SI) RUNTIME_CHECK_AS_EXPECTED then true
        else if includeSpecialChecks
                && RCT_eqb (needsRuntimeCheck SI) RUNTIME_CHECK_SPECIAL then true
        else if is_LoadInst SI || is_MemTransferInst SI then
          TLS_eqb (isThreadLocal SI) TLS_MUSTCHECK
        else if is_CallInst SI then
          match getInlineAttempt ia SI with
          | Some IA =>
              if negb (isEnabled IA) && containsTentativeLoads IA
              then negb (isWhollyUnknown pb)
              else false
          | None => false
          end
        else if is_PHINode SI then
          if existsb (phiPredNeedsCheck ia) (predIdxs (invar BB))
          then negb (isWhollyUnknown pb)
          else false
        else false
    end.

(** [llvm::requiresRuntimeCheck] for a value that is an instruction. *)
Definition requiresRuntimeCheck (cfg : Config) (ia : IntegrationAttempt)
    (BB : ShadowBB) (SI : ShadowInstruction) (includeSpecialChecks : bool) : bool :=
  if omitChecks cfg then false
  else requiresRuntimeCheck2 ia BB SI includeSpecialChecks.

(** ** Scenario programs *)

(** An operand known to point at offset 0 of allocation [p]. *)
Definition ptrTo (p : ShadowValue) : Operand :=
  {| uniqueIV := Some (ValSetTypePB, {| V := p; Offset := 0 |});
     ivOrSingle := inr (ValSetTypePB, {| V := p; Offset := 0 |});
     constantInt := None |}.

(** A freshly created instruction record ([createBB] sets
    [isThreadLocal = TLS_MUSTCHECK] and [needsRuntimeCheck = NONE]). *)
Definition freshInst (id : N) (k : InstKind) (slf : Operand)
    (pb : option ImprovedValSet) (void : bool) : ShadowInstruction :=
  {| instId := id; kind := k; self := slf; PB := pb; typeIsVoid := void;
     isThreadLocal := TLS_MUSTCHECK; needsRuntimeCheck := RUNTIME_CHECK_NONE |}.

(** [alloc p] of [asz] bytes, [store p, v] and [load p] of [sz] bytes. *)
Definition allocInst (p : ShadowValue) (asz : Z) : ShadowInstruction :=
  freshInst 0 (KAlloca asz) (ptrTo p)
    (Some (IVSingle {| SetType := ValSetTypePB;
                       Values := [{| V := p; Offset := 0 |}];
                       whollyUnknown := false |})) false.

Definition storeInst (p : ShadowValue) (sz : Z) : ShadowInstruction :=
  freshInst 1 (KStore (ptrTo p) sz) emptyOperand None true.

Definition loadInst (id : N) (p : ShadowValue) (sz : Z) (v : ImprovedValSetSingle)
  : ShadowInstruction :=
  freshInst id (KLoad false false (ptrTo p) sz) emptyOperand (Some (IVSingle v)) false.

(** A call to function [F] that reads no file and takes no arguments. *)
Definition callInst (id : N) (F : Function) : ShadowInstruction :=
  freshInst id (KCall (Some F) [] None 0) emptyOperand None true.

(** A concrete configuration of a multi-threaded program in which function
    7 is registered as yielding. *)
Definition cfgThreads : Config :=
  {| programSingleThreaded := false; omitChecks := false;
     yieldFunctions := {[ 7%N ]}; SpecialFunctionMap := ∅;
     pessimisticLocks := ∅; lockDomains := ∅; memcpyValues := ∅ |}.

Definition cfgSingle : Config :=
  {| programSingleThreaded := true; omitChecks := false;
     yieldFunctions := {[ 7%N ]}; SpecialFunctionMap := ∅;
     pessimisticLocks := ∅; lockDomains := ∅; memcpyValues := ∅ |}.

Definition yieldFn : Function := {| fid := 7; fname := "sched_yield" |}.

Definition nullOrConstGV (O : ShadowValue) : bool :=
  isNullPointer O || isConstantGV O.

Definition knownScalar : ImprovedValSetSingle :=
  {| SetType := ValSetTypeScalar; Values := []; whollyUnknown := false |}.

Definition unknownValue : ImprovedValSetSingle :=
  {| SetType := ValSetTypeUnknown; Values := []; whollyUnknown := true |}.

(** One frame, nothing listed, everything else clobbered: the store of a
    block reached after a yield point. *)
Definition clobberedStore : TLLocalStore :=
  {| frames := [∅]; heap := ∅; allOthersClobbered := true |}.

Definition stateOf (st : TLLocalStore) : TLState :=
  {| bbStore := st; iaYieldState := BARRIER_NONE; iaReadsTentativeData := false |}.

(** A context made of one block that ends in a return: no loops, no
    inlined calls, no peeled loops.  [st] is the store handed to its entry
    block by the caller. *)
Definition retBlockInvar : ShadowBBInvar :=
  {| idx := 0; succIdxs := []; predIdxs := []; naturalScope := None;
     terminatorIsReturn := true |}.

Definition leafInvar : ShadowFunctionInvar :=
  {| fBBs := [retBlockInvar]; LInfo := []; frameSize := -1 |}.

Definition leafBlock (st : option TLLocalStore) (l : list ShadowInstruction) : ShadowBB :=
  {| invar := retBlockInvar; tlStore := st; succsAlive := []; insts := l |}.

Definition leafContext (enabled : bool) (st : option TLLocalStore)
    (l : list ShadowInstruction) : IntegrationAttempt :=
  {| thisL := None; invarInfo := leafInvar; BBsOffset := 0;
     BBs := [Some (leafBlock st l)]; inlineChildren := []; peelChildren := [];
     tentativeLoadsRun := false; readsTentativeData := false;
     yieldState := BARRIER_NONE; isEnabled := enabled; isRootMainCall := false;
     hasCallers := true; backupTlStore := None |}.

(** A load of [p] that an earlier run classified no-check-needed. *)
Definition settledLoad : ShadowInstruction :=
  with_isThreadLocal TLS_NOCHECK (loadInst 2 (SVStackObj 0 0) 4 knownScalar).

(** Stand-ins for the code the walk calls outside the sources, for
    contexts in which it is never reached or has nothing to do: no block
    with a predecessor inside the walked range, no inlined call, no path
    condition, every edge live. *)
Definition noStoreMerge : IntegrationAttempt -> nat -> option TLLocalStore :=
  fun _ _ => None.
Definition noCallMerge : IntegrationAttempt -> IntegrationAttempt -> option TLLocalStore :=
  fun _ _ => None.
Definition noPathConditions :
  IntegrationAttempt -> nat -> bool -> bool -> TLLocalStore -> Result TLLocalStore :=
  fun _ _ _ _ st => Ok st.
Definition allEdgesLive : IntegrationAttempt -> nat -> nat -> bool :=
  fun _ _ _ => false.

Definition walkLeaf (fuel : nat) : WalkFn :=
  findTentativeLoadsInLoop cfgThreads nullOrConstGV noStoreMerge noCallMerge
    noPathConditions allEdgesLive fuel.

Definition globals0 : Globals := {| TLProgressN := 0; errsDots := O |}.

(** The thread-locality states of the instructions of block [i]. *)
Definition blockFlags (ia : IntegrationAttempt) (i : nat) : list ThreadLocalState :=
  match getBB ia i with
  | Some BB => map isThreadLocal (insts BB)
  | None => []
  end.

(** Two loads of the same allocation: the first reads a value the
    propagation knows nothing about, the second a known value. *)
Definition twoLoads : list ShadowInstruction :=
  [loadInst 1 (SVStackObj 0 0) 4 unknownValue;
   loadInst 2 (SVStackObj 0 0) 4 knownScalar].

Definition twoLoadsContext : IntegrationAttempt :=
  leafContext true (Some clobberedStore) twoLoads.

(** No context reachable through inlined calls and terminated peel
    attempts, down to depth [n], has its run flag set. *)
Fixpoint flagsCleared (n : nat) (ia : IntegrationAttempt) : Prop :=
  tentativeLoadsRun ia = false
  /\ match n with
     | O => True
     | S n' =>
         Forall (fun kc => flagsCleared n' (snd kc)) (inlineChildren ia)
         /\ Forall (fun kp => isTerminated (snd kp) = true ->
                              Forall (flagsCleared n') (Iterations (snd kp)))
              (peelChildren ia)
     end.

(** A function with an unbounded loop of one block: block 0 is the
    preheader, block 1 header and latch, block 2 the exit. *)
Definition oneBlockLoop : Loop := TopLoop 1.

Definition loopFunctionInvar : ShadowFunctionInvar :=
  {| fBBs :=
       [ {| idx := 0; succIdxs := [1%nat]; predIdxs := []; naturalScope := None;
            terminatorIsReturn := false |};
         {| idx := 1; succIdxs := [1%nat; 2%nat]; predIdxs := [0%nat; 1%nat];
            naturalScope := Some oneBlockLoop; terminatorIsReturn := false |};
         {| idx := 2; succIdxs := []; predIdxs := [1%nat]; naturalScope := None;
            terminatorIsReturn := true |} ];
     LInfo := [(oneBlockLoop,
                {| headerIdx := 1; preheaderIdx := 0; latchIdx := 1; nBlocks := 1 |})];
     frameSize := -1 |}.

Definition loopContext : IntegrationAttempt :=
  {| thisL := None; invarInfo := loopFunctionInvar; BBsOffset := 0;
     BBs :=
       [ Some {| invar := {| idx := 0; succIdxs := [1%nat]; predIdxs := [];
                             naturalScope := None; terminatorIsReturn := false |};
                 tlStore := Some clobberedStore; succsAlive := [true]; insts := [] |};
         Some {| invar := {| idx := 1; succIdxs := [1%nat; 2%nat];
                             predIdxs := [0%nat; 1%nat];
                             naturalScope := Some oneBlockLoop;
                             terminatorIsReturn := false |};
                 tlStore := None; succsAlive := [true; true];
                 insts := [loadInst 2 (SVStackObj 0 0) 4 knownScalar] |};
         Some {| invar := {| idx := 2; succIdxs := []; predIdxs := [1%nat];
                             naturalScope := None; terminatorIsReturn := true |};
                 tlStore := None; succsAlive := []; insts := [] |} ];
     inlineChildren := []; peelChildren := [];
     tentativeLoadsRun := false; readsTentativeData := false;
     yieldState := BARRIER_NONE; isEnabled := true; isRootMainCall := false;
     hasCallers := true; backupTlStore := None |}.

(** ** The invariant model builder ([LLPEAnalysisPass::getFunctionInvarInfo])

    The input is the function as LLVM presents it: its blocks in layout
    order (entry first), the blocks in the topological order produced by
    [createTopOrderingFrom] and reversed, and the loop nest of [LoopInfo].
    The model builds the block descriptors (indices of successors and
    predecessors), the loop descriptors and the frame size; the operand and
    user cross-references, which no property below reads, are left out. *)

Inductive Opcode : Type := OpAlloca | OpReturn | OpOther.

Definition isa_AllocaInst (o : Opcode) : bool :=
  match o with OpAlloca => true | _ => false end.

Definition isa_ReturnInst (o : Opcode) : bool :=
  match o with OpReturn => true | _ => false end.

Record BasicBlock : Type := mkBasicBlock
  { blockId : N;
    blockName : string;
    blockInsts : list Opcode;
    blockSuccs : list N;
    blockPreds : list N }.

#[warnings="-register-all"]
Inductive LLVMLoop : Type :=
  mkLLVMLoop (getHeader getLoopPreheader getLoopLatch : N) (getBlocks : list N)
             (isLoopSimplifyForm isLCSSAForm : bool) (getSubLoops : list LLVMLoop).

Definition loopHeader (L : LLVMLoop) : N :=
  match L with mkLLVMLoop h _ _ _ _ _ _ => h end.

Definition loopBlocks (L : LLVMLoop) : list N :=
  match L with mkLLVMLoop _ _ _ bs _ _ _ => bs end.

(** Modelled from the spec: [getOptimisticEdge(LF, BB)], whose body is not
    among the sources, gives the sink of the optimistic edge that leaves
    block [BB] of function [LF], if the function has one there; it is a
    field of the function here. *)
Record LLVMFunction : Type := mkLLVMFunction
  { functionName : string;
    functionBlocks : list BasicBlock;
    TopOrderedBlocks : list BasicBlock;
    topLevelLoops : list LLVMLoop;
    getOptimisticEdge : N -> option N }.

(** [LI->getLoopFor(BB)]: the innermost loop that holds the block. *)
Fixpoint getLoopForIn (L : LLVMLoop) (b : N) : option LLVMLoop :=
  match L with
  | mkLLVMLoop _ _ _ bs _ _ subs =>
      if existsb (N.eqb b) bs then
        match (fix inner (l : list LLVMLoop) : option LLVMLoop :=
                 match l with
                 | [] => None
                 | c :: r => match getLoopForIn c b with
                             | Some x => Some x
                             | None => inner r
                             end
                 end) subs with
        | Some x => Some x
        | None => Some L
        end
      else None
  end.

Fixpoint getLoopFor (loops : list LLVMLoop) (b : N) : option LLVMLoop :=
  match loops with
  | [] => None
  | L :: rest => match getLoopForIn L b with
                 | Some x => Some x
                 | None => getLoopFor rest b
                 end
  end.

(** What the builder writes to [errs()]: "Warning: block [block] in
    [function] has predecessor [pred] that comes after it topologically,
    but this is not a loop header. The program is not in well-nested
    natural loop form." *)
Record Diagnostic : Type := mkDiagnostic
  { diagBlock : string;
    diagFunction : string;
    diagPred : string }.

(** [BBIndices]: the second loop of the builder. *)
Fixpoint assignIndices (i : nat) (blocks : list BasicBlock) (m : gmap N nat)
  : gmap N nat :=
  match blocks with
  | [] => m
  | BB :: rest => assignIndices (S i) rest (<[blockId BB := i]> m)
  end.

(** [BBIndices[BB]]: an absent key reads as the default index 0. *)
Definition indexOf (BBIndices : gmap N nat) (b : N) : nat :=
  default O (BBIndices !! b).

Definition nameOf (F : LLVMFunction) (b : N) : string :=
  match List.find (fun BB => N.eqb (blockId BB) b) (functionBlocks F) with
  | Some BB => blockName BB
  | None => EmptyString
  end.

(** The loop over the predecessors of block [BB], which has index [i]:
    the predecessor indices and the warnings printed. *)
Fixpoint scanPredecessors (F : LLVMFunction) (BBIndices : gmap N nat) (i : nat)
    (BB : BasicBlock) (BBScope : option LLVMLoop) (preds : list N)
  : list nat * list Diagnostic :=
  match preds with
  | [] => ([], [])
  | PI :: rest =>
      let predIdx := indexOf BBIndices PI in
      let warn :=
        if (i <? predIdx)%nat then
          if match BBScope with
             | None => true
             | Some L => negb (N.eqb (blockId BB) (loopHeader L))
             end
          then [ {| diagBlock := blockName BB; diagFunction := functionName F;
                    diagPred := nameOf F PI |} ]
          else []
        else [] in
      let '(idxs, warns) := scanPredecessors F BBIndices i BB BBScope rest in
      (predIdx :: idxs, warn ++ warns)
  end.

(** The warning printed for predecessor [PI] of block [BB] (index [i]), if
    any: [PI] comes after [BB] and [BB] is not the header of its loop. *)
Definition warningFor (F : LLVMFunction) (BBIndices : gmap N nat) (i : nat)
    (BB : BasicBlock) (BBScope : option LLVMLoop) (PI : N) : list Diagnostic :=
  if (i <? indexOf BBIndices PI)%nat
     && match BBScope with
        | None => true
        | Some L => negb (N.eqb (blockId BB) (loopHeader L))
        end
  then [ {| diagBlock := blockName BB; diagFunction := functionName F;
            diagPred := nameOf F PI |} ]
  else [].

(** The first descriptor loop: one [ShadowBBInvar] per ordered block. *)
Fixpoint buildBlocks (F : LLVMFunction) (BBIndices : gmap N nat) (i : nat)
    (blocks : list BasicBlock) : list ShadowBBInvar * list Diagnostic :=
  match blocks with
  | [] => ([], [])
  | BB :: rest =>
      let BBScope := getLoopFor (topLevelLoops F) (blockId BB) in
      let '(preds, warns) :=
        scanPredecessors F BBIndices i BB BBScope (blockPreds BB) in
      let SBB :=
        {| idx := i;
           succIdxs := map (indexOf BBIndices) (blockSuccs BB);
           predIdxs := preds;
           naturalScope := None;
           terminatorIsReturn :=
             match last (blockInsts BB) with
             | Some o => isa_ReturnInst o
             | None => false
             end |} in
      let '(SBBs, warns') := buildBlocks F BBIndices (S i) rest in
      (SBB :: SBBs, warns ++ warns')
  end.

(** [FInfo->BBs[i].naturalScope = LInfo] for the blocks of a loop. *)
Fixpoint setNaturalScope (l : Loop) (first count : nat) (BBs : list ShadowBBInvar)
  : list ShadowBBInvar :=
  match BBs with
  | [] => []
  | SBB :: rest =>
      (if (first <=? idx SBB)%nat && (idx SBB <? first + count)%nat
       then {| idx := idx SBB; succIdxs := succIdxs SBB; predIdxs := predIdxs SBB;
               naturalScope := Some l;
               terminatorIsReturn := terminatorIsReturn SBB |}
       else SBB) :: setNaturalScope l first count rest
  end.

(** Running a loop-descriptor builder over a list of loops, in order,
    stopping at the first failure. *)
Definition forEachLoop {A : Type} (f : LLVMLoop -> A -> Result A)
  : list LLVMLoop -> A -> Result A :=
  fix go (l : list LLVMLoop) (a : A) : Result A :=
    match l with
    | [] => Ok a
    | c :: r =>
        match f c a with
        | Ok a' => go r a'
        | Fatal => Fatal
        | OutOfFuel => OutOfFuel
        end
    end.

(** The optimistic edge found by the loop of [getLoopInfo] over the blocks
    [i .. i + count) of a loop; [FInfo->BBs[i].BB] is the [i]-th ordered
    block.  [None] is the pair (0xffffffff, 0xffffffff) the descriptor starts
    with.  [release_assert]: only one optimistic edge is allowed per loop. *)
Fixpoint scanOptimisticEdges (F : LLVMFunction) (BBIndices : gmap N nat)
    (i count : nat) (optimisticEdge : option (nat * nat))
  : Result (option (nat * nat)) :=
  match count with
  | O => Ok optimisticEdge
  | S count' =>
      match match TopOrderedBlocks F !! i with
            | Some BB => getOptimisticEdge F (blockId BB)
            | None => None
            end with
      | Some OptEdgeSink =>
          match optimisticEdge with
          | Some _ => Fatal
          | None =>
              scanOptimisticEdges F BBIndices (S i) count'
                (Some (i, indexOf BBIndices OptEdgeSink))
          end
      | None => scanOptimisticEdges F BBIndices (S i) count' optimisticEdge
      end
  end.

(** [LLPEAnalysisPass::getLoopInfo], threading the block descriptors and
    the loop descriptors built so far.  The optimistic edge is found and
    checked; the descriptor of the model does not keep it. *)
Fixpoint getLoopInfo (F : LLVMFunction) (BBIndices : gmap N nat) (L : LLVMLoop)
    (Parent : option Loop)
    (acc : list ShadowBBInvar * list (Loop * ShadowLoopInvar))
  : Result (list ShadowBBInvar * list (Loop * ShadowLoopInvar)) :=
  match L with
  | mkLLVMLoop h ph la bs simplify lcssa subs =>
      (* release_assert: the loop is in simplified and LCSSA form *)
      if negb (simplify && lcssa) then Fatal
      else
        let me := match Parent with
                  | None => TopLoop h
                  | Some q => SubLoop h q
                  end in
        let LI := {| headerIdx := indexOf BBIndices h;
                     preheaderIdx := indexOf BBIndices ph;
                     latchIdx := indexOf BBIndices la;
                     nBlocks := length bs |} in
        match scanOptimisticEdges F BBIndices (indexOf BBIndices h) (length bs) None with
        | Ok _ =>
            forEachLoop (fun c a => getLoopInfo F BBIndices c (Some me) a) subs
              (setNaturalScope me (indexOf BBIndices h) (length bs) (fst acc),
               snd acc ++ [(me, LI)])
        | Fatal => Fatal
        | OutOfFuel => OutOfFuel
        end
  end.

(** The loop over [LI->begin() .. LI->end()]. *)
Definition getTopLevelLoops (F : LLVMFunction) (BBIndices : gmap N nat)
    (loops : list LLVMLoop)
    (acc : list ShadowBBInvar * list (Loop * ShadowLoopInvar))
  : Result (list ShadowBBInvar * list (Loop * ShadowLoopInvar)) :=
  forEachLoop (fun L a => getLoopInfo F BBIndices L None a) loops acc.

(** The number of alloca instructions at the start of the entry block. *)
Fixpoint countLeadingAllocas (l : list Opcode) : Z :=
  match l with
  | o :: rest => if isa_AllocaInst o then 1 + countLeadingAllocas rest else 0
  | [] => 0
  end.

(** All instructions of the function, in [inst_begin .. inst_end] order. *)
Definition allInstructions (F : LLVMFunction) : list Opcode :=
  concat (map blockInsts (functionBlocks F)).

Definition entryInstructions (F : LLVMFunction) : list Opcode :=
  match functionBlocks F with
  | BB :: _ => blockInsts BB
  | [] => []
  end.

(** The frame-size computation at the end of the builder; [RootIA] says
    whether the root context already exists. *)
Definition computeFrameSize (F : LLVMFunction) (RootIA : bool) : Z :=
  let count := countLeadingAllocas (entryInstructions F) in
  if (count =? 0) && RootIA then
    (* Magic value indicating the function will never alloca anything *)
    if existsb isa_AllocaInst (allInstructions F) then 0 else -1
  else count.

Definition getFunctionInvarInfo (F : LLVMFunction) (RootIA : bool)
  : Result (ShadowFunctionInvar * list Diagnostic) :=
  let BBIndices := assignIndices O (TopOrderedBlocks F) ∅ in
  let '(SBBs, warns) := buildBlocks F BBIndices O (TopOrderedBlocks F) in
  match getTopLevelLoops F BBIndices (topLevelLoops F) (SBBs, []) with
  | Ok (SBBs', loops) =>
      Ok ({| fBBs := SBBs'; LInfo := loops;
             frameSize := computeFrameSize F RootIA |}, warns)
  | Fatal => Fatal
  | OutOfFuel => OutOfFuel
  end.

(** The ordered blocks among [i .. i + count) that have an optimistic
    edge. *)
Fixpoint optimisticBlocks (F : LLVMFunction) (i count : nat) : list nat :=
  match count with
  | O => []
  | S count' =>
      match match TopOrderedBlocks F !! i with
            | Some BB => getOptimisticEdge F (blockId BB)
            | None => None
            end with
      | Some _ => i :: optimisticBlocks F (S i) count'
      | None => optimisticBlocks F (S i) count'
      end
  end.

(** [BBScope && SBB.BB == BBScope->getHeader()]: the block is the header
    of the innermost loop that holds it. *)
Definition isHeaderOfScope (F : LLVMFunction) (BB : BasicBlock) : bool :=
  match getLoopFor (topLevelLoops F) (blockId BB) with
  | Some L => N.eqb (blockId BB) (loopHeader L)
  | None => false
  end.

(** Every loop of the nest passes the two checks of [getLoopInfo]: it is in
    simplified and LCSSA form, and at most one of its blocks has an
    optimistic edge. *)
Fixpoint loopNormal (F : LLVMFunction) (BBIndices : gmap N nat) (L : LLVMLoop)
  : bool :=
  match L with
  | mkLLVMLoop h _ _ bs simplify lcssa subs =>
      simplify && lcssa
      && (length (optimisticBlocks F (indexOf BBIndices h) (length bs)) <=? 1)%nat
      && forallb (loopNormal F BBIndices) subs
  end.

(** A function whose cycle between A and B has two entries, so that
    [LoopInfo] finds no natural loop: E -> A, E -> B, A -> B, A -> R,
    B -> A. *)
Definition irreducibleFn : LLVMFunction :=
  let E := {| blockId := 0; blockName := "E"; blockInsts := [OpOther];
              blockSuccs := [1%N; 2%N]; blockPreds := [] |} in
  let A := {| blockId := 1; blockName := "A"; blockInsts := [OpOther];
              blockSuccs := [2%N; 3%N]; blockPreds := [0%N; 2%N] |} in
  let B := {| blockId := 2; blockName := "B"; blockInsts := [OpOther];
              blockSuccs := [1%N]; blockPreds := [0%N; 1%N] |} in
  let R := {| blockId := 3; blockName := "R"; blockInsts := [OpReturn];
              blockSuccs := []; blockPreds := [1%N] |} in
  {| functionName := "f"; functionBlocks := [E; A; B; R];
     TopOrderedBlocks := [E; A; B; R]; topLevelLoops := [];
     getOptimisticEdge := fun _ => None |}.

(** A function whose only alloca is not at the start of the entry block. *)
Definition lateAllocaFn : LLVMFunction :=
  {| functionName := "g";
     functionBlocks := [ {| blockId := 0; blockName := "entry";
                            blockInsts := [OpOther; OpAlloca; OpReturn];
                            blockSuccs := []; blockPreds := [] |} ];
     TopOrderedBlocks := [ {| blockId := 0; blockName := "entry";
                              blockInsts := [OpOther; OpAlloca; OpReturn];
                              blockSuccs := []; blockPreds := [] |} ];
     topLevelLoops := [];
     getOptimisticEdge := fun _ => None |}.

(** ** Further functions of the two files *)

(** [TLMapPointer::getReadableCopy]: a new map into which every interval
    of this one is inserted, in order. *)
Definition getReadableCopy (M : TLMapTy) : option TLMapTy :=
  IntervalMap.insertAll M IntervalMap.empty.

(** The slot of the store an allocation is kept in: a frame and an index,
    or a heap index (a non-constant global owns a heap slot); the null
    pointer and other values have none. *)
Definition storeSlot (O : ShadowValue) : option (option nat * N) :=
  match O with
  | SVStackObj f i => Some (Some f, i)
  | SVHeapObj i | SVGlobal i _ => Some (None, i)
  | SVNull | SVOther => None
  end.

(** The store has a place for [O]: a heap slot, or a frame that exists. *)
Definition hasSlot (st : TLLocalStore) (O : ShadowValue) : bool :=
  match O with
  | SVStackObj f _ => bool_decide (is_Some (frames st !! f))
  | SVHeapObj _ | SVGlobal _ _ => true
  | SVNull | SVOther => false
  end.

(** Every map listed in the store is in the container's canonical form. *)
Definition storeWf (st : TLLocalStore) : Prop :=
  forall O M, getReadableStoreFor st O = Some M -> IntervalMap.wf M.

(** A canonical map whose offsets are non-negative and below [2^63 - 1]:
    there the signed comparisons of [shouldCheckRead] agree with the
    unsigned keys of the map. *)
Definition signedRange (M : TLMapTy) : Prop :=
  IntervalMap.wf_from (-1) M /\ IntervalMap.below (2 ^ 63 - 1) M.

(** The instructions at which [updateTLStore] may forget known-safe
    bytes: volatile loads, and calls that are neither memory intrinsics
    nor file reads nor known special functions. *)
Definition mayYield (cfg : Config) (SI : ShadowInstruction) : bool :=
  match kind SI with
  | KLoad isVolatile _ _ _ => isVolatile
  | KCall F _ None _ =>
      match findSpecialFunction cfg F with
      | Some _ => false
      | None => true
      end
  | _ => false
  end.

(** The instructions at which [updateTLStore] forgets known-safe bytes: a
    volatile load that is not simple in a program with threads, and a call
    that reads no file, is no special function, may yield (an unknown
    callee in a program with threads, or a registered yield function) and
    is not a pessimistic lock. *)
Definition isYieldPoint (cfg : Config) (SI : ShadowInstruction) : bool :=
  match kind SI with
  | KLoad isVolatile simple _ _ =>
      isVolatile && negb (programSingleThreaded cfg) && negb simple
  | KCall F _ None _ =>
      match findSpecialFunction cfg F with
      | Some _ => false
      | None =>
          ((match F with None => true | Some _ => false end
            && negb (programSingleThreaded cfg))
           || inYieldFunctions cfg F)
          && negb (bool_decide (instId SI ∈ pessimisticLocks cfg))
      end
  | _ => false
  end.

(** The lock domain of a call, if the configuration gives it one. *)
Definition yieldDomain (cfg : Config) (SI : ShadowInstruction)
  : option (list ShadowValue) :=
  match kind SI with
  | KCall _ _ _ _ => lockDomains cfg !! instId SI
  | _ => None
  end.

(** What a yield point leaves of the state: with a lock domain the maps of
    the domain are cleared, without one everything is forgotten. *)
Definition afterYield (cfg : Config) (SI : ShadowInstruction) (s : TLState)
  : TLState :=
  match yieldDomain cfg SI with
  | Some domain => with_tlStore (clearDomain domain (bbStore s)) s
  | None => markAllObjectsTentative s
  end.




(** A call to a function that is neither special nor registered as
    yielding. *)
Definition putsFn : Function := {| fid := 8; fname := "puts" |}.

(** What the analysis never writes in an instruction: everything but
    its thread-locality state. *)
Definition staticPart (SI : ShadowInstruction)
  : N * InstKind * Operand * option ImprovedValSet * bool * RuntimeCheckType :=
  (instId SI, kind SI, self SI, PB SI, typeIsVoid SI, needsRuntimeCheck SI).

(** Two versions of a block that differ at most in the store and in the
    thread-locality states of the instructions. *)
Definition sameBlock (BB BB' : ShadowBB) : Prop :=
  invar BB' = invar BB /\ succsAlive BB' = succsAlive BB /\
  map staticPart (insts BB') = map staticPart (insts BB).

(** What a walk leaves alone in the context it walks: its scope, model
    and block range, which blocks exist and everything in them but stores
    and thread-locality states, the keys of its children, the run flag
    and the fields owned by other passes; the two flags the walk raises
    are never lowered. *)
Definition sameContext (ia ia' : IntegrationAttempt) : Prop :=
  thisL ia' = thisL ia /\ invarInfo ia' = invarInfo ia /\
  BBsOffset ia' = BBsOffset ia /\
  Forall2 (option_Forall2 sameBlock) (BBs ia) (BBs ia') /\
  map fst (inlineChildren ia') = map fst (inlineChildren ia) /\
  map fst (peelChildren ia') = map fst (peelChildren ia) /\
  tentativeLoadsRun ia' = tentativeLoadsRun ia /\
  isEnabled ia' = isEnabled ia /\ isRootMainCall ia' = isRootMainCall ia /\
  hasCallers ia' = hasCallers ia /\ backupTlStore ia' = backupTlStore ia /\
  (readsTentativeData ia = true -> readsTentativeData ia' = true) /\
  (yieldState ia = BARRIER_HERE -> yieldState ia' = BARRIER_HERE).

(** ** [ShadowBB::getCommittedBreakBlockAt] *)

(** A committed block as this function reads it: the index of its first
    instruction and the block to branch to when a check fails. *)
Record CommittedBlock : Type := mkCommittedBlock
  { startIndex : nat;
    breakBlock : N }.

(** The loop over [committedBlocks].  Falling out of it reaches a
    [release_assert] whose argument is a string literal, which never
    fails, and the function returns null. *)
Fixpoint getCommittedBreakBlockAt (committedBlocks : list CommittedBlock) (idx : nat)
  : option N :=
  match committedBlocks with
  | [] => None
  | Block :: rest =>
      if (startIndex Block <=? idx)%nat
         && match rest with
            | [] => true
            | next :: _ => (idx <? startIndex next)%nat
            end
      then Some (breakBlock Block)
      else getCommittedBreakBlockAt rest idx
  end.

(** ** [getUnderlyingGlobal] and [getGlobalVar] *)

(** A global value: a variable, a function, or an alias whose aliasee is
    a global value or not ([None] for a null aliasee and for one that is
    some other constant). *)
#[warnings="-register-all"]
Inductive GlobalValue : Type :=
| GlobalVariable (id : N)
| GlobalFunction (id : N)
| GlobalAlias (getAliasee : option GlobalValue).

Fixpoint getUnderlyingGlobal (V : GlobalValue) : option GlobalValue :=
  match V with
  | GlobalAlias GA =>
      match GA with
      | None => None
      | Some Aliasee => getUnderlyingGlobal Aliasee
      end
  | _ => Some V
  end.

(** [getGlobalVar(V)] for a value that is a global value ([Some GV]) or
    not. *)
Definition getGlobalVar (V : option GlobalValue) : option N :=
  match V with
  | None => None
  | Some GV =>
      match getUnderlyingGlobal GV with
      | Some (GlobalVariable id) => Some id
      | _ => None
      end
  end.

(** ** [LLPEAnalysisPass::initShadowGlobals] *)

Definition u32 (z : Z) : Z := z mod 2 ^ 32.
Definition i32 (z : Z) : Z := (z + 2 ^ 31) mod 2 ^ 32 - 2 ^ 31.

(** A global variable of the module as the function reads it. *)
Record GlobalVar : Type := mkGlobalVar
  { gvId : N;
    gvIsConstant : bool;       (* [it->isConstant()] *)
    gvPointerStoreSize : Z;    (* [getTypeStoreSize(G->getType())] *)
    gvValueStoreSize : Z       (* [getTypeStoreSize(G->getType()->getElementType())] *) }.

(** Modelled from the spec: [ShadowGV] and [AllocData] are declared in a
    header that is not among the sources; the fields are the ones this
    function writes.  A field of [ShadowGV] that has not been written is
    [None]. *)
Module ShadowGV.
Record t : Type := mk
  { G : option N;
    storeSize : option Z;
    allocIdx : option Z (* int32_t *) }.
Definition fresh : t := {| G := None; storeSize := None; allocIdx := None |}.
End ShadowGV.

Module AllocData.
Record t : Type := mk
  { allocIdx : Z;
    storeSize : Z;
    isCommitted : bool;
    allocValue : nat;          (* [ShadowValue(&shadowGlobals[i])], by its index *)
    allocType : option N       (* the type of this global *) }.
End AllocData.

(** The first loop: every global gets its number.  A write past the end
    of the array is [None]. *)
Fixpoint numberGlobals (i : nat) (globals : list GlobalVar)
    (shadowGlobals : list ShadowGV.t) (shadowGlobalsIdx : gmap N nat)
  : option (list ShadowGV.t * gmap N nat) :=
  match globals with
  | [] => Some (shadowGlobals, shadowGlobalsIdx)
  | it :: rest =>
      match shadowGlobals !! i with
      | None => None
      | Some sg =>
          numberGlobals (S i) rest
            (<[i := {| ShadowGV.G := Some (gvId it);
                       ShadowGV.storeSize := ShadowGV.storeSize sg;
                       ShadowGV.allocIdx := ShadowGV.allocIdx sg |}]> shadowGlobals)
            (<[gvId it := i]> shadowGlobalsIdx)
      end
  end.

(** The second loop: the sizes, and a heap slot for every global that is
    not constant. *)
Fixpoint sizeGlobals (i : nat) (globals : list GlobalVar)
    (shadowGlobals : list ShadowGV.t) (heap : list AllocData.t)
  : option (list ShadowGV.t * list AllocData.t) :=
  match globals with
  | [] => Some (shadowGlobals, heap)
  | it :: rest =>
      match shadowGlobals !! i with
      | None => None
      | Some sg =>
          if gvIsConstant it then
            sizeGlobals (S i) rest
              (<[i := {| ShadowGV.G := ShadowGV.G sg;
                         ShadowGV.storeSize := Some (gvPointerStoreSize it);
                         ShadowGV.allocIdx := ShadowGV.allocIdx sg |}]> shadowGlobals)
              heap
          else
            let AD := {| AllocData.allocIdx := Z.of_nat (length heap);
                         AllocData.storeSize := gvValueStoreSize it;
                         AllocData.isCommitted := true;
                         AllocData.allocValue := i;
                         AllocData.allocType := ShadowGV.G sg |} in
            sizeGlobals (S i) rest
              (<[i := {| ShadowGV.G := ShadowGV.G sg;
                         ShadowGV.storeSize := Some (gvValueStoreSize it);
                         ShadowGV.allocIdx := Some (i32 (Z.of_nat (length heap))) |}]>
                 shadowGlobals)
              (heap ++ [AD])
      end
  end.

(** [initShadowGlobals(M, extraSlots)]: the array of shadow globals, the
    index of every global and the heap. *)
Definition initShadowGlobals (globals : list GlobalVar) (extraSlots : Z)
    (shadowGlobalsIdx : gmap N nat) (heap : list AllocData.t)
  : option (list ShadowGV.t * gmap N nat * list AllocData.t) :=
  let nGlobals := u32 (u32 (Z.of_nat (length globals)) + extraSlots) in
  let shadowGlobals := replicate (Z.to_nat nGlobals) ShadowGV.fresh in
  '(shadowGlobals1, idxs) ← numberGlobals 0 globals shadowGlobals shadowGlobalsIdx;
  '(shadowGlobals2, heap') ← sizeGlobals 0 globals shadowGlobals1 heap;
  Some (shadowGlobals2, idxs, heap').

(** What the second loop leaves in the shadow [sg] of global [g], which
    has number [n]: its size and, when it is not constant, a slot of the
    final [heap] past the slots of [heap0] that holds its description. *)
Definition globalSized (heap0 heap : list AllocData.t) (n : nat) (g : GlobalVar)
    (sg : ShadowGV.t) : Prop :=
  ShadowGV.G sg = Some (gvId g) /\
  if gvIsConstant g then
    ShadowGV.storeSize sg = Some (gvPointerStoreSize g) /\ ShadowGV.allocIdx sg = None
  else
    exists a ad,
      ShadowGV.allocIdx sg = Some (Z.of_nat a) /\ (length heap0 <= a)%nat /\
      heap !! a = Some ad /\
      AllocData.allocIdx ad = Z.of_nat a /\ AllocData.allocValue ad = n /\
      AllocData.storeSize ad = gvValueStoreSize g /\
      AllocData.isCommitted ad = true /\
      AllocData.allocType ad = Some (gvId g) /\
      ShadowGV.storeSize sg = Some (gvValueStoreSize g).

(** ** [IntegrationAttempt::createBB] and [getOrCreateBB] *)

(** [createBB(blockIdx)].  [invarInsts] gives the instructions of a block
    of the invariant model ([invar->insts]); their two flags are the ones
    written here.  The array index [blockIdx - BBsOffset] is unsigned, so
    an index below the offset lies outside the array.  The constructor of
    [ShadowBB] is not among the sources: the new block reads as having no
    store. *)
Definition createBB (invarInsts : nat -> list ShadowInstruction)
    (ia : IntegrationAttempt) (blockIdx : nat)
  : Result (IntegrationAttempt * ShadowBB) :=
  if (blockIdx <? BBsOffset ia)%nat then Fatal
  else
    match BBs ia !! (blockIdx - BBsOffset ia)%nat with
    | Some None =>
        BBI ← ofOption (getBBInvar ia blockIdx);
        let newBB :=
          {| invar := BBI;
             tlStore := None;
             succsAlive := map (fun _ => false) (succIdxs BBI);
             insts := map (fun SI =>
                             {| instId := instId SI; kind := kind SI; self := self SI;
                                PB := PB SI; typeIsVoid := typeIsVoid SI;
                                isThreadLocal := TLS_MUSTCHECK;
                                needsRuntimeCheck := RUNTIME_CHECK_NONE |})
                          (invarInsts blockIdx) |} in
        Ok (setBB ia blockIdx newBB, newBB)
    | _ => Fatal (* "Creating block for the second time", or out of range *)
    end.

(** [getOrCreateBB(i)] *)
Definition getOrCreateBB (invarInsts : nat -> list ShadowInstruction)
    (ia : IntegrationAttempt) (i : nat) : Result (IntegrationAttempt * ShadowBB) :=
  match getBB ia i with
  | Some BB => Ok (ia, BB)
  | None => createBB invarInsts ia i
  end.

(** The part of a block descriptor that the loop pass of the builder
    leaves alone. *)
Definition edgesOf (SBB : ShadowBBInvar) : nat * list nat * list nat * bool :=
  (idx SBB, succIdxs SBB, predIdxs SBB, terminatorIsReturn SBB).

(** The number of loops of a nest. *)
Fixpoint loopCount (L : LLVMLoop) : nat :=
  match L with
  | mkLLVMLoop _ _ _ _ _ _ subs => S (list_sum (map loopCount subs))
  end.

(** ** Further scenario values *)

(** A store reached after a yield point in which heap allocation 0 has
    two known-safe ranges with a gap between them. *)
Definition gapStore : TLLocalStore :=
  {| frames := [∅]; heap := {[ 0%N := [(0, 2); (6, 8)] ]};
     allOthersClobbered := true |}.

(** The store of a root call at its entry: one frame, nothing listed,
    nothing clobbered. *)
Definition entryStore : TLLocalStore := pushStackFrame newStore.

(** An operand that is the constant integer [n]. *)
Definition constOperand (n : Z) : Operand :=
  {| uniqueIV := None;
     ivOrSingle := inl {| SetType := ValSetTypeScalar; Values := [];
                          whollyUnknown := false |};
     constantInt := Some n |}.

(** A configuration in which call 3 yields with a lock domain made of the
    global that owns heap slot 0. *)
Definition cfgLocks : Config :=
  {| programSingleThreaded := false; omitChecks := false;
     yieldFunctions := {[ 7%N ]}; SpecialFunctionMap := ∅;
     pessimisticLocks := ∅;
     lockDomains := {[ 3%N := [SVGlobal 0 false] ]};
     memcpyValues := ∅ |}.

(** A configuration in which function 9 is [realloc] and the copy made by
    instruction 5 read one known value of four bytes. *)
Definition cfgRealloc : Config :=
  {| programSingleThreaded := false; omitChecks := false;
     yieldFunctions := ∅; SpecialFunctionMap := {[ 9%N := SF_REALLOC ]};
     pessimisticLocks := ∅; lockDomains := ∅;
     memcpyValues := {[ 5%N := [(0, 4, knownScalar)] ]} |}.

Definition reallocFn : Function := {| fid := 9; fname := "realloc" |}.

(** [q = realloc(p, 4)] with [p] heap allocation 0 and [q] heap
    allocation 1 of eight bytes. *)
Definition reallocInst : ShadowInstruction :=
  freshInst 5 (KCall (Some reallocFn) [ptrTo (SVHeapObj 0); constOperand 4] None 8)
    (ptrTo (SVHeapObj 1))
    (Some (IVSingle {| SetType := ValSetTypePB;
                       Values := [{| V := SVHeapObj 1; Offset := 0 |}];
                       whollyUnknown := false |})) false.

(** [memcpy(q, p, 4)], instruction 5. *)
Definition memcpyInst : ShadowInstruction :=
  freshInst 5 (KMemTransfer [ptrTo (SVHeapObj 1); ptrTo (SVHeapObj 0); constOperand 4])
    emptyOperand None true.


(** A context whose only block has not been created yet. *)
Definition unbuiltContext : IntegrationAttempt :=
  set_BBs [None] (leafContext true None []).

(** Three globals: a constant and two variables. *)
Definition threeGlobals : list GlobalVar :=
  [ {| gvId := 10; gvIsConstant := true; gvPointerStoreSize := 8;
       gvValueStoreSize := 16 |};
    {| gvId := 11; gvIsConstant := false; gvPointerStoreSize := 8;
       gvValueStoreSize := 4 |};
    {| gvId := 12; gvIsConstant := false; gvPointerStoreSize := 8;
       gvValueStoreSize := 32 |} ].

(** A function with a loop of two blocks that holds an inner loop of one
    block: E -> H, H -> B, B -> B, B -> H, H -> R; the edge H -> R is the
    optimistic edge of the outer loop. *)
Definition loopFn : LLVMFunction :=
  let E := {| blockId := 0; blockName := "E"; blockInsts := [OpOther];
              blockSuccs := [1%N]; blockPreds := [] |} in
  let H := {| blockId := 1; blockName := "H"; blockInsts := [OpOther];
              blockSuccs := [2%N; 3%N]; blockPreds := [0%N; 2%N] |} in
  let B := {| blockId := 2; blockName := "B"; blockInsts := [OpOther];
              blockSuccs := [2%N; 1%N]; blockPreds := [1%N; 2%N] |} in
  let R := {| blockId := 3; blockName := "R"; blockInsts := [OpReturn];
              blockSuccs := []; blockPreds := [1%N] |} in
  {| functionName := "h"; functionBlocks := [E; H; B; R];
     TopOrderedBlocks := [E; H; B; R];
     topLevelLoops := [mkLLVMLoop 1 0 2 [1%N; 2%N] true true
                         [mkLLVMLoop 2 1 2 [2%N] true true []]];
     getOptimisticEdge := fun b => if N.eqb b 1 then Some 3%N else None |}.

(** [loopFn] with a second optimistic edge, B -> B, in the outer loop. *)
Definition twoEdgesFn : LLVMFunction :=
  {| functionName := functionName loopFn;
     functionBlocks := functionBlocks loopFn;
     TopOrderedBlocks := TopOrderedBlocks loopFn;
     topLevelLoops := topLevelLoops loopFn;
     getOptimisticEdge := fun b => if N.eqb b 1 then Some 3%N
                                   else if N.eqb b 2 then Some 2%N else None |}.

(* ================================================================== *)
(** * Properties *)
(* ================================================================== *)

(** ** Facts about the interval map *)

Module IntervalMapFacts.
Import IntervalMap.

Ltac zbool :=
  repeat match goal with
    | |- context [?a <=? ?b] => destruct (Z.leb_spec a b)
    | |- context [?a <? ?b] => destruct (Z.ltb_spec a b)
    | |- context [?a =? ?b] => destruct (Z.eqb_spec a b)
    | H : context [?a <=? ?b] |- _ => destruct (Z.leb_spec a b)
    | H : context [?a <? ?b] |- _ => destruct (Z.ltb_spec a b)
    | H : context [?a =? ?b] |- _ => destruct (Z.eqb_spec a b)
    end;
  simpl in *; try lia; try congruence.

Lemma wfb_wf m : wfb m = true -> wf m.
Proof.
  assert (G : forall m lo, wf_fromb lo m = true -> wf_from lo m).
  { induction m0 as [|[s e] r IH]; simpl; intros lo H; [exact I|].
    apply andb_prop in H as [H1 H3]. apply andb_prop in H1 as [H1 H2].
    repeat split; [lia | lia | auto]. }
  destruct m as [|[s e] r]; simpl; [trivial|].
  intros H. apply andb_prop in H as [H1 H2]. split; [lia | auto].
Qed.

Lemma wf_from_weaken lo lo' m : lo' <= lo -> wf_from lo m -> wf_from lo' m.
Proof. destruct m as [|[s e] r]; simpl; intuition lia. Qed.

Lemma wf_from_wf lo m : wf_from lo m -> wf m.
Proof. destruct m as [|[s e] r]; simpl; intuition. Qed.

Lemma wf_wf_from m : wf m -> exists lo, wf_from lo m.
Proof.
  destruct m as [|[s e] r]; simpl.
  - exists 0. exact I.
  - intros [H1 H2]. exists (s - 1). repeat split; [lia | lia | exact H2].
Qed.

Lemma mem_lower lo m x : wf_from lo m -> mem x m = true -> lo < x.
Proof.
  revert lo. induction m as [|[s e] r IH]; simpl; intros lo Hwf Hm.
  - discriminate.
  - destruct Hwf as (H1 & H2 & H3).
    apply orb_prop in Hm as [Hm|Hm].
    + zbool.
    + specialize (IH _ H3 Hm). lia.
Qed.

Lemma mem_lower_false lo m x : wf_from lo m -> x <= lo -> mem x m = false.
Proof.
  intros Hwf Hle. destruct (mem x m) eqn:E; [|reflexivity].
  apply (mem_lower _ _ _ Hwf) in E. lia.
Qed.

Lemma mem_below hi m x : below hi m -> hi <= x -> mem x m = false.
Proof.
  induction m as [|[s e] r IH]; simpl; intros Hb Hx; [reflexivity|].
  destruct Hb as [H1 H2]. rewrite (IH H2 Hx). zbool.
Qed.

Lemma mem_app x (m1 m2 : t) : mem x (m1 ++ m2) = mem x m1 || mem x m2.
Proof.
  induction m1 as [|[s e] r IH]; simpl; [reflexivity|].
  rewrite IH. apply orb_assoc.
Qed.

Lemma below_weaken hi hi' m : hi <= hi' -> below hi m -> below hi' m.
Proof.
  induction m as [|[s e] r IH]; simpl; [trivial|]. intros H [H1 H2].
  split; [lia | auto].
Qed.

Lemma find_wf_from lo x m : wf_from lo m -> wf_from lo (find x m).
Proof.
  revert lo. induction m as [|[s e] r IH]; simpl; intros lo H; [exact I|].
  destruct H as (H1 & H2 & H3).
  destruct (e <=? x).
  - apply (wf_from_weaken e); [lia | auto].
  - simpl. auto.
Qed.

Lemma find_stops_above x m : stops_above x (find x m).
Proof.
  induction m as [|[s e] r IH]; simpl; [exact I|].
  destruct (Z.leb_spec e x); simpl; [exact IH | lia].
Qed.

(** Intervals skipped by [find] lie wholly before the key. *)
Lemma find_mem lo a x m :
  wf_from lo m -> a <= x -> mem x (find a m) = mem x m.
Proof.
  revert lo. induction m as [|[s e] r IH]; simpl; intros lo H Hx; [reflexivity|].
  destruct H as (H1 & H2 & H3).
  destruct (Z.leb_spec e a); simpl; [|reflexivity].
  rewrite (IH _ H3 Hx). zbool.
Qed.

(** Inserting after the last interval always succeeds and coalesces
    with it when adjacent. *)
Lemma insertFrom_end lo a b m :
  wf_from lo m -> below a m -> lo < a -> a < b ->
  exists m', insertFrom a b m = Some m' /\ wf_from lo m' /\ below b m' /\
             forall x, mem x m' = mem x m || ((a <=? x) && (x <? b)).
Proof.
  revert lo. induction m as [|[s e] r IH]; simpl; intros lo Hwf Hb Hlo Hab.
  - exists [(a, b)]. simpl. repeat split; try lia. 
  - destruct Hwf as (H1 & H2 & H3). destruct Hb as [Hb1 Hb2].
    destruct (Z.ltb_spec e a).
    + destruct (IH e H3 Hb2 ltac:(lia) Hab) as (m' & E & W & B & M).
      rewrite E. exists ((s, e) :: m'). simpl.
      repeat split; try lia; auto.
      intros x. rewrite M. rewrite orb_assoc. reflexivity.
    + assert (e = a) by lia. subst e. rewrite Z.eqb_refl.
      destruct r as [|[s' e'] r'].
      * exists [(s, b)]. simpl. repeat split; lia.
      * simpl in H3, Hb2. lia.
Qed.

Lemma insertAll_sorted rs : forall lo0 lo m,
  ranges_from lo rs -> wf_from lo0 m -> below lo m -> lo0 < lo ->
  exists M, insertAll rs m = Some M /\ wf_from lo0 M /\
            forall x, mem x M = mem x m || mem x rs.
Proof.
  induction rs as [|[a b] rs IH]; simpl; intros lo0 lo m Hr Hwf Hb Hlo.
  - exists m. repeat split; auto. intros x. rewrite orb_false_r. reflexivity.
  - destruct Hr as (H1 & H2 & H3).
    unfold insert. destruct (Z.leb_spec b a); [lia|].
    destruct (insertFrom_end lo0 a b m Hwf (below_weaken _ _ _ H1 Hb)
                ltac:(lia) H2) as (m' & E & W & B & M).
    rewrite E.
    destruct (IH lo0 b m' H3 W B ltac:(lia)) as (M' & E' & W' & M'').
    exists M'. repeat split; auto.
    intros x. rewrite M'', M. rewrite orb_assoc. reflexivity.
Qed.

(** Two maps in canonical form that cover the same bytes are equal. *)
Lemma wf_from_ext m1 : forall lo m2,
  wf_from lo m1 -> wf_from lo m2 ->
  (forall x, mem x m1 = mem x m2) -> m1 = m2.
Proof.
  induction m1 as [|[s1 e1] r1 IH]; intros lo [|[s2 e2] r2] W1 W2 Hext.
  - reflexivity.
  - specialize (Hext s2). simpl in *. zbool.
  - specialize (Hext s1). simpl in *. zbool.
  - simpl in W1, W2. destruct W1 as (A1 & A2 & A3). destruct W2 as (B1 & B2 & B3).
    assert (Hs : s1 = s2).
    { pose proof (Hext s1) as X1. pose proof (Hext s2) as X2. simpl in X1, X2.
      destruct (Z.lt_total s1 s2) as [L|[L|L]]; [|exact L|].
      - rewrite (mem_lower_false e2 r2 s1 B3 ltac:(lia)) in X1. zbool.
      - rewrite (mem_lower_false e1 r1 s2 A3 ltac:(lia)) in X2. zbool. }
    subst s2.
    assert (He : e1 = e2).
    { pose proof (Hext e1) as X1. pose proof (Hext e2) as X2. simpl in X1, X2.
      destruct (Z.lt_total e1 e2) as [L|[L|L]]; [|exact L|].
      - rewrite (mem_lower_false e1 r1 e1 A3 ltac:(lia)) in X1. zbool.
      - rewrite (mem_lower_false e2 r2 e2 B3 ltac:(lia)) in X2. zbool. }
    subst e2. f_equal.
    apply (IH e1); auto.
    intros x. specialize (Hext x). simpl in Hext.
    destruct (Z.le_gt_cases x e1).
    + rewrite (mem_lower_false e1 r1 x A3), (mem_lower_false e1 r2 x B3); auto.
    + revert Hext. zbool.
Qed.

Lemma wf_ext m1 m2 :
  wf m1 -> wf m2 -> (forall x, mem x m1 = mem x m2) -> m1 = m2.
Proof.
  intros W1 W2 Hext.
  destruct (wf_wf_from _ W1) as [l1 L1]. destruct (wf_wf_from _ W2) as [l2 L2].
  apply (wf_from_ext m1 (Z.min l1 l2)); auto.
  - apply (wf_from_weaken l1); [lia | auto].
  - apply (wf_from_weaken l2); [lia | auto].
Qed.

End IntervalMapFacts.

(** ** Merging interval maps *)

Section MergeStores.
Import IntervalMap IntervalMapFacts.

Lemma ranges_from_weaken lo lo' rs :
  lo' <= lo -> ranges_from lo rs -> ranges_from lo' rs.
Proof. destruct rs as [|[a b] r]; simpl; intuition lia. Qed.

Lemma ranges_from_app lo hi xs ys :
  lo <= hi -> ranges_from lo xs -> below hi xs -> ranges_from hi ys ->
  ranges_from lo (xs ++ ys).
Proof.
  revert lo. induction xs as [|[a b] r IH]; simpl; intros lo Hle Hx Hb Hy.
  - apply (ranges_from_weaken hi); auto.
  - destruct Hx as (H1 & H2 & H3). destruct Hb as [B1 B2].
    repeat split; auto.
Qed.

Lemma below_app hi (xs ys : t) : below hi xs -> below hi ys -> below hi (xs ++ ys).
Proof. induction xs as [|[a b] r IH]; simpl; intuition. Qed.

Lemma keepOverlaps_spec s e toit : forall lo,
  wf_from lo toit -> stops_above s toit -> s < e ->
  ranges_from (Z.max lo s) (keepOverlaps s e toit) /\
  below e (keepOverlaps s e toit) /\
  forall x, mem x (keepOverlaps s e toit)
            = ((s <=? x) && (x <? e)) && mem x toit.
Proof.
  induction toit as [|[ts te] r IH]; simpl; intros lo Hwf Hab Hse.
  - repeat split; auto. intros x. rewrite andb_false_r. reflexivity.
  - destruct Hwf as (H1 & H2 & H3).
    destruct (Z.ltb_spec ts e) as [L|L]; simpl.
    + assert (Hr : stops_above s r).
      { destruct r as [|[s' e'] r']; simpl in *; [exact I | lia]. }
      destruct (IH te H3 Hr Hse) as (R & B & M).
      repeat split; try lia.
      * apply (ranges_from_weaken (Z.max te s)); [lia | exact R].
      * exact B.
      * intros x. rewrite M. destruct (mem x r); zbool.
    + repeat split; auto. intros x.
      destruct (Z.lt_ge_cases x e) as [Hx|Hx].
      * rewrite (mem_lower_false te r x H3) by lia. zbool.
      * destruct (mem x r); zbool.
Qed.

Lemma keepRanges_spec mergeTo loT mergeFrom : forall lo,
  wf_from loT mergeTo -> wf_from lo mergeFrom ->
  ranges_from lo (keepRanges mergeFrom mergeTo) /\
  forall x, mem x (keepRanges mergeFrom mergeTo)
            = mem x mergeFrom && mem x mergeTo.
Proof.
  intros lo HT. revert lo.
  induction mergeFrom as [|[s e] r IH]; simpl; intros lo HF.
  - split; auto.
  - destruct HF as (H1 & H2 & H3).
    destruct (keepOverlaps_spec s e (find s mergeTo) loT
                (find_wf_from _ _ _ HT) (find_stops_above _ _) H2)
      as (R & B & M).
    destruct (IH e H3) as (R' & M').
    split.
    + apply (ranges_from_app lo e); auto; [lia|].
      apply (ranges_from_weaken (Z.max loT s)); [lia | exact R].
    + intros x. rewrite mem_app, M, M'.
      destruct (Z.le_gt_cases s x) as [Hx|Hx].
      * rewrite (find_mem loT s x mergeTo HT Hx).
        destruct (mem x mergeTo), (mem x r); zbool.
      * destruct (mem x mergeTo), (mem x r), (mem x (find s mergeTo)); zbool.
Qed.

Lemma mergeStores_spec mergeFrom mergeTo ASize :
  wf mergeFrom -> wf mergeTo ->
  exists M, mergeStores mergeFrom mergeTo ASize = Some M /\ wf M /\
            forall x, mem x M = mem x mergeFrom && mem x mergeTo.
Proof.
  intros WF WT.
  destruct (wf_wf_from _ WF) as [lo LF]. destruct (wf_wf_from _ WT) as [loT LT].
  destruct (keepRanges_spec mergeTo loT mergeFrom lo LT LF) as (R & M).
  destruct (insertAll_sorted (keepRanges mergeFrom mergeTo) (lo - 1) lo []
              R I I ltac:(lia)) as (M' & E & W & Mm).
  exists M'. unfold mergeStores, clear. rewrite E.
  repeat split; [eapply wf_from_wf; eauto|].
  intros x. rewrite Mm, M. reflexivity.
Qed.

Lemma mergeAll_spec ASize preds : forall mergeTo,
  wf mergeTo -> Forall wf preds ->
  exists M, mergeAll mergeTo preds ASize = Some M /\ wf M /\
            forall x, mem x M = mem x mergeTo && forallb (mem x) preds.
Proof.
  induction preds as [|p ps IH]; simpl; intros mergeTo WT WP.
  - exists mergeTo. repeat split; auto. intros x. rewrite andb_true_r. reflexivity.
  - inversion WP as [|? ? Wp Wps]; subst.
    destruct (mergeStores_spec p mergeTo ASize Wp WT) as (m & E & W & M).
    rewrite E. destruct (IH m W Wps) as (M' & E' & W' & Mm).
    exists M'. repeat split; auto.
    intros x. rewrite Mm, M.
    destruct (mem x p), (mem x mergeTo), (forallb (mem x) ps); reflexivity.
Qed.

Lemma forallb_mem_perm x (l1 l2 : list TLMapTy) :
  l1 ≡ₚ l2 -> forallb (mem x) l1 = forallb (mem x) l2.
Proof.
  induction 1; simpl; try congruence.
  destruct (mem x x0), (mem x y); reflexivity.
Qed.

(** C1. Merging at a join is the per-byte intersection of the
    predecessors' known-safe sets: a byte is in [mergeStores A B] exactly
    when it is in [A] and in [B]; the merge is commutative and
    associative; and merging any number of predecessors gives the same
    map whatever the order in which they are taken, containing exactly
    the bytes present in every predecessor. *)
Theorem mergeStores_is_intersection
    (A B C first first' : TLMapTy) (preds preds' : list TLMapTy) (ASize : Z) :
  wf A -> wf B -> wf C ->
  Forall wf (first :: preds) ->
  first :: preds ≡ₚ first' :: preds' ->
  (exists M, mergeStores A B ASize = Some M /\ wf M /\
      forall x, mem x M = true <-> mem x A = true /\ mem x B = true)
  /\ mergeStores A B ASize = mergeStores B A ASize
  /\ (mergeStores B A ASize ≫= fun AB => mergeStores C AB ASize)
     = (mergeStores C B ASize ≫= fun BC => mergeStores BC A ASize)
  /\ (exists M, mergeAll first preds ASize = Some M /\
                mergeAll first' preds' ASize = Some M /\ wf M /\
      forall x, mem x M = true <->
                forall P, P ∈ first :: preds -> mem x P = true).
Proof.
  intros WA WB WC WP Hperm.
  assert (Hcomm : forall X Y, wf X -> wf Y ->
                    mergeStores X Y ASize = mergeStores Y X ASize).
  { intros X Y WX WY.
    destruct (mergeStores_spec X Y ASize WX WY) as (M1 & E1 & W1 & H1).
    destruct (mergeStores_spec Y X ASize WY WX) as (M2 & E2 & W2 & H2).
    rewrite E1, E2. f_equal. apply wf_ext; auto.
    intros x. rewrite H1, H2. apply andb_comm. }
  split; [|split; [|split]].
  - destruct (mergeStores_spec A B ASize WA WB) as (M & E & W & H).
    exists M. split; [exact E|]. split; [exact W|].
    intros x. rewrite H. split.
    + intros Hx. apply andb_prop in Hx. exact Hx.
    + intros [H1 H2]. rewrite H1, H2. reflexivity.
  - apply Hcomm; auto.
  - destruct (mergeStores_spec B A ASize WB WA) as (AB & E1 & W1 & H1).
    destruct (mergeStores_spec C B ASize WC WB) as (BC & E2 & W2 & H2).
    rewrite E1, E2. simpl.
    destruct (mergeStores_spec C AB ASize WC W1) as (M1 & E3 & W3 & H3).
    destruct (mergeStores_spec BC A ASize W2 WA) as (M2 & E4 & W4 & H4).
    rewrite E3, E4. f_equal. apply wf_ext; auto.
    intros x. rewrite H3, H4, H1, H2.
    destruct (mem x A), (mem x B), (mem x C); reflexivity.
  - assert (WP' : Forall wf (first' :: preds')).
    { rewrite <- Hperm. exact WP. }
    inversion WP as [|? ? Wf Wps]; subst.
    inversion WP' as [|? ? Wf' Wps']; subst.
    destruct (mergeAll_spec ASize preds first Wf Wps) as (M1 & E1 & W1 & H1).
    destruct (mergeAll_spec ASize preds' first' Wf' Wps') as (M2 & E2 & W2 & H2).
    assert (M2 = M1).
    { apply wf_ext; auto. intros x. rewrite H1, H2.
      change (forallb (mem x) (first' :: preds') = forallb (mem x) (first :: preds)).
      symmetry. apply forallb_mem_perm. exact Hperm. }
    subst M2. exists M1. split; [exact E1|]. split; [exact E2|].
    split; [exact W1|]. intros x. split.
    + intros Hx P HP. rewrite H1 in Hx.
      change (forallb (mem x) (first :: preds) = true) in Hx.
      rewrite forallb_forall in Hx. apply Hx. apply list_elem_of_In. exact HP.
    + intros Hx. rewrite H1.
      change (forallb (mem x) (first :: preds) = true).
      apply forallb_forall. intros P HP. apply Hx. apply list_elem_of_In. exact HP.
Qed.

Lemma mergeStores_is_intersection_witness :
  exists M, mergeStores [(0, 4); (8, 12)] [(2, 10)] 16 = Some M /\
            mem 3 M = true /\ mem 5 M = false.
Proof.
  destruct (mergeStores_is_intersection
              [(0, 4); (8, 12)] [(2, 10)] [(3, 9)]
              [(0, 4); (8, 12)] [(2, 10)] [[(2, 10)]; [(3, 9)]]
              [[(3, 9)]; [(0, 4); (8, 12)]] 16)
    as [(M & E & _ & H) _].
  - simpl. lia.
  - simpl. lia.
  - simpl. lia.
  - repeat constructor; simpl; lia.
  - apply (Permutation_cons_append [[(2, 10)]; [(3, 9)]] [(0, 4); (8, 12)]).
  - exists M. split; [exact E|]. split.
    + apply H. split; reflexivity.
    + destruct (mem 5 M) eqn:E5; [|reflexivity].
      apply H in E5. destruct E5 as [E5 _]. discriminate E5.
Defined.

End MergeStores.

(** ** Classification of single instructions *)

Section InstructionFacts.

Variable cfg : Config.
Variable isNullOrConst : ShadowValue -> bool.

Lemma TLS_eqb_eq a b : TLS_eqb a b = true <-> a = b.
Proof. destruct a, b; cbv; split; intros; congruence. Qed.

Lemma lift_store_reads r s s' :
  lift_store r s = Some s' ->
  iaReadsTentativeData s' = iaReadsTentativeData s.
Proof. destruct r; simpl; intros H; inversion H; reflexivity. Qed.

Lemma updateTLStore_reads SI en s s' :
  updateTLStore cfg SI en s = Some s' ->
  iaReadsTentativeData s' = iaReadsTentativeData s.
Proof.
  unfold updateTLStore. intros H.
  repeat match type of H with
    | lift_store _ _ = Some _ => apply lift_store_reads in H; exact H
    | Some _ = Some _ => inversion H; subst; reflexivity
    | None = Some _ => discriminate H
    | context [match ?x with _ => _ end] => destruct x eqn:?
    | context [if ?x then _ else _] => destruct x eqn:?
    end.
Qed.

(** C10. In a single-threaded program every classification is
    never-check, whatever the instruction, its propagated value and the
    store; so analysing an instruction never produces a must-check mark,
    never raises the reads-tentative-data flag, and leaves every load or
    copy it classifies at never-check. *)
Theorem single_threaded_never_checks
    (SI : ShadowInstruction) (st : TLLocalStore)
    (commitDisabledHere secondPass : bool) (s : TLState) :
  programSingleThreaded cfg = true ->
  shouldCheckLoad cfg isNullOrConst SI st = TLS_NEVERCHECK
  /\ forall SI' s',
       TLAnalyseInstruction cfg isNullOrConst SI commitDisabledHere secondPass s
         = Some (SI', s') ->
       (isThreadLocal SI' = TLS_MUSTCHECK -> isThreadLocal SI = TLS_MUSTCHECK)
       /\ iaReadsTentativeData s' = iaReadsTentativeData s
       /\ (secondPass = false -> is_LoadInst SI || isCopyInst SI = true ->
           isThreadLocal SI' = TLS_NEVERCHECK).
Proof.
  intros Hst.
  assert (Hc : forall st0, shouldCheckLoad cfg isNullOrConst SI st0 = TLS_NEVERCHECK).
  { intros st0. unfold shouldCheckLoad. rewrite Hst. reflexivity. }
  split; [apply Hc|].
  intros SI' s'. unfold TLAnalyseInstruction.
  destruct (TLS_eqb (isThreadLocal SI) TLS_NEVERCHECK) eqn:En.
  - intros H. inversion H; subst. apply TLS_eqb_eq in En.
    repeat split; auto. 
  - destruct (is_LoadInst SI || isCopyInst SI) eqn:Ek.
    + destruct (secondPass && TLS_eqb (isThreadLocal SI) TLS_MUSTCHECK) eqn:Es.
      * intros H. inversion H; subst. repeat split; auto.
        intros Hs. subst secondPass. discriminate Es.
      * rewrite Hc. simpl.
        destruct (updateTLStore cfg _ _ s) as [s''|] eqn:Eu; [|discriminate].
        intros H. inversion H; subst. simpl.
        repeat split; auto; [discriminate|].
        eapply updateTLStore_reads; eauto.
    + destruct (updateTLStore cfg SI _ s) as [s''|] eqn:Eu; [|discriminate].
      intros H. inversion H; subst.
      repeat split; auto; [|discriminate].
      eapply updateTLStore_reads; eauto.
Qed.

(** C3. A load or copy that is must-check when the second pass reaches
    it is left exactly as it is: neither its classification nor the
    store or the context flags change. *)
Theorem second_pass_keeps_mustcheck
    (SI : ShadowInstruction) (commitDisabledHere : bool) (s : TLState) :
  is_LoadInst SI || isCopyInst SI = true ->
  isThreadLocal SI = TLS_MUSTCHECK ->
  TLAnalyseInstruction cfg isNullOrConst SI commitDisabledHere true s = Some (SI, s).
Proof.
  intros Hk Hm. unfold TLAnalyseInstruction. rewrite Hk, Hm. reflexivity.
Qed.

End InstructionFacts.

Lemma single_threaded_never_checks_witness :
  shouldCheckLoad cfgSingle nullOrConstGV
    (loadInst 2 (SVStackObj 0 0) 4 knownScalar) clobberedStore = TLS_NEVERCHECK.
Proof.
  apply (single_threaded_never_checks cfgSingle nullOrConstGV
           (loadInst 2 (SVStackObj 0 0) 4 knownScalar) clobberedStore
           false false (stateOf clobberedStore)).
  reflexivity.
Defined.

Lemma second_pass_keeps_mustcheck_witness :
  TLAnalyseInstruction cfgThreads nullOrConstGV
    (loadInst 2 (SVStackObj 0 0) 4 knownScalar) false true (stateOf newStore)
  = Some (loadInst 2 (SVStackObj 0 0) 4 knownScalar, stateOf newStore).
Proof.
  apply (second_pass_keeps_mustcheck cfgThreads nullOrConstGV); reflexivity.
Defined.

(** ** The straight-line scenarios *)

Section Scenario.

Variable cfg : Config.
Variable isNullOrConst : ShadowValue -> bool.

Lemma u64_small z : 0 <= z < 2 ^ 64 -> u64 z = z.
Proof. intros H. unfold u64. apply Z.mod_small. exact H. Qed.

Lemma i64_small z : - 2 ^ 63 <= z < 2 ^ 63 -> i64 z = z.
Proof. intros H. unfold i64. rewrite Z.mod_small; lia. Qed.



Lemma getReadable_getEmptyMap st O : getReadableStoreFor (getEmptyMap st) O = None.
Proof.
  destruct O; simpl; try reflexivity.
  rewrite list_lookup_fmap. destruct (frames st !! frame); reflexivity.
Qed.

Lemma getEmptyMap_isEmpty st b :
  storeIsEmpty (set_allOthersClobbered b (getEmptyMap st)).
Proof.
  split; simpl; [reflexivity|].
  apply Forall_fmap. apply Forall_forall. intros; reflexivity.
Qed.

Lemma markGoodBytes_unclobbered ptr len st off :
  allOthersClobbered st = false ->
  markGoodBytes ptr len true st off = Some st.
Proof. intros H. unfold markGoodBytes. rewrite H. reflexivity. Qed.









End Scenario.

(** ** Disabled contexts *)

Section Disabled.
Variable cfg : Config.
Variable isNullOrConst : ShadowValue -> bool.

Lemma markGoodBytes_disabled ptr len st off :
  markGoodBytes ptr len false st off = Some st.
Proof. reflexivity. Qed.

Lemma walkCopyInst_disabled a b l st :
  walkCopyInst a b l false st = Some st.
Proof. unfold walkCopyInst. destruct (constantInt l); reflexivity. Qed.

Lemma lift_store_same s : lift_store (Some (bbStore s)) s = Some s.
Proof. destruct s; reflexivity. Qed.

Lemma knownSafe_clear st O' O x :
  knownSafe (setStoreFor st O' (IntervalMap.clear (getWritableTLStore st O'))) O x = true ->
  knownSafe st O x = true.
Proof.
  unfold knownSafe, IntervalMap.clear.
  destruct O' as [|a c|f i|i|]; simpl; try (intros H; exact H).
  - destruct O as [|a' c'|f' i'|i'|]; simpl; try (intros H; exact H).
    + rewrite lookup_insert; destruct (decide _); [intros Hx; discriminate Hx | intros Hx; exact Hx].
    + rewrite lookup_insert; destruct (decide _); [intros Hx; discriminate Hx | intros Hx; exact Hx].
  - destruct O as [|a' c'|f' i'|i'|]; simpl; try (intros H; exact H).
    destruct (decide (f = f')) as [->|Hne].
    + rewrite list_lookup_alter_eq. destruct (frames st !! f') as [fr|]; simpl;
        [|intros H; exact H].
      rewrite lookup_insert; destruct (decide _); [intros Hx; discriminate Hx | intros Hx; exact Hx].
    + rewrite list_lookup_alter_ne by congruence. intros H; exact H.
  - destruct O as [|a' c'|f' i'|i'|]; simpl; try (intros H; exact H).
    + rewrite lookup_insert; destruct (decide _); [intros Hx; discriminate Hx | intros Hx; exact Hx].
    + rewrite lookup_insert; destruct (decide _); [intros Hx; discriminate Hx | intros Hx; exact Hx].
Qed.

Lemma knownSafe_clearDomain domain : forall st O x,
  knownSafe (clearDomain domain st) O x = true -> knownSafe st O x = true.
Proof.
  induction domain as [|SV rest IH]; simpl; intros st O x H; [exact H|].
  apply IH in H. eapply knownSafe_clear; eauto.
Qed.

Lemma knownSafe_tentative s O x :
  knownSafe (bbStore (markAllObjectsTentative s)) O x = false.
Proof.
  unfold knownSafe.
  rewrite (getReadable_getEmptyMap (bbStore s) O : getReadableStoreFor (bbStore (markAllObjectsTentative s)) O = None).
  reflexivity.
Qed.

Lemma updateTLStore_disabled SI s s' :
  updateTLStore cfg SI false s = Some s' ->
  forall O x, knownSafe (bbStore s') O x = true -> knownSafe (bbStore s) O x = true.
Proof.
  unfold updateTLStore. intros H O x.
  assert (Hs : s' = s \/ s' = markAllObjectsTentative s
               \/ exists d, s' = with_tlStore (clearDomain d (bbStore s)) s).
  { repeat match type of H with
      | Some _ = Some _ => inversion H; subst; clear H; eauto
      | None = Some _ => discriminate H
      | context [walkCopyInst _ _ _ false _] => rewrite walkCopyInst_disabled in H
      | context [markGoodBytes _ _ false _ _] => rewrite markGoodBytes_disabled in H
      | context [lift_store (Some (bbStore ?s0)) ?s0] =>
          rewrite lift_store_same in H
      | context [match ?x with _ => _ end] => destruct x eqn:?
      end. }
  destruct Hs as [->|[->|[d ->]]].
  - auto.
  - rewrite knownSafe_tentative. discriminate.
  - cbn [bbStore with_tlStore]. apply knownSafe_clearDomain.
Qed.

Lemma updateTLStore_disabled_total SI s :
  exists s', updateTLStore cfg SI false s = Some s'.
Proof.
  unfold updateTLStore.
  repeat first
    [ rewrite walkCopyInst_disabled
    | rewrite markGoodBytes_disabled
    | rewrite lift_store_same
    | match goal with
      | |- exists s', Some ?x = Some s' => exists x; reflexivity
      | |- context [match ?x with _ => _ end] => destruct x eqn:?
      end ].
Qed.

Lemma TLAnalyseInstruction_disabled_total SI secondPass s :
  exists SI' s',
    TLAnalyseInstruction cfg isNullOrConst SI true secondPass s = Some (SI', s').
Proof.
  unfold TLAnalyseInstruction.
  destruct (TLS_eqb (isThreadLocal SI) TLS_NEVERCHECK); [eauto|].
  destruct (is_LoadInst SI || isCopyInst SI).
  - destruct (secondPass && TLS_eqb (isThreadLocal SI) TLS_MUSTCHECK); [eauto|].
    cbn [negb].
    match goal with
    | |- context [updateTLStore cfg ?a false ?b] =>
        destruct (updateTLStore_disabled_total a b) as [s'' ->]
    end. eauto.
  - cbn [negb]. destruct (updateTLStore_disabled_total SI s) as [s'' ->]. eauto.
Qed.

Lemma disabled_context_facts
    (SI SI' : ShadowInstruction) (secondPass : bool) (s s' : TLState)
    (BBst : TLLocalStore) (IA : IntegrationAttempt) :
  TLAnalyseInstruction cfg isNullOrConst SI true secondPass s = Some (SI', s') ->
  (forall ptr len st off, markGoodBytes ptr len false st off = Some st)
  /\ (forall O x, knownSafe (bbStore s') O x = true ->
                  knownSafe (bbStore s) O x = true)
  /\ (is_LoadInst SI || isCopyInst SI = true ->
      isThreadLocal SI <> TLS_NEVERCHECK -> secondPass = false ->
      isThreadLocal SI' = shouldCheckLoad cfg isNullOrConst SI (bbStore s)
      /\ (isThreadLocal SI' = TLS_MUSTCHECK -> iaReadsTentativeData s' = true))
  /\ (readsTentativeData IA = true ->
      exists st', rerunTentativeLoads BBst IA = Ok st'
                  /\ storeIsEmpty st' /\ allOthersClobbered st' = true).
Proof.
  intros H. split; [reflexivity|]. split; [|split].
  - revert H. unfold TLAnalyseInstruction.
    destruct (TLS_eqb (isThreadLocal SI) TLS_NEVERCHECK);
      [intros H; inversion H; subst; auto|].
    destruct (is_LoadInst SI || isCopyInst SI).
    + destruct (secondPass && TLS_eqb (isThreadLocal SI) TLS_MUSTCHECK);
        [intros H; inversion H; subst; auto|].
      cbn [negb].
      match goal with
      | |- context [updateTLStore cfg ?a false ?b] =>
          destruct (updateTLStore cfg a false b) as [s''|] eqn:Eu
      end; [|discriminate].
      intros H; inversion H; subst. intros O x Hx.
      apply (updateTLStore_disabled _ _ _ Eu) in Hx.
      destruct (TLS_eqb _ TLS_MUSTCHECK) in Hx; exact Hx.
    + cbn [negb].
      destruct (updateTLStore cfg SI false s) as [s''|] eqn:Eu; [|discriminate].
      intros H; inversion H; subst. apply (updateTLStore_disabled _ _ _ Eu).
  - intros Hk Hn Hs. subst secondPass. revert H. unfold TLAnalyseInstruction.
    destruct (TLS_eqb (isThreadLocal SI) TLS_NEVERCHECK) eqn:En;
      [apply TLS_eqb_eq in En; contradiction|].
    rewrite Hk. cbn [andb negb].
    match goal with
    | |- context [updateTLStore cfg ?a false ?b] =>
        destruct (updateTLStore cfg a false b) as [s''|] eqn:Eu
    end; [|discriminate].
    intros H; inversion H; subst. cbn [isThreadLocal with_isThreadLocal].
    split; [reflexivity|]. intros Hm.
    rewrite (updateTLStore_reads _ _ _ _ _ Eu).
    cbn [isThreadLocal with_isThreadLocal]. rewrite Hm. reflexivity.
  - intros Hr. unfold rerunTentativeLoads. rewrite Hr.
    eexists. split; [reflexivity|]. split; [apply getEmptyMap_isEmpty|reflexivity].
Qed.

Lemma updateTLStore_at_yield SI contextEnabled s :
  isYieldPoint cfg SI = true ->
  updateTLStore cfg SI contextEnabled s = Some (afterYield cfg SI s).
Proof.
  unfold isYieldPoint, updateTLStore, afterYield, yieldDomain.
  destruct (kind SI) as [sz|v si p sz|p sz|a|a|F a [r|] h| |]; try discriminate.
  - intros ->. reflexivity.
  - destruct (findSpecialFunction cfg F); [discriminate|].
    intros H. apply andb_true_iff in H as [-> Hp].
    apply negb_true_iff in Hp. rewrite Hp.
    destruct (lockDomains cfg !! instId SI); reflexivity.
Qed.

Lemma updateTLStore_disabled_quiet SI s :
  isYieldPoint cfg SI = false ->
  updateTLStore cfg SI false s = Some s.
Proof.
  unfold isYieldPoint, updateTLStore.
  destruct (kind SI) as [sz|v si p sz|p sz|a|a|F a [r|] h| |]; intros H;
    rewrite ?walkCopyInst_disabled, ?markGoodBytes_disabled, ?lift_store_same;
    try reflexivity.
  - rewrite H. first [reflexivity | apply lift_store_same].
  - destruct (constantInt _); first [reflexivity | apply lift_store_same].
  - destruct (findSpecialFunction cfg F) as [[| |]|];
      try reflexivity; try apply lift_store_same.
    destruct (_ || _); [|reflexivity]. cbn [andb] in H.
    apply negb_false_iff in H. rewrite H. reflexivity.
Qed.

Lemma isYieldPoint_with_isThreadLocal t SI :
  isYieldPoint cfg (with_isThreadLocal t SI) = isYieldPoint cfg SI.
Proof. reflexivity. Qed.

Lemma afterYield_store SI SI' s s' :
  kind SI' = kind SI -> instId SI' = instId SI -> bbStore s' = bbStore s ->
  bbStore (afterYield cfg SI' s') = bbStore (afterYield cfg SI s)
  /\ (yieldDomain cfg SI = None -> iaYieldState (afterYield cfg SI' s') = BARRIER_HERE).
Proof.
  intros Hk Hi Hs. unfold afterYield, yieldDomain. rewrite Hk, Hi.
  destruct (match kind SI with KCall _ _ _ _ => lockDomains cfg !! instId SI | _ => None end).
  - cbn [bbStore with_tlStore]. rewrite Hs. split; [reflexivity|discriminate].
  - cbn [bbStore markAllObjectsTentative iaYieldState]. rewrite Hs. split; reflexivity.
Qed.

Lemma TLAnalyseInstruction_disabled_store SI secondPass s SI' s' :
  TLAnalyseInstruction cfg isNullOrConst SI true secondPass s = Some (SI', s') ->
  isThreadLocal SI <> TLS_NEVERCHECK ->
  (is_LoadInst SI || isCopyInst SI = true -> secondPass = false) ->
  bbStore s' = (if isYieldPoint cfg SI then bbStore (afterYield cfg SI s) else bbStore s)
  /\ (isYieldPoint cfg SI = true -> yieldDomain cfg SI = None ->
      iaYieldState s' = BARRIER_HERE).
Proof.
  unfold TLAnalyseInstruction. intros H Hn Hs.
  destruct (TLS_eqb (isThreadLocal SI) TLS_NEVERCHECK) eqn:En;
    [apply TLS_eqb_eq in En; contradiction|].
  destruct (is_LoadInst SI || isCopyInst SI) eqn:Ek.
  - rewrite (Hs eq_refl) in H. cbn [andb negb] in H.
    match type of H with
    | context [updateTLStore cfg ?a false ?b] =>
        set (SI1 := a) in *; set (s1 := b) in *
    end.
    assert (Hb : bbStore s1 = bbStore s)
      by (subst s1; destruct (TLS_eqb _ TLS_MUSTCHECK); reflexivity).
    destruct (afterYield_store SI SI1 s s1 eq_refl eq_refl Hb) as [HA HB].
    change (isYieldPoint cfg SI) with (isYieldPoint cfg SI1).
    destruct (isYieldPoint cfg SI1) eqn:Ey.
    + rewrite (updateTLStore_at_yield _ _ _ Ey) in H. injection H as <- <-.
      split; [exact HA | intros _; exact HB].
    + rewrite (updateTLStore_disabled_quiet _ _ Ey) in H. injection H as <- <-.
      split; [exact Hb | discriminate].
  - cbn [negb] in H. destruct (isYieldPoint cfg SI) eqn:Ey.
    + rewrite (updateTLStore_at_yield _ _ _ Ey) in H. injection H as <- <-.
      split; [reflexivity|]. intros _ Hd. unfold afterYield. rewrite Hd. reflexivity.
    + rewrite (updateTLStore_disabled_quiet _ _ Ey) in H. injection H as <- <-.
      split; [reflexivity | discriminate].
Qed.

Lemma shouldCheckRead_forgotten st Ptr Size :
  isNullPointer (V Ptr) = false -> isConstantGV (V Ptr) = false ->
  shouldCheckRead Ptr Size (set_allOthersClobbered true (getEmptyMap st)) = true.
Proof.
  intros Hn Hc. unfold shouldCheckRead. rewrite Hn, Hc.
  rewrite (getReadable_getEmptyMap st (V Ptr)
             : getReadableStoreFor (set_allOthersClobbered true (getEmptyMap st)) (V Ptr) = None).
  reflexivity.
Qed.

(** C5 (amended). In a disabled context ([commitDisabledHere] set) every
    instruction is still analysed and the analysis of an instruction
    always completes; [markGoodBytes] does nothing, so no byte becomes
    known-safe that was not already; a load or copy is classified by
    [shouldCheckLoad] exactly as in an enabled context, and a must-check
    result raises the context's reads-tentative-data flag; and for a
    context that reads tentative data [rerunTentativeLoads] replaces the
    enclosing block's store by an empty store with the all-clobbered flag
    set.  Interference is tracked as in an enabled context: the store
    after an instruction is the store before it unless the instruction is
    a yield point, and then it is what the yield leaves; after a yield
    point without a lock domain the store is empty with the all-clobbered
    flag set, the barrier is recorded, and every read through a pointer
    that is neither null nor a constant global must be checked. *)
Theorem disabled_context_behaviour
    (SI : ShadowInstruction) (secondPass : bool) (s : TLState)
    (BBst : TLLocalStore) (IA : IntegrationAttempt) :
  exists SI' s',
    TLAnalyseInstruction cfg isNullOrConst SI true secondPass s = Some (SI', s')
    /\ (forall ptr len st off, markGoodBytes ptr len false st off = Some st)
    /\ (forall O x, knownSafe (bbStore s') O x = true ->
                    knownSafe (bbStore s) O x = true)
    /\ (is_LoadInst SI || isCopyInst SI = true ->
        isThreadLocal SI <> TLS_NEVERCHECK -> secondPass = false ->
        isThreadLocal SI' = shouldCheckLoad cfg isNullOrConst SI (bbStore s)
        /\ (isThreadLocal SI' = TLS_MUSTCHECK -> iaReadsTentativeData s' = true))
    /\ (readsTentativeData IA = true ->
        exists st', rerunTentativeLoads BBst IA = Ok st'
                    /\ storeIsEmpty st' /\ allOthersClobbered st' = true)
    /\ updateTLStore cfg SI false s
       = (if isYieldPoint cfg SI then updateTLStore cfg SI true s else Some s)
    /\ (isThreadLocal SI <> TLS_NEVERCHECK ->
        (is_LoadInst SI || isCopyInst SI = true -> secondPass = false) ->
        bbStore s' = (if isYieldPoint cfg SI then bbStore (afterYield cfg SI s)
                      else bbStore s)
        /\ (isYieldPoint cfg SI = true -> yieldDomain cfg SI = None ->
            storeIsEmpty (bbStore s') /\ allOthersClobbered (bbStore s') = true
            /\ iaYieldState s' = BARRIER_HERE
            /\ forall Ptr Size,
                 isNullPointer (V Ptr) = false -> isConstantGV (V Ptr) = false ->
                 shouldCheckRead Ptr Size (bbStore s') = true)).
Proof.
  destruct (TLAnalyseInstruction_disabled_total SI secondPass s) as (SI' & s' & H).
  exists SI', s'. split; [exact H|].
  destruct (disabled_context_facts SI SI' secondPass s s' BBst IA H)
    as (F1 & F2 & F3 & F4).
  split; [exact F1|]. split; [exact F2|]. split; [exact F3|]. split; [exact F4|].
  split.
  - destruct (isYieldPoint cfg SI) eqn:Ey.
    + rewrite !(updateTLStore_at_yield _ _ _ Ey). reflexivity.
    + apply updateTLStore_disabled_quiet. exact Ey.
  - intros Hn Hs.
    destruct (TLAnalyseInstruction_disabled_store _ _ _ _ _ H Hn Hs) as [HA HB].
    split; [exact HA|]. intros Ey Hd. rewrite Ey in HA.
    unfold afterYield in HA. rewrite Hd in HA.
    cbn [bbStore markAllObjectsTentative] in HA. rewrite HA.
    split; [apply getEmptyMap_isEmpty|]. split; [reflexivity|].
    split; [exact (HB Ey Hd)|]. intros Ptr Size. apply shouldCheckRead_forgotten.
Qed.
End Disabled.

Lemma disabled_context_behaviour_witness :
  exists SI' s',
    TLAnalyseInstruction cfgThreads nullOrConstGV (callInst 3 yieldFn) true false
      (stateOf gapStore) = Some (SI', s')
    /\ knownSafe gapStore (SVHeapObj 0) 1 = true
    /\ storeIsEmpty (bbStore s') /\ allOthersClobbered (bbStore s') = true
    /\ shouldCheckRead {| V := SVHeapObj 0; Offset := 0 |} 2 (bbStore s') = true
    /\ exists st',
         rerunTentativeLoads clobberedStore
           (set_flags BARRIER_NONE true (leafContext false None [])) = Ok st'
         /\ storeIsEmpty st' /\ allOthersClobbered st' = true.
Proof.
  destruct (disabled_context_behaviour cfgThreads nullOrConstGV
              (callInst 3 yieldFn) false (stateOf gapStore) clobberedStore
              (set_flags BARRIER_NONE true (leafContext false None [])))
    as (SI' & s' & H & _ & _ & _ & Hr & _ & Hy).
  destruct Hy as [_ Hy]; [discriminate | discriminate |].
  destruct (Hy eq_refl eq_refl) as (E1 & E2 & _ & E4).
  exists SI', s'. split; [exact H|]. split; [reflexivity|].
  split; [exact E1|]. split; [exact E2|].
  split; [apply E4; reflexivity | apply Hr; reflexivity].
Defined.

(** C5, as stated, fails: a load in a disabled context whose bytes are
    not known-safe is classified must-check, and the interface to the
    other passes reports that it requires a runtime check. *)
Lemma disabled_load_marked_counterexample :
  exists SI' s',
    TLAnalyseInstruction cfgThreads nullOrConstGV settledLoad true false
      (stateOf clobberedStore) = Some (SI', s')
    /\ isThreadLocal SI' = TLS_MUSTCHECK
    /\ iaReadsTentativeData s' = true
    /\ requiresRuntimeCheck cfgThreads (leafContext false (Some clobberedStore) [SI'])
         (leafBlock (Some clobberedStore) [SI']) SI' false = true.
Proof.
  eexists. eexists. split; [vm_compute; reflexivity|].
  repeat split; reflexivity.
Qed.

(** ** Re-running the analysis *)

Section Rerun.

Variable cfg : Config.
Variable isNullOrConst : ShadowValue -> bool.
Variable doTLStoreMerge : IntegrationAttempt -> nat -> option TLLocalStore.
Variable doTLCallMerge : IntegrationAttempt -> IntegrationAttempt -> option TLLocalStore.
Variable TLWalkPathConditions :
  IntegrationAttempt -> nat -> bool -> bool -> TLLocalStore -> Result TLLocalStore.
Variable edgeIsDead : IntegrationAttempt -> nat -> nat -> bool.

(** A walk over a context whose run flag is set returns at once: the
    context, its stores and instruction records, and even the progress
    counter are what they were. *)
Lemma findTentativeLoadsInLoop_already_run fuel g ia l c sp l2h :
  tentativeLoadsRun ia = true ->
  findTentativeLoadsInLoop cfg isNullOrConst doTLStoreMerge doTLCallMerge
    TLWalkPathConditions edgeIsDead (S fuel) g ia l c sp l2h = Ok (g, ia).
Proof.
  intros H. cbn [findTentativeLoadsInLoop]. unfold findTentativeLoadsInLoop_body.
  rewrite H. reflexivity.
Qed.

(** [resetTentativeLoads] clears the flag of the context, of all its
    inlined children and of the iterations of its terminated peel
    attempts, recursively. *)
Lemma resetTentativeLoads_clears n : forall ia, flagsCleared n (resetTentativeLoads ia).
Proof.
  induction n as [|n IH]; intros ia; destruct ia; (split; [reflexivity|]); [exact I|].
  cbn [inlineChildren peelChildren resetTentativeLoads]. split.
  - apply List.Forall_forall. intros kc Hin. apply in_map_iff in Hin.
    destruct Hin as (kc' & <- & _). apply IH.
  - apply List.Forall_forall. intros kp Hin. apply in_map_iff in Hin.
    destruct Hin as ([k [its term en]] & <- & _). cbn [snd].
    destruct term; cbn [isTerminated Iterations]; [|discriminate].
    intros _. apply List.Forall_forall. intros it Hit. apply in_map_iff in Hit.
    destruct Hit as (it' & <- & _). apply IH.
Qed.

End Rerun.

(** C4 at its failing input.  A context of one block holds two loads of
    the same allocation and is entered with an all-clobbered store.  The
    first run classifies the first load never-check (its value is unknown)
    and lets it mark the bytes safe, so the second load needs no check.
    After [resetTentativeLoads] and with the same entry store, the second
    run skips the first load altogether, the bytes are not marked, and the
    second load becomes must-check. *)
Theorem rerun_after_reset_changes_flags :
  exists g1 ia1 ia1' g2 ia2,
    walkLeaf 1 globals0 twoLoadsContext None false false false = Ok (g1, ia1)
    /\ blockFlags ia1 0 = [TLS_NEVERCHECK; TLS_NOCHECK]
    /\ setEntryStore (resetTentativeLoads ia1) (Some clobberedStore) = Ok ia1'
    /\ walkLeaf 1 g1 ia1' None false false false = Ok (g2, ia2)
    /\ blockFlags ia2 0 = [TLS_NEVERCHECK; TLS_MUSTCHECK].
Proof.
  do 5 eexists.
  split; [vm_compute; reflexivity|].
  split; [vm_compute; reflexivity|].
  split; [vm_compute; reflexivity|].
  split; vm_compute; reflexivity.
Qed.

(** ** Unbounded loops *)

Section UnboundedLoop.

Variable edgeIsDead : IntegrationAttempt -> nat -> nat -> bool.
Variable walk : WalkFn.

(** C6 (amended). The header first receives the preheader's store.
    If the latch-to-header edge is dead, one pass is made with the
    caller's [secondPass].  If it is live and the caller is itself in
    its second pass, one pass is made, as a second pass.  If it is live
    and the caller is in its first pass, exactly two passes are made:
    the first with [latchToHeader] set, after which the header receives
    the latch's store, then the second.  In the first pass a live edge
    is served exactly when it stays in the loop (exits are withheld, the
    latch-to-header edge is served); in the second the latch-to-header
    edge is withheld and every other live edge, exits included, is
    served. *)
Theorem unbounded_loop_passes
    (g : Globals) (ia ia1 : IntegrationAttempt) (UL : Loop)
    (commitDisabledHere secondPass : bool) (LI : ShadowLoopInvar)
    (pre : option TLLocalStore) (thisl : option Loop)
    (BBidx : nat) (Succ : ShadowBBInvar) :
  getLInfo ia UL = Ok LI ->
  getBBStore ia (preheaderIdx LI) = Ok pre ->
  setBBStore ia (headerIdx LI) pre = Ok ia1 ->
  scope_eqb (Some UL) thisl = false ->
  findTentativeLoadsInUnboundedLoop edgeIsDead walk g ia UL
    commitDisabledHere secondPass
  = (if edgeIsDead ia1 (latchIdx LI) (headerIdx LI)
     then walk g ia1 (Some UL) commitDisabledHere secondPass false
     else if secondPass
     then walk g ia1 (Some UL) commitDisabledHere true false
     else bindR (walk g ia1 (Some UL) commitDisabledHere false true)
            (fun '(g2, ia2) =>
               bindR (getBBStore ia2 (latchIdx LI)) (fun latch =>
               bindR (setBBStore ia2 (headerIdx LI) latch) (fun ia3 =>
               walk g2 ia3 (Some UL) commitDisabledHere true false))))
  /\ servesSuccessor (Some UL) thisl (Some LI) true BBidx Succ
     = Some (contains UL (naturalScope Succ))
  /\ (idx Succ = headerIdx LI -> BBidx = latchIdx LI ->
      servesSuccessor (Some UL) thisl (Some LI) false BBidx Succ = Some false)
  /\ (idx Succ <> headerIdx LI ->
      servesSuccessor (Some UL) thisl (Some LI) false BBidx Succ = Some true).
Proof.
  intros HL Hpre Hset Hscope. split; [|split; [|split]].
  - unfold findTentativeLoadsInUnboundedLoop, mbind, Result_bind.
    rewrite HL. cbn [bindR]. rewrite Hpre. cbn [bindR].
    rewrite Hset. cbn [bindR].
    destruct (edgeIsDead ia1 (latchIdx LI) (headerIdx LI)); cbn [negb]; [reflexivity|].
    destruct secondPass; cbn [negb]; [reflexivity|].
    destruct (walk g ia1 (Some UL) commitDisabledHere false true) as [[g2 ia2]| |];
      reflexivity.
  - unfold servesSuccessor. rewrite Hscope. cbn [negb andb].
    destruct (contains UL (naturalScope Succ)); reflexivity.
  - intros Hh Hl. unfold servesSuccessor. rewrite Hscope. cbn [negb andb].
    rewrite Hh, Hl, !Nat.eqb_refl. reflexivity.
  - intros Hh. unfold servesSuccessor. rewrite Hscope. cbn [negb andb].
    destruct (Nat.eqb_spec (idx Succ) (headerIdx LI)); [contradiction|reflexivity].
Qed.

End UnboundedLoop.

Lemma unbounded_loop_passes_witness :
  exists g ia,
    findTentativeLoadsInUnboundedLoop allEdgesLive (walkLeaf 1) globals0
      loopContext oneBlockLoop false false = Ok (g, ia)
    /\ TLProgressN g = 2.
Proof.
  destruct (unbounded_loop_passes allEdgesLive (walkLeaf 1) globals0 loopContext
              (setBB loopContext 1
                 {| invar := {| idx := 1; succIdxs := [1%nat; 2%nat];
                                predIdxs := [0%nat; 1%nat];
                                naturalScope := Some oneBlockLoop;
                                terminatorIsReturn := false |};
                    tlStore := Some clobberedStore; succsAlive := [true; true];
                    insts := [loadInst 2 (SVStackObj 0 0) 4 knownScalar] |})
              oneBlockLoop false false
              {| headerIdx := 1; preheaderIdx := 0; latchIdx := 1; nBlocks := 1 |}
              (Some clobberedStore) None 1%nat
              {| idx := 2; succIdxs := []; predIdxs := [1%nat]; naturalScope := None;
                 terminatorIsReturn := true |})
    as [H _]; try reflexivity.
  rewrite H. do 2 eexists. split; vm_compute; reflexivity.
Defined.

(** C6, as stated, fails: a loop whose latch-to-header edge is live but
    which is reached while the enclosing walk is in its second pass is
    walked once, not twice (the progress counter, which is bumped once per
    pass, goes from 0 to 1). *)
Lemma unbounded_loop_single_pass_counterexample :
  allEdgesLive loopContext 1%nat 1%nat = false
  /\ exists g ia,
       findTentativeLoadsInUnboundedLoop allEdgesLive (walkLeaf 1) globals0
         loopContext oneBlockLoop false true = Ok (g, ia)
       /\ TLProgressN g = 1.
Proof.
  split; [reflexivity|]. do 2 eexists. split; vm_compute; reflexivity.
Qed.

(** ** The model builder *)

Section Builder.

Lemma LLVMLoop_nested_ind (P : LLVMLoop -> Prop) :
  (forall h p l bs s c subs, Forall P subs -> P (mkLLVMLoop h p l bs s c subs)) ->
  forall L, P L.
Proof.
  intros H. fix IH 1. intros [h p l bs s c subs]. apply H.
  revert subs. fix IHl 1. intros [|x r]; constructor; [apply IH | apply IHl].
Qed.

Lemma forEachLoop_outcome {A} (P : LLVMLoop -> bool)
    (f : LLVMLoop -> A -> Result A) loops :
  Forall (fun c => forall a,
            (P c = true -> exists a', f c a = Ok a')
            /\ (P c = false -> f c a = Fatal)) loops ->
  forall a,
    (forallb P loops = true -> exists a', forEachLoop f loops a = Ok a')
    /\ (forallb P loops = false -> forEachLoop f loops a = Fatal).
Proof.
  induction 1 as [|x r Hx Hr IHr]; intros a; cbn [forallb forEachLoop].
  - split; [eauto | discriminate].
  - destruct (Hx a) as [Hok Hbad].
    destruct (P x); cbn [andb].
    + destruct (Hok eq_refl) as [a' ->]. apply IHr.
    + split; [discriminate|]. intros _. rewrite (Hbad eq_refl). reflexivity.
Qed.

Lemma scanOptimisticEdges_outcome F BBIndices : forall count i optimisticEdge,
  let n := (length (optimisticBlocks F i count)
            + match optimisticEdge with Some _ => 1 | None => 0 end)%nat in
  ((n <=? 1)%nat = true ->
   exists r, scanOptimisticEdges F BBIndices i count optimisticEdge = Ok r)
  /\ ((n <=? 1)%nat = false ->
      scanOptimisticEdges F BBIndices i count optimisticEdge = Fatal).
Proof.
  induction count as [|count IH]; intros i oe;
    cbn [scanOptimisticEdges optimisticBlocks].
  - cbn zeta. split; [eauto|]. intros H. apply Nat.leb_gt in H.
    destruct oe; simpl in H; lia.
  - destruct (match TopOrderedBlocks F !! i with
              | Some BB => getOptimisticEdge F (blockId BB)
              | None => None
              end) as [sink|].
    + destruct oe as [e|].
      * cbn zeta. split; [|reflexivity].
        intros H. apply Nat.leb_le in H. simpl in H. lia.
      * specialize (IH (S i) (Some (i, indexOf BBIndices sink))).
        cbn zeta in IH |- *. cbn [length].
        replace (S (length (optimisticBlocks F (S i) count)) + 0)%nat
          with (length (optimisticBlocks F (S i) count) + 1)%nat by lia.
        exact IH.
    + apply IH.
Qed.

Lemma getLoopInfo_outcome F BBIndices L : forall Parent acc,
  (loopNormal F BBIndices L = true ->
   exists acc', getLoopInfo F BBIndices L Parent acc = Ok acc')
  /\ (loopNormal F BBIndices L = false ->
      getLoopInfo F BBIndices L Parent acc = Fatal).
Proof.
  induction L as [h p l bs s c subs IH] using LLVMLoop_nested_ind.
  intros Parent acc. cbn [getLoopInfo loopNormal].
  destruct (s && c) eqn:Esc; cbn [negb andb]; [|split; [discriminate|reflexivity]].
  destruct (scanOptimisticEdges_outcome F BBIndices (length bs)
              (indexOf BBIndices h) None) as [Hok Hbad].
  cbn zeta in Hok, Hbad. rewrite Nat.add_0_r in Hok, Hbad.
  destruct (length (optimisticBlocks F (indexOf BBIndices h) (length bs)) <=? 1)%nat;
    cbn [andb].
  - destruct (Hok eq_refl) as [r ->].
    apply forEachLoop_outcome.
    eapply Forall_impl; [exact IH|]. intros c0 Hc a. apply Hc.
  - rewrite (Hbad eq_refl). split; [discriminate|reflexivity].
Qed.

Lemma getTopLevelLoops_outcome F BBIndices loops : forall acc,
  (forallb (loopNormal F BBIndices) loops = true ->
   exists acc', getTopLevelLoops F BBIndices loops acc = Ok acc')
  /\ (forallb (loopNormal F BBIndices) loops = false ->
      getTopLevelLoops F BBIndices loops acc = Fatal).
Proof.
  intros acc. apply forEachLoop_outcome.
  apply List.Forall_forall. intros L _ a. apply getLoopInfo_outcome.
Qed.

Lemma scanPredecessors_spec F BBIndices i BB BBScope preds :
  scanPredecessors F BBIndices i BB BBScope preds
  = (map (indexOf BBIndices) preds,
     flat_map (warningFor F BBIndices i BB BBScope) preds).
Proof.
  induction preds as [|PI rest IH]; cbn [scanPredecessors map flat_map]; [reflexivity|].
  rewrite IH. unfold warningFor.
  destruct (i <? indexOf BBIndices PI)%nat; cbn [andb]; [|reflexivity].
  destruct BBScope as [L|]; [destruct (negb _)|]; reflexivity.
Qed.

(** C8 (amended). The frame size is the number of allocas at the very
    start of the entry block.  When that number is zero and the root
    context exists, the builder stores -1 if the function holds no
    alloca at all (the magic value: frame processing can be skipped) and
    literal 0 if an alloca exists elsewhere; when the root context does
    not exist yet it stores 0. *)
Theorem frame_size_sentinel (F : LLVMFunction) (RootIA : bool) :
  let count := countLeadingAllocas (entryInstructions F) in
  0 <= count
  /\ (0 < count -> computeFrameSize F RootIA = count)
  /\ (count = 0 -> RootIA = false -> computeFrameSize F RootIA = 0)
  /\ (count = 0 -> RootIA = true ->
      existsb isa_AllocaInst (allInstructions F) = true ->
      computeFrameSize F RootIA = 0)
  /\ (count = 0 -> RootIA = true ->
      existsb isa_AllocaInst (allInstructions F) = false ->
      computeFrameSize F RootIA = -1)
  /\ (forall info warns, getFunctionInvarInfo F RootIA = Ok (info, warns) ->
      frameSize info = computeFrameSize F RootIA).
Proof.
  intros count.
  assert (Hc : forall l, 0 <= countLeadingAllocas l).
  { induction l as [|o r IH]; cbn [countLeadingAllocas]; [lia|].
    destruct (isa_AllocaInst o); lia. }
  split; [apply Hc|]. unfold computeFrameSize. fold count.
  split; [|split; [|split; [|split]]].
  - intros H. destruct (Z.eqb_spec count 0); [lia|]. reflexivity.
  - intros H ->. rewrite H. reflexivity.
  - intros H -> ->. rewrite H. reflexivity.
  - intros H -> ->. rewrite H. reflexivity.
  - intros info warns. unfold getFunctionInvarInfo.
    destruct (buildBlocks F _ 0 (TopOrderedBlocks F)) as [SBBs w].
    destruct (getTopLevelLoops _ _ _) as [[a b]| |]; [|discriminate|discriminate].
    intros H; inversion H; subst. reflexivity.
Qed.
End Builder.

Lemma frame_size_sentinel_witness : computeFrameSize irreducibleFn true = -1.
Proof.
  apply (frame_size_sentinel irreducibleFn true); reflexivity.
Defined.

(** C8, as stated, fails: [lateAllocaFn] has no alloca at the start of
    its entry block and one further down, and the frame size stored is
    literal zero, not the sentinel. *)
Lemma frame_size_late_alloca_counterexample :
  countLeadingAllocas (entryInstructions lateAllocaFn) = 0
  /\ existsb isa_AllocaInst (allInstructions lateAllocaFn) = true
  /\ exists info warns,
       getFunctionInvarInfo lateAllocaFn true = Ok (info, warns)
       /\ frameSize info = 0.
Proof.
  split; [reflexivity|]. split; [reflexivity|].
  do 2 eexists. split; [vm_compute; reflexivity|reflexivity].
Qed.


(** ** Copying a map and marking bytes known-safe *)

Section GoodBytes.
Import IntervalMap IntervalMapFacts.

Lemma wf_from_ranges m : forall lo, wf_from lo m -> ranges_from lo m.
Proof.
  induction m as [|[s e] r IH]; simpl; intros lo H; [exact I|].
  destruct H as (H1 & H2 & H3). repeat split; [lia | lia | auto].
Qed.

Lemma ranges_mem_lower rs : forall lo x,
  ranges_from lo rs -> mem x rs = true -> lo <= x.
Proof.
  induction rs as [|[a b] r IH]; simpl; intros lo x H Hm; [discriminate|].
  destruct H as (H1 & H2 & H3).
  apply orb_prop in Hm as [Hm|Hm]; [zbool|].
  specialize (IH _ _ H3 Hm). lia.
Qed.

Lemma insertFrom_disjoint a b m : forall lo,
  wf_from lo m -> a < b ->
  (forall x, a <= x < b -> mem x m = false) ->
  exists m', insertFrom a b m = Some m' /\ wf_from (Z.min lo (a - 1)) m' /\
             forall x, mem x m' = mem x m || ((a <=? x) && (x <? b)).
Proof.
  induction m as [|[s e] r IH]; simpl; intros lo Hwf Hab Hdis.
  - exists [(a, b)]. simpl. repeat split; lia.
  - destruct Hwf as (H1 & H2 & H3).
    destruct (Z.ltb_spec e a) as [L|L].
    + destruct (IH e H3 Hab) as (m' & E & W & M).
      { intros x Hx. specialize (Hdis x Hx). apply orb_false_elim in Hdis. tauto. }
      rewrite E. exists ((s, e) :: m'). simpl. repeat split; try lia.
      * apply (wf_from_weaken (Z.min e (a - 1))); [lia | exact W].
      * intros x. rewrite M, orb_assoc. reflexivity.
    + destruct (Z.eqb_spec e a) as [->|N].
      * destruct r as [|[s' e'] r'].
        -- exists [(s, b)]. simpl. repeat split; lia.
        -- simpl in H3. destruct H3 as (G1 & G2 & G3).
           assert (Hb : b <= s').
           { destruct (Z.le_gt_cases b s') as [?|G]; [assumption|].
             specialize (Hdis s' ltac:(lia)). simpl in Hdis. revert Hdis. zbool. }
           destruct (Z.ltb_spec b s').
           ++ exists ((s, b) :: (s', e') :: r'). simpl. repeat split; try lia; auto.
              intros x. destruct (mem x r'); zbool.
           ++ assert (b = s') by lia. subst s'. rewrite Z.eqb_refl.
              exists ((s, e') :: r'). simpl. repeat split; try lia; auto.
              intros x. destruct (mem x r'); zbool.
      * assert (Hb : b <= s).
        { destruct (Z.le_gt_cases b s) as [?|G]; [assumption|].
          specialize (Hdis (Z.max a s) ltac:(lia)). revert Hdis.
          destruct (mem (Z.max a s) r); zbool. }
        destruct (Z.ltb_spec b s).
        -- exists ((a, b) :: (s, e) :: r). simpl. repeat split; try lia; auto.
           intros x. destruct (mem x r); zbool.
        -- assert (b = s) by lia. subst s. rewrite Z.eqb_refl.
           exists ((a, e) :: r). simpl. repeat split; try lia; auto.
           intros x. destruct (mem x r); zbool.
Qed.

Lemma insertAll_disjoint rs : forall lo m,
  wf m -> ranges_from lo rs ->
  (forall x, mem x rs = true -> mem x m = false) ->
  exists M, insertAll rs m = Some M /\ wf M /\
            forall x, mem x M = mem x m || mem x rs.
Proof.
  induction rs as [|[a b] rs IH]; simpl; intros lo m Hwf Hr Hdis.
  - exists m. repeat split; auto. intros x. rewrite orb_false_r. reflexivity.
  - destruct Hr as (H1 & H2 & H3).
    unfold insert. destruct (Z.leb_spec b a); [lia|].
    destruct (wf_wf_from _ Hwf) as [l0 L0].
    destruct (insertFrom_disjoint a b m l0 L0 H2) as (m' & E & W & M).
    { intros x Hx. apply Hdis. zbool. }
    rewrite E.
    destruct (IH b m' (wf_from_wf _ _ W) H3) as (M' & E' & W' & M'').
    { intros x Hx. rewrite M. pose proof (ranges_mem_lower _ _ _ H3 Hx).
      rewrite (Hdis x) by (rewrite Hx; apply orb_true_r). zbool. }
    exists M'. repeat split; auto.
    intros x. rewrite M'', M, orb_assoc. reflexivity.
Qed.

Lemma gapsRight_spec stop it : forall lo s e next,
  it = (s, e) :: next -> wf_from lo it ->
  ranges_from e (gapsRight stop it) /\
  forall x, mem x (gapsRight stop it)
            = ((e <=? x) && (x <? stop)) && negb (mem x next).
Proof.
  induction it as [|[s0 e0] r IH]; intros lo s e next E Hwf; [discriminate|].
  injection E as -> -> ->. simpl in Hwf. destruct Hwf as (H1 & H2 & H3).
  simpl gapsRight.
  destruct (Z.ltb_spec s stop) as [Ls|Ls].
  2:{ split; [exact I|]. intros x. simpl. zbool. }
  destruct next as [|[ns ne] next'].
  - simpl. destruct (Z.ltb_spec e stop) as [Le|Le]; simpl.
    + destruct (Z.eqb_spec e stop); [lia|]. simpl.
      split; [lia|]. intros x. zbool.
    + split; [exact I|]. intros x. zbool.
  - destruct (IH e ns ne next' eq_refl H3) as (R & M).
    simpl in H3. destruct H3 as (G1 & G2 & G3).
    destruct (Z.ltb_spec e stop) as [Le|Le].
    + destruct (Z.eqb_spec e (Z.min stop ns)); [lia|].
      split.
      * simpl app. simpl ranges_from. repeat split; try lia.
        apply (ranges_from_weaken ne); [lia | exact R].
      * intros x. simpl app. cbn [mem]. rewrite M.
        destruct (Z.lt_ge_cases x ne) as [Hx|Hx].
        -- rewrite (mem_lower_false ne next' x G3) by lia. zbool.
        -- destruct (mem x next'); zbool.
    + split.
      * simpl app. apply (ranges_from_weaken ne); [lia | exact R].
      * intros x. simpl app. rewrite M. cbn [mem].
        destruct (mem x next'); zbool.
Qed.

Lemma addRangesFor_spec M start stop :
  wf M -> start < stop ->
  ranges_from start (addRangesFor (Some M) start stop) /\
  forall x, mem x (addRangesFor (Some M) start stop)
            = ((start <=? x) && (x <? stop)) && negb (mem x M).
Proof.
  intros Hwf Hlt. destruct (wf_wf_from _ Hwf) as [lo L].
  unfold addRangesFor.
  pose proof (find_wf_from lo start M L) as WF.
  pose proof (find_stops_above start M) as SA.
  pose proof (fun x => find_mem lo start x M L) as FM.
  destruct (find start M) as [|[s e] next] eqn:E.
  - simpl. split; [lia|]. intros x.
    destruct (Z.le_gt_cases start x) as [Hx|Hx].
    + rewrite <- (FM x Hx). simpl. zbool.
    + zbool.
  - simpl in SA.
    destruct (gapsRight_spec stop ((s, e) :: next) lo s e next eq_refl WF) as (R & G).
    simpl in WF. destruct WF as (W1 & W2 & W3).
    destruct (Z.leb_spec stop s) as [Ls|Ls].
    + simpl. split; [lia|]. intros x.
      destruct (Z.le_gt_cases start x) as [Hx|Hx].
      * rewrite <- (FM x Hx). simpl.
        destruct (Z.lt_ge_cases x stop) as [Hy|Hy].
        -- rewrite (mem_lower_false e next x W3) by lia. zbool.
        -- zbool.
      * zbool.
    + split.
      * destruct (Z.ltb_spec start s).
        -- simpl app. simpl ranges_from. repeat split; try lia.
           apply (ranges_from_weaken e); [lia | exact R].
        -- simpl app. apply (ranges_from_weaken e); [lia | exact R].
      * intros x. rewrite mem_app, G.
        destruct (Z.le_gt_cases start x) as [Hx|Hx].
        -- rewrite <- (FM x Hx). cbn [mem].
           destruct (Z.lt_ge_cases x e) as [Hy|Hy].
           ++ rewrite (mem_lower_false e next x W3) by lia.
              destruct (Z.ltb_spec start s); simpl; zbool.
           ++ destruct (mem x next); destruct (Z.ltb_spec start s); simpl; zbool.
        -- destruct (mem x M), (mem x next); destruct (Z.ltb_spec start s); simpl; zbool.
Qed.

Lemma markRange_spec M start stop :
  wf M -> start < stop ->
  exists M', insertAll (addRangesFor (Some M) start stop) M = Some M' /\ wf M' /\
             forall x, mem x M' = mem x M || ((start <=? x) && (x <? stop)).
Proof.
  intros Hwf Hlt.
  destruct (addRangesFor_spec M start stop Hwf Hlt) as (R & G).
  destruct (insertAll_disjoint _ start M Hwf R) as (M' & E & W & Mm).
  { intros x Hx. rewrite G in Hx. destruct (mem x M); [|reflexivity].
    rewrite andb_false_r in Hx. discriminate. }
  exists M'. repeat split; auto.
  intros x. rewrite Mm, G. destruct (mem x M); zbool.
Qed.

(** X1. [getReadableCopy] succeeds on every map whose intervals are
    non-empty and in increasing order: the copy is in canonical form and
    covers exactly the bytes of the original, adjacent intervals being
    coalesced; a map that is already canonical is copied unchanged. *)
Theorem getReadableCopy_canonical M lo :
  ranges_from lo M ->
  exists M', getReadableCopy M = Some M' /\ wf M' /\
             (forall x, mem x M' = mem x M) /\
             (wf M -> M' = M).
Proof.
  intros Hr.
  destruct (insertAll_sorted M (lo - 1) lo [] Hr I I ltac:(lia))
    as (M' & E & W & Mm).
  exists M'. unfold getReadableCopy, empty.
  split; [exact E|]. split; [eapply wf_from_wf; eauto|].
  split; [intros x; rewrite Mm; reflexivity|].
  intros Hwf. apply wf_ext; [eapply wf_from_wf; eauto | exact Hwf |].
  intros x. rewrite Mm. reflexivity.
Qed.

Lemma getReadable_setStoreFor_same st O m :
  hasSlot st O = true -> getReadableStoreFor (setStoreFor st O m) O = Some m.
Proof.
  destruct O as [|a c|f i|i|]; simpl; intros H; try discriminate.
  - apply lookup_insert_eq.
  - apply bool_decide_eq_true in H. destruct H as [fr Hf].
    rewrite list_lookup_alter_eq, Hf. simpl. apply lookup_insert_eq.
  - apply lookup_insert_eq.
Qed.

Lemma getReadable_setStoreFor_other st O O' m :
  storeSlot O' <> storeSlot O ->
  getReadableStoreFor (setStoreFor st O m) O' = getReadableStoreFor st O'.
Proof.
  destruct O as [|a c|f i|i|], O' as [|a' c'|f' i'|i'|]; simpl; intros H;
    try reflexivity.
  - apply lookup_insert_ne. congruence.
  - apply lookup_insert_ne. congruence.
  - destruct (decide (f = f')) as [->|Hne].
    + rewrite list_lookup_alter_eq. destruct (frames st !! f'); simpl; [|reflexivity].
      apply lookup_insert_ne. congruence.
    + rewrite list_lookup_alter_ne by congruence. reflexivity.
  - apply lookup_insert_ne. congruence.
  - apply lookup_insert_ne. congruence.
Qed.

Lemma hasSlot_setStoreFor st O m O' :
  hasSlot (setStoreFor st O m) O' = hasSlot st O'.
Proof.
  destruct O as [|a c|f i|i|], O' as [|a' c'|f' i'|i'|]; simpl; try reflexivity.
  apply bool_decide_ext.
  destruct (decide (f = f')) as [->|Hne].
  - rewrite list_lookup_alter_eq. destruct (frames st !! f'); simpl; split; intros [? ?]; eauto; discriminate.
  - rewrite list_lookup_alter_ne by congruence. reflexivity.
Qed.

Lemma ranges_empty lo rs :
  ranges_from lo rs -> (forall x, mem x rs = false) -> rs = [].
Proof.
  destruct rs as [|[a b] r]; simpl; intros H Hm; [reflexivity|].
  specialize (Hm a). revert Hm. destruct (mem a r); zbool.
Qed.

(** What [markGoodBytes] does to the map of the target. *)
Lemma markGoodBytes_target GoodPtr Len st OffsetArg P :
  allOthersClobbered st = true ->
  uniqueIV GoodPtr = Some (ValSetTypePB, P) ->
  isConstantGV (V P) = false ->
  hasSlot st (V P) = true ->
  (forall M, getReadableStoreFor st (V P) = Some M -> wf M) ->
  u64 (Offset P + OffsetArg) < u64 (Offset P + OffsetArg + Len) ->
  exists M',
    wf M' /\
    (forall x, mem x M' = knownSafe st (V P) x
                          || ((u64 (Offset P + OffsetArg) <=? x)
                              && (x <? u64 (Offset P + OffsetArg + Len)))) /\
    (markGoodBytes GoodPtr Len true st OffsetArg = Some (setStoreFor st (V P) M')
     \/ (markGoodBytes GoodPtr Len true st OffsetArg = Some st /\
         getReadableStoreFor st (V P) = Some M')).
Proof.
  intros Hc Hu Hk Hs Hwf Hlt.
  unfold markGoodBytes. rewrite Hc, Hu, Hk. cbn [negb isPB].
  unfold knownSafe, getWritableTLStore. rewrite Hc.
  destruct (getReadableStoreFor st (V P)) as [M|] eqn:E.
  - specialize (Hwf M eq_refl).
    destruct (markRange_spec M _ _ Hwf Hlt) as (M' & E' & W' & Mm).
    destruct (addRangesFor (Some M) _ _) as [|r rs] eqn:EA.
    + simpl in E'. injection E' as <-. exists M. repeat split; auto.
    + rewrite E'. exists M'. repeat split; auto.
  - cbn [addRangesFor insertAll]. unfold insert, empty.
    destruct (Z.leb_spec (u64 (Offset P + OffsetArg + Len)) (u64 (Offset P + OffsetArg)));
      [lia|].
    cbn [insertFrom]. eexists. split; [|split; [|left; reflexivity]].
    + simpl. split; [lia | exact I].
    + intros x. simpl. rewrite orb_false_r. reflexivity.
Qed.

(** X2. In a store whose flag says that unlisted allocations are unsafe,
    marking [Len] bytes through a pointer to a single allocation that has
    a slot succeeds when the map of the target is canonical and the range
    is not empty: afterwards the known-safe bytes of the target are the
    old ones and the bytes of the range, the map is still canonical, the
    maps of all other slots are what they were and the flag is
    unchanged. *)
Theorem markGoodBytes_marks_range GoodPtr Len st OffsetArg P :
  allOthersClobbered st = true ->
  uniqueIV GoodPtr = Some (ValSetTypePB, P) ->
  isConstantGV (V P) = false ->
  hasSlot st (V P) = true ->
  (forall M, getReadableStoreFor st (V P) = Some M -> wf M) ->
  u64 (Offset P + OffsetArg) < u64 (Offset P + OffsetArg + Len) ->
  exists st',
    markGoodBytes GoodPtr Len true st OffsetArg = Some st' /\
    (forall x, knownSafe st' (V P) x
               = knownSafe st (V P) x
                 || ((u64 (Offset P + OffsetArg) <=? x)
                     && (x <? u64 (Offset P + OffsetArg + Len)))) /\
    (forall O, storeSlot O <> storeSlot (V P) ->
               getReadableStoreFor st' O = getReadableStoreFor st O) /\
    allOthersClobbered st' = true /\
    (exists M', getReadableStoreFor st' (V P) = Some M' /\ wf M').
Proof.
  intros Hc Hu Hk Hs Hwf Hlt.
  destruct (markGoodBytes_target GoodPtr Len st OffsetArg P Hc Hu Hk Hs Hwf Hlt)
    as (M' & W & Mm & [E|[E E']]).
  - exists (setStoreFor st (V P) M'). split; [exact E|].
    assert (R : getReadableStoreFor (setStoreFor st (V P) M') (V P) = Some M')
      by (apply getReadable_setStoreFor_same; exact Hs).
    repeat split.
    + intros x. unfold knownSafe at 1. rewrite R. apply Mm.
    + intros O HO. apply getReadable_setStoreFor_other. exact HO.
    + destruct (V P); simpl; auto.
    + exists M'. auto.
  - exists st. split; [exact E|]. repeat split; auto.
    + intros x. rewrite <- Mm. unfold knownSafe. rewrite E'. reflexivity.
    + exists M'. auto.
Qed.

(** X3. Marking a range all of whose bytes are already known-safe leaves
    the store exactly as it is, so marking the same bytes twice is the
    same as marking them once. *)
Theorem markGoodBytes_covered_noop GoodPtr Len st OffsetArg P :
  uniqueIV GoodPtr = Some (ValSetTypePB, P) ->
  (forall M, getReadableStoreFor st (V P) = Some M -> wf M) ->
  u64 (Offset P + OffsetArg) < u64 (Offset P + OffsetArg + Len) ->
  (forall x, u64 (Offset P + OffsetArg) <= x < u64 (Offset P + OffsetArg + Len) ->
             knownSafe st (V P) x = true) ->
  markGoodBytes GoodPtr Len true st OffsetArg = Some st.
Proof.
  intros Hu Hwf Hlt Hcov.
  unfold markGoodBytes. rewrite Hu. cbn [negb isPB].
  destruct (allOthersClobbered st) eqn:Hc; [|reflexivity]. cbn [negb].
  destruct (isConstantGV (V P)); [reflexivity|].
  unfold knownSafe in Hcov. rewrite Hc in Hcov.
  destruct (getReadableStoreFor st (V P)) as [M|] eqn:E.
  - destruct (addRangesFor_spec M _ _ (Hwf M eq_refl) Hlt) as (R & G).
    rewrite (ranges_empty _ _ R); [reflexivity|].
    intros x. rewrite G.
    destruct (Z.le_gt_cases (u64 (Offset P + OffsetArg)) x);
      destruct (Z.lt_ge_cases x (u64 (Offset P + OffsetArg + Len)));
      try (rewrite Hcov by lia); zbool.
  - specialize (Hcov (u64 (Offset P + OffsetArg)) ltac:(lia)). discriminate.
Qed.

Lemma insertFrom_mono a b m : forall lo m',
  wf_from lo m -> a < b -> insertFrom a b m = Some m' ->
  wf_from (Z.min lo (a - 1)) m' /\
  forall x, mem x m = true -> mem x m' = true.
Proof.
  induction m as [|[s e] r IH]; simpl; intros lo m' Hwf Hab H.
  - injection H as <-. simpl. repeat split; try lia.
  - destruct Hwf as (H1 & H2 & H3).
    destruct (Z.ltb_spec e a).
    + destruct (insertFrom a b r) as [r'|] eqn:E; [|discriminate].
      injection H as <-. destruct (IH e r' H3 Hab eq_refl) as [W M].
      simpl. repeat split; try lia.
      * apply (wf_from_weaken (Z.min e (a - 1))); [lia | exact W].
      * intros x Hm. apply orb_prop in Hm as [Hm|Hm].
        -- rewrite Hm. reflexivity.
        -- rewrite (M _ Hm). apply orb_true_r.
    + destruct (Z.eqb_spec e a).
      * destruct r as [|[s' e'] r'].
        -- injection H as <-. simpl. repeat split; try lia.
        -- simpl in H3. destruct H3 as (G1 & G2 & G3).
           destruct (Z.ltb_spec b s').
           ++ injection H as <-. simpl. repeat split; try lia; auto;
                try solve [intros x; destruct (mem x r'); zbool].
           ++ destruct (Z.eqb_spec b s'); [|discriminate].
              injection H as <-. simpl. repeat split; try lia; auto;
                try solve [intros x; destruct (mem x r'); zbool].
      * destruct (Z.ltb_spec b s).
        -- injection H as <-. simpl. repeat split; try lia; auto;
             try solve [intros x; destruct (mem x r); zbool].
        -- destruct (Z.eqb_spec b s); [|discriminate].
           injection H as <-. simpl. repeat split; try lia; auto;
             try solve [intros x; destruct (mem x r); zbool].
Qed.

Lemma insertAll_mono rs : forall m m',
  wf m -> insertAll rs m = Some m' ->
  wf m' /\ forall x, mem x m = true -> mem x m' = true.
Proof.
  induction rs as [|[a b] rs IH]; simpl; intros m m' Hwf H.
  - injection H as <-. auto.
  - unfold insert in H. destruct (Z.leb_spec b a); [discriminate|].
    destruct (insertFrom a b m) as [m1|] eqn:E; [|discriminate].
    destruct (wf_wf_from _ Hwf) as [lo L].
    destruct (insertFrom_mono a b m lo m1 L ltac:(lia) E) as [W1 M1].
    destruct (IH m1 m' (wf_from_wf _ _ W1) H) as [W2 M2].
    split; auto.
Qed.

Lemma getReadable_setStoreFor_cases st O M' O' M :
  getReadableStoreFor (setStoreFor st O M') O' = Some M ->
  M = M' \/ getReadableStoreFor st O' = Some M.
Proof.
  destruct (decide (storeSlot O' = storeSlot O)) as [E|E].
  - destruct O as [|a c|f i|i|]; simpl; auto.
    + destruct O' as [|a' c'|f' i'|i'|]; try discriminate;
        simpl in *; injection E as <-; rewrite lookup_insert_eq; intros [= <-]; auto.
    + destruct O' as [|a' c'|f' i'|i'|]; try discriminate.
      simpl in *. injection E as -> ->.
      rewrite list_lookup_alter_eq.
      destruct (frames st !! f) as [fr|]; simpl; [|discriminate].
      rewrite lookup_insert_eq. intros [= <-]; auto.
    + destruct O' as [|a' c'|f' i'|i'|]; try discriminate;
        simpl in *; injection E as <-; rewrite lookup_insert_eq; intros [= <-]; auto.
  - rewrite getReadable_setStoreFor_other by exact E. auto.
Qed.

Lemma knownSafe_setStoreFor_mono st O M' :
  (forall x, knownSafe st O x = true -> mem x M' = true) ->
  forall O' x, knownSafe st O' x = true ->
               knownSafe (setStoreFor st O M') O' x = true.
Proof.
  intros HM O' x H.
  destruct (decide (storeSlot O' = storeSlot O)) as [E|E].
  - destruct O as [|a c|f i|i|]; try exact H;
      destruct O' as [|a' c'|f' i'|i'|]; simpl in E; try discriminate E;
      injection E; intros; subst; unfold knownSafe; simpl.
    + rewrite lookup_insert_eq. apply HM. exact H.
    + rewrite lookup_insert_eq. apply HM. exact H.
    + rewrite list_lookup_alter_eq.
      destruct (frames st !! f) as [fr|] eqn:F; simpl.
      * rewrite lookup_insert_eq. apply HM. exact H.
      * unfold knownSafe in H. simpl in H. rewrite F in H. exact H.
    + rewrite lookup_insert_eq. apply HM. exact H.
    + rewrite lookup_insert_eq. apply HM. exact H.
  - unfold knownSafe in *. rewrite getReadable_setStoreFor_other by exact E.
    destruct O; exact H.
Qed.

Lemma markGoodBytes_mono GoodPtr Len en st off st' :
  storeWf st ->
  markGoodBytes GoodPtr Len en st off = Some st' ->
  storeWf st' /\
  forall O x, knownSafe st O x = true -> knownSafe st' O x = true.
Proof.
  unfold markGoodBytes. intros Hwf H.
  destruct (negb en); [injection H as <-; auto|].
  destruct (allOthersClobbered st) eqn:Hc; cbn [negb] in H; [|injection H as <-; auto].
  destruct (uniqueIV GoodPtr) as [[ty P]|]; [|injection H as <-; auto].
  destruct (negb (isPB ty)); [injection H as <-; auto|].
  destruct (isConstantGV (V P)); [injection H as <-; auto|].
  destruct (addRangesFor _ _ _) as [|r rs]; [injection H as <-; auto|].
  destruct (insertAll _ _) as [M|] eqn:E; [|discriminate].
  injection H as <-.
  assert (W0 : wf (getWritableTLStore st (V P))).
  { unfold getWritableTLStore.
    destruct (getReadableStoreFor st (V P)) eqn:R; [eapply Hwf; eauto | exact I]. }
  destruct (insertAll_mono _ _ _ W0 E) as [W M'].
  split.
  - intros O' M0 R. apply getReadable_setStoreFor_cases in R as [->|R];
      [exact W | eapply Hwf; eauto].
  - apply knownSafe_setStoreFor_mono.
    intros x Hx. apply M'.
    unfold knownSafe, getWritableTLStore in *. rewrite Hc in Hx.
    destruct (getReadableStoreFor st (V P)); [exact Hx | discriminate].
Qed.

Lemma walkCopyInst_mono a b l en st st' :
  storeWf st ->
  walkCopyInst a b l en st = Some st' ->
  storeWf st' /\
  forall O x, knownSafe st O x = true -> knownSafe st' O x = true.
Proof.
  unfold walkCopyInst. intros Hwf H.
  destruct (constantInt l); [|injection H as <-; auto].
  destruct (markGoodBytes b _ _ _ _) as [st1|] eqn:E; [|discriminate].
  destruct (markGoodBytes_mono _ _ _ _ _ _ Hwf E) as [W1 M1].
  destruct (markGoodBytes_mono _ _ _ _ _ _ W1 H) as [W2 M2].
  split; auto.
Qed.

End GoodBytes.

(** ** Reading the store *)

Section ReadFacts.
Import IntervalMap IntervalMapFacts.

Lemma below_find hi x m : below hi m -> below hi (find x m).
Proof.
  induction m as [|[s e] r IH]; simpl; intros H; [exact I|].
  destruct H as [H1 H2]. destruct (e <=? x); simpl; auto.
Qed.

Lemma signedRange_bounds M :
  wf M -> (forall x, mem x M = true -> 0 <= x < 2 ^ 63 - 1) -> signedRange M.
Proof.
  intros Hwf Hb. split.
  - destruct M as [|[s e] r]; simpl in *; [exact I|].
    destruct Hwf as [H1 H2]. repeat split; auto.
    specialize (Hb s). destruct (mem s r); revert Hb; zbool.
  - destruct (wf_wf_from _ Hwf) as [lo L]. clear Hwf. revert lo L Hb.
    induction M as [|[s e] r IH]; simpl; intros lo L Hb; [exact I|].
    destruct L as (L1 & L2 & L3). split.
    + specialize (Hb (e - 1)). destruct (mem (e - 1) r); revert Hb; zbool.
    + apply (IH e L3). intros x Hx. apply Hb. rewrite Hx. apply orb_true_r.
Qed.

Lemma coveredByMap_iff M off size :
  signedRange M -> 0 <= off -> 0 < size -> off + size < 2 ^ 63 ->
  match find (u64 off) M with
  | [] => false
  | (s, e) :: _ => (i64 s <=? off) && (i64 (off + i64 size) <=? i64 e)
  end = true
  <-> forall x, off <= x < off + size -> mem x M = true.
Proof.
  intros [Hwf Hb] Hoff Hsz Hlim.
  rewrite (u64_small off) by lia.
  rewrite (i64_small size) by lia. rewrite (i64_small (off + size)) by lia.
  pose proof (find_wf_from _ off M Hwf) as WF.
  pose proof (below_find _ off M Hb) as BF.
  pose proof (find_stops_above off M) as SA.
  pose proof (fun x => find_mem _ off x M Hwf) as FM.
  destruct (find off M) as [|[s e] next].
  - split; [discriminate|]. intros H.
    specialize (H off ltac:(lia)). rewrite <- FM in H by lia. discriminate.
  - simpl in WF, BF, SA. destruct WF as (W1 & W2 & W3). destruct BF as [B1 B2].
    rewrite (i64_small s) by lia. rewrite (i64_small e) by lia.
    split.
    + intros H x Hx. rewrite <- FM by lia. simpl. revert H. zbool.
    + intros H.
      assert (Hs : s <= off).
      { pose proof (H off ltac:(lia)) as X. rewrite <- FM in X by lia. simpl in X.
        destruct (Z.le_gt_cases s off); [assumption|].
        rewrite (mem_lower_false e next off W3) in X by lia. revert X. zbool. }
      assert (He : off + size <= e).
      { destruct (Z.le_gt_cases (off + size) e); [assumption|].
        pose proof (H e ltac:(lia)) as X. rewrite <- FM in X by lia. simpl in X.
        rewrite (mem_lower_false e next e W3) in X by lia. revert X. zbool. }
      zbool.
Qed.

Lemma shouldCheckRead_sound Ptr Size st :
  isNullPointer (V Ptr) = false ->
  isConstantGV (V Ptr) = false ->
  (forall M, getReadableStoreFor st (V Ptr) = Some M -> signedRange M) ->
  0 <= Offset Ptr -> 0 < Size -> Offset Ptr + Size < 2 ^ 63 ->
  shouldCheckRead Ptr Size st = false ->
  forall x, Offset Ptr <= x < Offset Ptr + Size -> knownSafe st (V Ptr) x = true.
Proof.
  intros Hn Hc Hwf Hoff Hsz Hlim.
  unfold shouldCheckRead, knownSafe. rewrite Hn, Hc.
  destruct (getReadableStoreFor st (V Ptr)) as [M|].
  - rewrite negb_false_iff. apply coveredByMap_iff; auto.
  - intros -> x Hx. reflexivity.
Qed.

Lemma shouldCheckRead_safe Ptr Size st :
  (forall M, getReadableStoreFor st (V Ptr) = Some M -> signedRange M) ->
  0 <= Offset Ptr -> 0 < Size -> Offset Ptr + Size < 2 ^ 63 ->
  (forall x, Offset Ptr <= x < Offset Ptr + Size ->
             knownSafe st (V Ptr) x = true) ->
  shouldCheckRead Ptr Size st = false.
Proof.
  intros Hwf Hoff Hsz Hlim H.
  unfold shouldCheckRead. unfold knownSafe in H.
  destruct (isNullPointer (V Ptr)); [reflexivity|].
  destruct (isConstantGV (V Ptr)); [reflexivity|].
  destruct (getReadableStoreFor st (V Ptr)) as [M|].
  - rewrite negb_false_iff. apply coveredByMap_iff; auto.
  - specialize (H (Offset Ptr) ltac:(lia)).
    destruct (allOthersClobbered st); [discriminate | reflexivity].
Qed.

(** X4. For a pointer that is neither null nor a constant global, and a
    read that lies within the signed range, [shouldCheckRead] answers
    that no check is needed exactly when every byte read is known-safe in
    the store. *)
Theorem shouldCheckRead_exact Ptr Size st :
  isNullPointer (V Ptr) = false ->
  isConstantGV (V Ptr) = false ->
  (forall M, getReadableStoreFor st (V Ptr) = Some M -> signedRange M) ->
  0 <= Offset Ptr -> 0 < Size -> Offset Ptr + Size < 2 ^ 63 ->
  (shouldCheckRead Ptr Size st = false
   <-> forall x, Offset Ptr <= x < Offset Ptr + Size ->
                 knownSafe st (V Ptr) x = true).
Proof.
  intros Hn Hc Hwf Hoff Hsz Hlim. split.
  - apply shouldCheckRead_sound; auto.
  - apply shouldCheckRead_safe; auto.
Qed.

(** X5. [shouldCheckRead] is monotone in the store: if every byte of
    the allocation that is known-safe in [st1] is known-safe in [st2], a
    read that must be checked in [st2] must be checked in [st1]. *)
Theorem shouldCheckRead_monotone Ptr Size st1 st2 :
  (forall M, getReadableStoreFor st1 (V Ptr) = Some M -> signedRange M) ->
  (forall M, getReadableStoreFor st2 (V Ptr) = Some M -> signedRange M) ->
  0 <= Offset Ptr -> 0 < Size -> Offset Ptr + Size < 2 ^ 63 ->
  (forall x, knownSafe st1 (V Ptr) x = true -> knownSafe st2 (V Ptr) x = true) ->
  shouldCheckRead Ptr Size st2 = true -> shouldCheckRead Ptr Size st1 = true.
Proof.
  intros W1 W2 Hoff Hsz Hlim Hle H2.
  destruct (shouldCheckRead Ptr Size st1) eqn:E1; [reflexivity|].
  rewrite (shouldCheckRead_safe Ptr Size st2) in H2; auto.
  unfold shouldCheckRead in E1, H2.
  destruct (isNullPointer (V Ptr)) eqn:Hn; [discriminate|].
  destruct (isConstantGV (V Ptr)) eqn:Hc; [discriminate|].
  intros x Hx. apply Hle.
  revert x Hx. apply (shouldCheckRead_sound Ptr Size st1); auto.
  unfold shouldCheckRead. rewrite Hn, Hc. exact E1.
Qed.

Lemma signedRange_mem M x :
  signedRange M -> mem x M = true -> 0 <= x < 2 ^ 63 - 1.
Proof.
  intros [W B] H. pose proof (mem_lower _ _ _ W H).
  destruct (Z.lt_ge_cases x (2 ^ 63 - 1)); [lia|].
  rewrite (mem_below _ _ _ B) in H by lia. discriminate.
Qed.

(** X6. A read that follows a write needs no check: after marking
    [Len] bytes through a pointer, a read of any non-empty part of those
    bytes of the same allocation is answered "no check" by
    [shouldCheckRead]. *)
Theorem read_after_write GoodPtr Len st OffsetArg P o sz :
  allOthersClobbered st = true ->
  uniqueIV GoodPtr = Some (ValSetTypePB, P) ->
  isConstantGV (V P) = false ->
  hasSlot st (V P) = true ->
  (forall M, getReadableStoreFor st (V P) = Some M -> signedRange M) ->
  0 <= Offset P + OffsetArg -> 0 < Len -> Offset P + OffsetArg + Len < 2 ^ 63 ->
  Offset P + OffsetArg <= o -> 0 < sz -> o + sz <= Offset P + OffsetArg + Len ->
  exists st',
    markGoodBytes GoodPtr Len true st OffsetArg = Some st' /\
    shouldCheckRead {| V := V P; Offset := o |} sz st' = false.
Proof.
  intros Hc Hu Hk Hs Hsr H0 HL Hlim Ho Hsz Hend.
  assert (E1 : u64 (Offset P + OffsetArg) = Offset P + OffsetArg)
    by (apply u64_small; lia).
  assert (E2 : u64 (Offset P + OffsetArg + Len) = Offset P + OffsetArg + Len)
    by (apply u64_small; lia).
  destruct (markGoodBytes_target GoodPtr Len st OffsetArg P Hc Hu Hk Hs)
    as (M' & W & Mm & Hr).
  { intros M HM. destruct (Hsr M HM) as [A _]. eapply wf_from_wf; eauto. }
  { rewrite E1, E2. lia. }
  rewrite E1, E2 in Mm.
  assert (SR : signedRange M').
  { apply signedRange_bounds; [exact W|]. intros x Hx. rewrite Mm in Hx.
    apply orb_prop in Hx as [Hx|Hx].
    - unfold knownSafe in Hx. rewrite Hc in Hx.
      destruct (getReadableStoreFor st (V P)) as [M|] eqn:R; [|discriminate].
      eapply signedRange_mem; eauto.
    - revert Hx. zbool. }
  assert (Hread : forall st', getReadableStoreFor st' (V P) = Some M' ->
            shouldCheckRead {| V := V P; Offset := o |} sz st' = false).
  { intros st' R. apply shouldCheckRead_safe; cbn [V Offset]; try lia.
    - intros M HM. rewrite R in HM. injection HM as <-. exact SR.
    - intros x Hx. unfold knownSafe. rewrite R, Mm.
      apply orb_true_iff. right. zbool. }
  destruct Hr as [E|[E R]].
  - eexists. split; [exact E|]. apply Hread.
    apply getReadable_setStoreFor_same. exact Hs.
  - exists st. split; [exact E|]. apply Hread. exact R.
Qed.

End ReadFacts.

(** ** Straight-line code: a store, then a load *)

Section StraightLine.
Import IntervalMap IntervalMapFacts.

Variable cfg : Config.
Variable isNullOrConst : ShadowValue -> bool.









End StraightLine.




(** ** Copies *)

Section CopyFacts.
Import IntervalMap IntervalMapFacts.

Lemma markGoodBytes_safe_after GoodPtr Len st P :
  allOthersClobbered st = true ->
  uniqueIV GoodPtr = Some (ValSetTypePB, P) ->
  isConstantGV (V P) = false ->
  hasSlot st (V P) = true ->
  storeWf st ->
  u64 (Offset P + 0) < u64 (Offset P + 0 + Len) ->
  exists st',
    markGoodBytes GoodPtr Len true st 0 = Some st' /\
    allOthersClobbered st' = true /\
    (forall O, hasSlot st' O = hasSlot st O) /\
    storeWf st' /\
    (forall O x, knownSafe st O x = true -> knownSafe st' O x = true) /\
    (forall x, u64 (Offset P + 0) <= x < u64 (Offset P + 0 + Len) ->
               knownSafe st' (V P) x = true).
Proof.
  intros Hc Hu Hk Hs Hwf Hlt.
  destruct (markGoodBytes_target GoodPtr Len st 0 P Hc Hu Hk Hs
              (fun M H => Hwf _ M H) Hlt) as (M' & W & Mm & Hr).
  assert (Hin : forall x, u64 (Offset P + 0) <= x < u64 (Offset P + 0 + Len) ->
                          mem x M' = true).
  { intros x Hx. rewrite Mm. apply orb_true_iff. right. zbool. }
  destruct Hr as [E|[E R]].
  - destruct (markGoodBytes_mono _ _ _ _ _ _ Hwf E) as [W' Mo].
    eexists. split; [exact E|].
    split; [destruct (V P); simpl; auto|].
    split; [intros O; apply hasSlot_setStoreFor|].
    split; [exact W'|]. split; [exact Mo|].
    intros x Hx. unfold knownSafe.
    rewrite (getReadable_setStoreFor_same st (V P) M' Hs). auto.
  - exists st. split; [exact E|]. repeat split; auto.
    intros x Hx. unfold knownSafe. rewrite R. auto.
Qed.

(** X24. A copy of constant length marks both its ranges: in a store
    with canonical maps whose flag says unlisted allocations are unsafe,
    [walkCopyInst] on two pointers to allocations that have a slot
    succeeds, afterwards every byte of the range at either pointer is
    known-safe, and no byte that was known-safe before is lost. *)
Theorem walkCopyInst_marks_both CopyFrom CopyTo LenSV Len st Pf Pt :
  allOthersClobbered st = true ->
  storeWf st ->
  constantInt LenSV = Some Len ->
  uniqueIV CopyFrom = Some (ValSetTypePB, Pf) ->
  uniqueIV CopyTo = Some (ValSetTypePB, Pt) ->
  isConstantGV (V Pf) = false -> isConstantGV (V Pt) = false ->
  hasSlot st (V Pf) = true -> hasSlot st (V Pt) = true ->
  u64 (Offset Pf + 0) < u64 (Offset Pf + 0 + Len) ->
  u64 (Offset Pt + 0) < u64 (Offset Pt + 0 + Len) ->
  exists st',
    walkCopyInst CopyFrom CopyTo LenSV true st = Some st' /\
    (forall x, u64 (Offset Pf + 0) <= x < u64 (Offset Pf + 0 + Len) ->
               knownSafe st' (V Pf) x = true) /\
    (forall x, u64 (Offset Pt + 0) <= x < u64 (Offset Pt + 0 + Len) ->
               knownSafe st' (V Pt) x = true) /\
    (forall O x, knownSafe st O x = true -> knownSafe st' O x = true) /\
    storeWf st'.
Proof.
  intros Hc Hwf HL Hf Ht Hkf Hkt Hsf Hst Hlf Hlt.
  unfold walkCopyInst. rewrite HL.
  destruct (markGoodBytes_safe_after CopyTo Len st Pt Hc Ht Hkt Hst Hwf Hlt)
    as (st1 & E1 & C1 & S1 & W1 & M1 & K1).
  rewrite E1.
  destruct (markGoodBytes_safe_after CopyFrom Len st1 Pf C1 Hf Hkf
              ltac:(rewrite S1; exact Hsf) W1 Hlf)
    as (st2 & E2 & C2 & S2 & W2 & M2 & K2).
  exists st2. split; [exact E2|]. repeat split; auto.
Qed.

End CopyFacts.



(** ** Classifying loads and copies *)

Section CheckFacts.
Import IntervalMap IntervalMapFacts.
Variable cfg : Config.
Variable isNullOrConst : ShadowValue -> bool.

(** X7. Only yield points forget: an instruction that is neither a
    volatile load nor a call outside the known special functions never
    removes a known-safe byte from the store, and keeps the maps of the
    store canonical. *)
Theorem updateTLStore_monotone SI en s s' :
  mayYield cfg SI = false ->
  storeWf (bbStore s) ->
  updateTLStore cfg SI en s = Some s' ->
  storeWf (bbStore s') /\
  forall O x, knownSafe (bbStore s) O x = true -> knownSafe (bbStore s') O x = true.
Proof.
  unfold mayYield, updateTLStore. intros Hy Hwf H.
  assert (L : forall r, lift_store r s = Some s' ->
                (forall st', r = Some st' ->
                   storeWf st' /\
                   forall O x, knownSafe (bbStore s) O x = true -> knownSafe st' O x = true) ->
                storeWf (bbStore s') /\
                forall O x, knownSafe (bbStore s) O x = true ->
                            knownSafe (bbStore s') O x = true).
  { intros [st1|] Hr Hm; simpl in Hr; [|discriminate].
    injection Hr as <-. simpl. apply Hm. reflexivity. }
  destruct (kind SI) as [sz|vol simple ptr sz|ptr sz|args|args|F args rf hss| |].
  - apply (L _ H). intros st' E. eapply markGoodBytes_mono; eauto.
  - subst vol. cbn [andb] in H.
    apply (L _ H). intros st' E. eapply markGoodBytes_mono; eauto.
  - apply (L _ H). intros st' E. eapply markGoodBytes_mono; eauto.
  - destruct (constantInt _); [|injection H as <-; auto].
    apply (L _ H). intros st' E. eapply markGoodBytes_mono; eauto.
  - apply (L _ H). intros st' E. eapply walkCopyInst_mono; eauto.
  - destruct rf as [rs|].
    + apply (L _ H). intros st' E. eapply markGoodBytes_mono; eauto.
    + destruct (findSpecialFunction cfg F) as [[| |]|]; [| | |discriminate].
      * apply (L _ H). intros st' E. eapply markGoodBytes_mono; eauto.
      * destruct (walkCopyInst _ _ _ _ _) as [st1|] eqn:E1; [|discriminate].
        destruct (walkCopyInst_mono _ _ _ _ _ _ Hwf E1) as [W1 M1].
        apply (L _ H). intros st' E.
        destruct (markGoodBytes_mono _ _ _ _ _ _ W1 E) as [W2 M2]. split; auto.
      * injection H as <-. auto.
  - injection H as <-. auto.
  - injection H as <-. auto.
Qed.


Lemma checkRanges_mustcheck Ptr vals st :
  checkRanges Ptr vals st = TLS_MUSTCHECK <->
  exists first second val,
    In (first, second, val) vals /\ whollyUnknown val = false /\
    shouldCheckRead {| V := V Ptr; Offset := i64 (Offset Ptr + first) |}
      (u64 (second - first)) st = true.
Proof.
  induction vals as [|[[f s] v] r IH]; simpl.
  - split; [discriminate | intros (? & ? & ? & [] & _)].
  - destruct (whollyUnknown v) eqn:Ew.
    + rewrite IH. split.
      * intros (a & b & c & H1 & H2); exists a, b, c; tauto.
      * intros (a & b & c & [H1|H1] & H2 & H3); [congruence|exists a, b, c; tauto].
    + destruct (shouldCheckRead _ _ st) eqn:Er.
      * split; [|reflexivity]. intros _. exists f, s, v. auto.
      * rewrite IH. split.
        -- intros (a & b & c & H1 & H2); exists a, b, c; tauto.
        -- intros (a & b & c & [H1|H1] & H2 & H3); [congruence|exists a, b, c; tauto].
Qed.

(** X8. A copy must be checked exactly when its length is a non-zero
    constant, its source is a single pointer, and some range of values
    recorded for it during propagation that is not wholly unknown lies
    over bytes that [shouldCheckRead] wants checked; and it is classified
    no-check only when a non-empty list of values was recorded for it. *)
Theorem shouldCheckCopy_mustcheck SI PtrOp LenSV st :
  (shouldCheckCopy cfg SI PtrOp LenSV st = TLS_MUSTCHECK <->
   exists Len Ptr vals first second val,
     constantInt LenSV = Some Len /\ Len <> 0 /\
     uniqueIV PtrOp = Some (ValSetTypePB, Ptr) /\
     memcpyValues cfg !! instId SI = Some vals /\
     In (first, second, val) vals /\ whollyUnknown val = false /\
     shouldCheckRead {| V := V Ptr; Offset := i64 (Offset Ptr + first) |}
       (u64 (second - first)) st = true)
  /\ (shouldCheckCopy cfg SI PtrOp LenSV st = TLS_NOCHECK ->
      exists vals, memcpyValues cfg !! instId SI = Some vals /\ vals <> []).
Proof.
  unfold shouldCheckCopy. split.
  - split.
    + destruct (constantInt LenSV) as [Len|]; [|discriminate].
      destruct (uniqueIV PtrOp) as [[ty Ptr]|]; [|discriminate].
      destruct ty; cbn [negb isPB]; try discriminate.
      destruct (Z.eqb_spec Len 0); [discriminate|].
      destruct (memcpyValues cfg !! instId SI) as [[|r0 vals]|] eqn:Em; try discriminate.
      intros H. apply checkRanges_mustcheck in H as (f & s & v & H1 & H2 & H3).
      exists Len, Ptr, (r0 :: vals), f, s, v. auto 10.
    + intros (Len & Ptr & vals & f & s & v & H1 & H2 & H3 & H4 & H5 & H6 & H7).
      rewrite H1, H3, H4. cbn [negb isPB].
      destruct (Z.eqb_spec Len 0); [contradiction|].
      destruct vals as [|r0 vals']; [destruct H5|].
      apply checkRanges_mustcheck. exists f, s, v. auto.
  - destruct (constantInt LenSV) as [Len|]; [|discriminate].
    destruct (uniqueIV PtrOp) as [[ty Ptr]|]; [|discriminate].
    destruct ty; cbn [negb isPB]; try discriminate.
    destruct (Z.eqb_spec Len 0); [discriminate|].
    destruct (memcpyValues cfg !! instId SI) as [[|r0 vals]|] eqn:Em; try discriminate.
    intros _. eexists; split; [reflexivity | discriminate].
Qed.


Lemma TLS_min_must a : TLS_min a TLS_MUSTCHECK = TLS_MUSTCHECK.
Proof. destruct a; reflexivity. Qed.

Lemma checkValues_fold SI sz st vals : forall r,
  checkValues isNullOrConst SI vals sz st r
  = fold_left (fun acc v => TLS_min (shouldCheckLoadFrom isNullOrConst SI v sz st) acc)
      vals r.
Proof.
  induction vals as [|v rest IH]; simpl; intros r; [reflexivity|].
  destruct r; cbn [TLS_eqb TLS_rank Z.eqb]; try apply IH.
  clear IH. induction rest as [|w rest IH]; simpl; [destruct (shouldCheckLoadFrom _ _ _ _ _); reflexivity|].
  rewrite TLS_min_must in *. rewrite TLS_min_must. exact IH.
Qed.

Lemma fold_min_rank (f : ImprovedVal -> ThreadLocalState) vals : forall r,
  let m := fold_left (fun acc v => TLS_min (f v) acc) vals r in
  (m = r \/ exists v, In v vals /\ m = f v) /\
  TLS_rank m <= TLS_rank r /\
  forall v, In v vals -> TLS_rank m <= TLS_rank (f v).
Proof.
  induction vals as [|v rest IH]; simpl; intros r.
  - repeat split; [left; reflexivity | lia | intros ? []].
  - destruct (IH (TLS_min (f v) r)) as (H1 & H2 & H3).
    assert (Hm : TLS_rank (TLS_min (f v) r) <= TLS_rank r /\
                 TLS_rank (TLS_min (f v) r) <= TLS_rank (f v) /\
                 (TLS_min (f v) r = r \/ TLS_min (f v) r = f v)).
    { unfold TLS_min. destruct (Z.ltb_spec (TLS_rank r) (TLS_rank (f v))); repeat split; auto; lia. }
    destruct Hm as (M1 & M2 & M3).
    repeat split.
    + destruct H1 as [H1|(w & Hw & H1)].
      * destruct M3 as [M3|M3]; [left; congruence|right; exists v; split; [auto|congruence]].
      * right. exists w. auto.
    + lia.
    + intros w [<-|Hw]; [lia | auto].
Qed.


(** X10. A load of a known value through a single pointer to an
    allocation that is neither null nor constant is classified no-check
    exactly when every byte it reads is known-safe in the store, and
    must-check otherwise; it is never classified never-check. *)
Theorem shouldCheckLoad_single_pointer SI st isVol simple PtrOp LoadSize Ptr :
  programSingleThreaded cfg = false ->
  kind SI = KLoad isVol simple PtrOp LoadSize ->
  match PB SI with
  | Some (IVSingle v) => whollyUnknown v = false
  | Some (IVMulti _) => False
  | None => True
  end ->
  ivOrSingle PtrOp = inr (ValSetTypePB, Ptr) ->
  isNullOrConst (V Ptr) = false ->
  isNullPointer (V Ptr) = false -> isConstantGV (V Ptr) = false ->
  (forall M, getReadableStoreFor st (V Ptr) = Some M -> signedRange M) ->
  0 <= Offset Ptr -> 0 < LoadSize -> Offset Ptr + LoadSize < 2 ^ 63 ->
  (shouldCheckLoad cfg isNullOrConst SI st = TLS_NOCHECK <->
   forall x, Offset Ptr <= x < Offset Ptr + LoadSize ->
             knownSafe st (V Ptr) x = true)
  /\ (shouldCheckLoad cfg isNullOrConst SI st = TLS_NOCHECK \/
      shouldCheckLoad cfg isNullOrConst SI st = TLS_MUSTCHECK).
Proof.
  intros Hst Hk Hpb Hiv Hnc Hn Hc Hsr H0 Hsz Hlim.
  assert (E : shouldCheckLoad cfg isNullOrConst SI st
              = if shouldCheckRead Ptr LoadSize st then TLS_MUSTCHECK else TLS_NOCHECK).
  { unfold shouldCheckLoad. rewrite Hst, Hk, Hiv. cbn [isPB negb].
    unfold shouldCheckLoadFrom. rewrite Hnc.
    destruct (PB SI) as [[v|Map]|]; [rewrite Hpb; reflexivity | destruct Hpb | reflexivity]. }
  rewrite E. split.
  - destruct (shouldCheckRead Ptr LoadSize st) eqn:R.
    + split; [discriminate|]. intros H.
      rewrite (shouldCheckRead_safe Ptr LoadSize st) in R by auto. discriminate.
    + split; [|reflexivity]. intros _.
      apply (shouldCheckRead_sound Ptr LoadSize st); auto.
  - destruct (shouldCheckRead Ptr LoadSize st); auto.
Qed.

(** X12. In the first pass, a load or memory transfer that comes out of
    the analysis requiring a runtime check either has a check of its own
    attached (its [needsRuntimeCheck] is as-expected, or it is special and
    special checks are asked for), or has been classified must-check by
    [shouldCheckLoad] on the store of that moment, and then its context
    has been marked as reading tentative data.  In particular, with no
    check of its own attached ([RUNTIME_CHECK_NONE]) it is must-check and
    the flag is set. *)
Theorem checked_load_sets_reads_flag ia BB SI cdh s SI' s' b :
  is_LoadInst SI || is_MemTransferInst SI = true ->
  TLAnalyseInstruction cfg isNullOrConst SI cdh false s = Some (SI', s') ->
  requiresRuntimeCheck cfg ia BB SI' b = true ->
  (needsRuntimeCheck SI = RUNTIME_CHECK_AS_EXPECTED
   \/ (b = true /\ needsRuntimeCheck SI = RUNTIME_CHECK_SPECIAL)
   \/ (isThreadLocal SI' = TLS_MUSTCHECK /\
       shouldCheckLoad cfg isNullOrConst SI (bbStore s) = TLS_MUSTCHECK /\
       iaReadsTentativeData s' = true))
  /\ (needsRuntimeCheck SI = RUNTIME_CHECK_NONE ->
      isThreadLocal SI' = TLS_MUSTCHECK /\
      shouldCheckLoad cfg isNullOrConst SI (bbStore s) = TLS_MUSTCHECK /\
      iaReadsTentativeData s' = true).
Proof.
  intros Hl HA HR.
  assert (Hcopy : is_LoadInst SI || isCopyInst SI = true).
  { unfold isCopyInst. destruct (is_LoadInst SI); [reflexivity|].
    simpl in Hl. rewrite Hl. reflexivity. }
  unfold TLAnalyseInstruction in HA. rewrite Hcopy in HA. cbn [andb] in HA.
  assert (HM : RCT_eqb (needsRuntimeCheck SI) RUNTIME_CHECK_AS_EXPECTED = false ->
               b && RCT_eqb (needsRuntimeCheck SI) RUNTIME_CHECK_SPECIAL = false ->
               isThreadLocal SI' = TLS_MUSTCHECK /\
               shouldCheckLoad cfg isNullOrConst SI (bbStore s) = TLS_MUSTCHECK /\
               iaReadsTentativeData s' = true).
  { intros N1 N2.
    assert (HT : isThreadLocal SI' = TLS_MUSTCHECK).
    { unfold requiresRuntimeCheck, requiresRuntimeCheck2 in HR.
      destruct (omitChecks cfg); [discriminate|].
      destruct (typeIsVoid SI'); [discriminate|].
      destruct (PB SI'); [|discriminate].
      assert (Hk : kind SI' = kind SI /\ needsRuntimeCheck SI' = needsRuntimeCheck SI).
      { destruct (TLS_eqb (isThreadLocal SI) TLS_NEVERCHECK);
          [injection HA as <- <-; auto|].
        destruct (updateTLStore _ _ _ _); [|discriminate].
        injection HA as <- <-. auto. }
      destruct Hk as [Hk Hn'].
      rewrite Hn', N1, N2 in HR.
      unfold is_LoadInst, is_MemTransferInst in HR, Hl. rewrite Hk in HR.
      rewrite Hl in HR. apply TLS_eqb_eq. exact HR. }
    destruct (TLS_eqb (isThreadLocal SI) TLS_NEVERCHECK) eqn:EN.
    - injection HA as <- <-. apply TLS_eqb_eq in EN. congruence.
    - destruct (updateTLStore _ _ _ _) as [s''|] eqn:EU; [|discriminate].
      injection HA as <- <-. cbn [isThreadLocal with_isThreadLocal] in *.
      repeat split; auto.
      rewrite (updateTLStore_reads _ _ _ _ _ EU).
      rewrite HT. reflexivity. }
  split.
  - destruct (needsRuntimeCheck SI) eqn:Hn.
    + right; right. apply HM; [reflexivity | apply andb_false_r].
    + left. reflexivity.
    + destruct b.
      * right; left. split; reflexivity.
      * right; right. apply HM; reflexivity.
  - intros Hn. rewrite Hn in HM. apply HM; [reflexivity | apply andb_false_r].
Qed.

(** X13. A call to [realloc] is classified like a copy, and a must-check
    classification marks its context as reading tentative data; but
    [requiresRuntimeCheck2] consults the classification of loads and
    memory transfers only, so for such a call, which has no inlined
    callee and no other check attached, it answers that no runtime check
    is required. *)
Theorem realloc_check_not_reported ia BB SI F args hss cdh s SI' s' b :
  kind SI = KCall (Some F) args None hss ->
  String.eqb (fname F) "realloc" = true ->
  needsRuntimeCheck SI = RUNTIME_CHECK_NONE ->
  getInlineAttempt ia SI = None ->
  TLAnalyseInstruction cfg isNullOrConst SI cdh false s = Some (SI', s') ->
  isThreadLocal SI' = TLS_MUSTCHECK ->
  iaReadsTentativeData s' = true /\
  requiresRuntimeCheck2 ia BB SI' b = false.
Proof.
  intros Hk Hf Hn Hi HA HM.
  assert (Hcopy : is_LoadInst SI || isCopyInst SI = true).
  { unfold is_LoadInst, isCopyInst, is_MemTransferInst, is_CallInst, getCalledFunction.
    rewrite Hk, Hf. reflexivity. }
  unfold TLAnalyseInstruction in HA. rewrite Hcopy in HA. cbn [andb] in HA.
  destruct (TLS_eqb (isThreadLocal SI) TLS_NEVERCHECK) eqn:EN.
  - injection HA as <- <-. apply TLS_eqb_eq in EN. congruence.
  - destruct (updateTLStore _ _ _ _) as [s''|] eqn:EU; [|discriminate].
    injection HA as <- <-. cbn [isThreadLocal with_isThreadLocal] in HM.
    split.
    + rewrite (updateTLStore_reads _ _ _ _ _ EU).
      rewrite HM. reflexivity.
    + unfold requiresRuntimeCheck2, is_LoadInst, is_MemTransferInst, is_CallInst,
        is_PHINode, getInlineAttempt in *.
      cbn [typeIsVoid PB needsRuntimeCheck kind instId with_isThreadLocal].
      rewrite Hn, Hk, Hi. cbn [RCT_eqb andb orb]. rewrite andb_false_r.
      destruct (typeIsVoid SI); [reflexivity|]. destruct (PB SI); reflexivity.
Qed.

Lemma storeIsEmpty_unlisted st O :
  storeIsEmpty st -> getReadableStoreFor st O = None.
Proof.
  intros [Hh Hf]. destruct O as [|a c|f i|i|]; simpl; try reflexivity.
  - rewrite Hh. apply lookup_empty.
  - destruct (frames st !! f) as [fr|] eqn:E; [|reflexivity]. simpl.
    rewrite (Forall_lookup_1 _ _ _ _ Hf E). apply lookup_empty.
  - rewrite Hh. apply lookup_empty.
Qed.

Lemma shouldCheckRead_unclobbered Ptr sz st :
  allOthersClobbered st = false -> storeIsEmpty st ->
  shouldCheckRead Ptr sz st = false.
Proof.
  intros Hc He. unfold shouldCheckRead.
  rewrite (storeIsEmpty_unlisted st (V Ptr) He), Hc.
  destruct (isNullPointer (V Ptr)); [reflexivity|].
  destruct (isConstantGV (V Ptr)); reflexivity.
Qed.

Lemma checkRanges_unclobbered Ptr vals st :
  allOthersClobbered st = false -> storeIsEmpty st ->
  checkRanges Ptr vals st = TLS_NOCHECK.
Proof.
  intros Hc He. induction vals as [|[[f s] v] r IH]; simpl; [reflexivity|].
  rewrite (shouldCheckRead_unclobbered _ _ _ Hc He), IH.
  destruct (whollyUnknown v); reflexivity.
Qed.

Lemma shouldCheckLoadFrom_unclobbered SI Ptr sz st :
  allOthersClobbered st = false -> storeIsEmpty st ->
  shouldCheckLoadFrom isNullOrConst SI Ptr sz st <> TLS_MUSTCHECK.
Proof.
  intros Hc He. unfold shouldCheckLoadFrom.
  destruct (isNullOrConst (V Ptr)); [discriminate|].
  rewrite (shouldCheckRead_unclobbered _ _ _ Hc He).
  destruct (PB SI) as [[v|Map]|]; try discriminate.
  rewrite (checkRanges_unclobbered _ _ _ Hc He). discriminate.
Qed.

Lemma shouldCheckLoad_unclobbered SI st :
  allOthersClobbered st = false -> storeIsEmpty st ->
  shouldCheckLoad cfg isNullOrConst SI st <> TLS_MUSTCHECK.
Proof.
  intros Hc He. 
  assert (HC : forall P L, shouldCheckCopy cfg SI P L st <> TLS_MUSTCHECK).
  { intros P L. unfold shouldCheckCopy.
    destruct (constantInt L); [|discriminate].
    destruct (uniqueIV P) as [[ty Ptr]|]; [|discriminate].
    destruct (negb (isPB ty)); [discriminate|].
    destruct (_ =? 0); [discriminate|].
    destruct (memcpyValues cfg !! instId SI) as [[|r0 vals]|]; try discriminate.
    rewrite (checkRanges_unclobbered _ _ _ Hc He). discriminate. }
  unfold shouldCheckLoad.
  destruct (programSingleThreaded cfg); [discriminate|].
  destruct (kind SI); try apply HC.
  destruct (match PB SI with Some (IVSingle IVS) => whollyUnknown IVS | _ => false end);
    [discriminate|].
  destruct (ivOrSingle ptr) as [IVS|[ty Single]].
  - destruct (whollyUnknown IVS || negb (isPB (SetType IVS))); [discriminate|].
    rewrite checkValues_fold.
    destruct (fold_min_rank (fun v => shouldCheckLoadFrom isNullOrConst SI v typeStoreSize st)
                (Values IVS) TLS_NEVERCHECK) as (H1 & _).
    cbv zeta in H1. destruct H1 as [->|(v & _ & ->)]; [discriminate|].
    apply shouldCheckLoadFrom_unclobbered; auto.
  - destruct (negb (isPB ty)); [discriminate|].
    apply shouldCheckLoadFrom_unclobbered; auto.
Qed.

Lemma updateTLStore_unclobbered SI en s :
  isYieldPoint cfg SI = false ->
  allOthersClobbered (bbStore s) = false ->
  updateTLStore cfg SI en s = Some s.
Proof.
  unfold isYieldPoint, updateTLStore. intros Hy Hc.
  assert (M : forall p l o, markGoodBytes p l en (bbStore s) o = Some (bbStore s)).
  { intros. unfold markGoodBytes. rewrite Hc. destruct (negb en); reflexivity. }
  assert (W : forall x y l, walkCopyInst x y l en (bbStore s) = Some (bbStore s)).
  { intros. unfold walkCopyInst. destruct (constantInt l); [|reflexivity].
    rewrite M. apply M. }
  destruct (kind SI) as [sz|vol simple ptr sz|ptr sz|args|args|F args rf hss| |].
  - rewrite M. apply lift_store_same.
  - rewrite Hy, M. apply lift_store_same.
  - rewrite M. apply lift_store_same.
  - destruct (constantInt _); [rewrite M; apply lift_store_same | reflexivity].
  - rewrite W. apply lift_store_same.
  - destruct rf; [rewrite M; apply lift_store_same|].
    destruct (findSpecialFunction cfg F) as [[| |]|].
    + rewrite M. apply lift_store_same.
    + rewrite W, M. apply lift_store_same.
    + reflexivity.
    + destruct (_ || _); [|reflexivity]. cbn [andb] in Hy.
      apply negb_false_iff in Hy. rewrite Hy. reflexivity.
  - reflexivity.
  - reflexivity.
Qed.

(** X11. Before the first yield point nothing needs a check: starting
    from a store that lists nothing and in which nothing is clobbered,
    the first-pass analysis of any sequence of instructions none of which
    is a yield point succeeds, leaves the store and the context flags as
    they were and classifies no load or copy must-check.  The yield
    points are exactly the instructions at which [updateTLStore] forgets
    known-safe bytes: a volatile load that is not simple in a program
    with threads, and a call that reads no file, is no special function,
    may yield and is not a pessimistic lock; every other call and every
    other load is allowed in the sequence. *)
Theorem no_yield_no_checks insts cdh : forall s,
  allOthersClobbered (bbStore s) = false ->
  storeIsEmpty (bbStore s) ->
  Forall (fun SI => isYieldPoint cfg SI = false) insts ->
  (exists insts',
     analyseInsts cfg isNullOrConst insts cdh false s = Some (insts', s) /\
     Forall (fun SI' => is_LoadInst SI' || isCopyInst SI' = true ->
                        isThreadLocal SI' <> TLS_MUSTCHECK) insts')
  /\ (forall SI en s0, isYieldPoint cfg SI = true ->
        updateTLStore cfg SI en s0 = Some (afterYield cfg SI s0)).
Proof.
  intros s Hc He Hy. split; [|intros SI en s0; apply updateTLStore_at_yield].
  revert s Hc He Hy.
  induction insts as [|SI rest IH]; intros s Hc He Hy.
  - exists []. split; [reflexivity | constructor].
  - inversion Hy as [|? ? Hy1 Hy2]; subst.
    destruct (IH s Hc He Hy2) as (rest' & ER & FR).
    cbn [analyseInsts]. unfold TLAnalyseInstruction.
    destruct (TLS_eqb (isThreadLocal SI) TLS_NEVERCHECK) eqn:EN.
    + rewrite ER. eexists. split; [reflexivity|]. constructor; [|exact FR].
      intros _. apply TLS_eqb_eq in EN. congruence.
    + destruct (is_LoadInst SI || isCopyInst SI) eqn:EL; cbn [andb].
      * pose proof (shouldCheckLoad_unclobbered SI (bbStore s) Hc He) as HS.
        cbn [isThreadLocal with_isThreadLocal].
        assert (ET : TLS_eqb (shouldCheckLoad cfg isNullOrConst SI (bbStore s)) TLS_MUSTCHECK = false).
        { destruct (TLS_eqb _ TLS_MUSTCHECK) eqn:X; [|reflexivity].
          apply TLS_eqb_eq in X. contradiction. }
        rewrite ET.
        rewrite (updateTLStore_unclobbered _ _ s) by auto.
        rewrite ER. eexists. split; [reflexivity|]. constructor; [|exact FR].
        intros _. exact HS.
      * rewrite (updateTLStore_unclobbered _ _ s) by auto.
        rewrite ER. eexists. split; [reflexivity|]. constructor; [|exact FR].
        intros X. 
        assert (is_LoadInst SI || isCopyInst SI = true) by exact X. congruence.
Qed.

Lemma clearDomain_flag domain : forall st,
  allOthersClobbered (clearDomain domain st) = allOthersClobbered st.
Proof.
  induction domain as [|G rest IH]; simpl; intros st; [reflexivity|].
  rewrite IH. destruct G; reflexivity.
Qed.

Lemma clearDomain_other domain O : forall st,
  (forall G, In G domain -> storeSlot G <> storeSlot O) ->
  getReadableStoreFor (clearDomain domain st) O = getReadableStoreFor st O.
Proof.
  induction domain as [|G rest IH]; simpl; intros st H; [reflexivity|].
  rewrite IH by auto. apply getReadable_setStoreFor_other.
  intros E. apply (H G); auto.
Qed.

Lemma getReadable_setStoreFor_clear st O O' :
  isGV O = true -> getReadableStoreFor st O' = Some [] ->
  getReadableStoreFor
    (setStoreFor st O (IntervalMap.clear (getWritableTLStore st O))) O' = Some [].
Proof.
  intros HO H. destruct (decide (storeSlot O' = storeSlot O)) as [E|E].
  - destruct O as [|a c|f i|i|]; try discriminate.
    destruct O' as [|a' c'|f' i'|i'|]; try discriminate;
      simpl in *; injection E as <-; apply lookup_insert_eq.
  - rewrite getReadable_setStoreFor_other by exact E. exact H.
Qed.

Lemma clearDomain_keeps_empty domain O : forall st,
  Forall (fun G => isGV G = true) domain ->
  getReadableStoreFor st O = Some [] ->
  getReadableStoreFor (clearDomain domain st) O = Some [].
Proof.
  induction domain as [|G rest IH]; simpl; intros st HD H; [exact H|].
  inversion HD; subst. apply IH; [assumption|].
  apply getReadable_setStoreFor_clear; assumption.
Qed.

Lemma clearDomain_listed domain G : forall st,
  Forall (fun G => isGV G = true) domain ->
  In G domain ->
  getReadableStoreFor (clearDomain domain st) G = Some [].
Proof.
  induction domain as [|G0 rest IH]; simpl; intros st HD Hin; [destruct Hin|].
  inversion HD as [|? ? HG HR]; subst.
  destruct Hin as [->|Hin].
  - apply clearDomain_keeps_empty; [assumption|].
    destruct G as [|a c|f i|i|]; try discriminate. simpl. apply lookup_insert_eq.
  - apply IH; assumption.
Qed.

Lemma updateTLStore_lock_domain SI F args hss en s domain :
  kind SI = KCall F args None hss ->
  findSpecialFunction cfg F = None ->
  (F = None /\ programSingleThreaded cfg = false) \/ inYieldFunctions cfg F = true ->
  instId SI ∉ pessimisticLocks cfg ->
  lockDomains cfg !! instId SI = Some domain ->
  updateTLStore cfg SI en s = Some (with_tlStore (clearDomain domain (bbStore s)) s).
Proof.
  intros Hk Hsf Hy Hp Hd. unfold updateTLStore. rewrite Hk, Hsf.
  assert (Hc : (match F with None => true | Some _ => false end
                && negb (programSingleThreaded cfg)) || inYieldFunctions cfg F = true).
  { destruct Hy as [[-> ->] | ->]; [reflexivity | apply orb_true_r]. }
  rewrite Hc. rewrite bool_decide_eq_false_2 by exact Hp. rewrite Hd. reflexivity.
Qed.

(** X14. A yielding call that has a lock domain and is not a pessimistic
    lock forgets exactly its domain: afterwards no byte of a global of
    the domain is known-safe, the maps of all slots outside the domain
    are what they were, and neither the clobbered flag of the store nor
    the barrier and reads-tentative-data flags of the context change. *)
Theorem lock_domain_yield SI F args hss en s domain :
  kind SI = KCall F args None hss ->
  findSpecialFunction cfg F = None ->
  (F = None /\ programSingleThreaded cfg = false) \/ inYieldFunctions cfg F = true ->
  instId SI ∉ pessimisticLocks cfg ->
  lockDomains cfg !! instId SI = Some domain ->
  Forall (fun G => isGV G = true) domain ->
  exists s',
    updateTLStore cfg SI en s = Some s' /\
    (forall G x, In G domain -> knownSafe (bbStore s') G x = false) /\
    (forall O, (forall G, In G domain -> storeSlot G <> storeSlot O) ->
               getReadableStoreFor (bbStore s') O = getReadableStoreFor (bbStore s) O) /\
    allOthersClobbered (bbStore s') = allOthersClobbered (bbStore s) /\
    iaYieldState s' = iaYieldState s /\
    iaReadsTentativeData s' = iaReadsTentativeData s.
Proof.
  intros Hk Hsf Hy Hp Hd HD.
  eexists. split; [eapply updateTLStore_lock_domain; eauto|].
  cbn [with_tlStore bbStore iaYieldState iaReadsTentativeData].
  repeat split.
  - intros G x Hin. unfold knownSafe.
    rewrite (clearDomain_listed domain G (bbStore s) HD Hin). reflexivity.
  - intros O HO. apply clearDomain_other. exact HO.
  - apply clearDomain_flag.
Qed.

(** X15. After such a call in a store in which nothing is clobbered,
    the bytes of a global of the domain stay unsafe: [markGoodBytes]
    returns at once because the flag is clear, so a write through a
    pointer to the global changes nothing and every later read of the
    global is answered "check" by [shouldCheckRead]. *)
Theorem lock_domain_store_not_remarked SI F args hss en s domain G GoodPtr Len off P o sz :
  kind SI = KCall F args None hss ->
  findSpecialFunction cfg F = None ->
  (F = None /\ programSingleThreaded cfg = false) \/ inYieldFunctions cfg F = true ->
  instId SI ∉ pessimisticLocks cfg ->
  lockDomains cfg !! instId SI = Some domain ->
  Forall (fun G => isGV G = true) domain ->
  In G domain -> isConstantGV G = false ->
  allOthersClobbered (bbStore s) = false ->
  uniqueIV GoodPtr = Some (ValSetTypePB, P) -> V P = G ->
  exists s',
    updateTLStore cfg SI en s = Some s' /\
    markGoodBytes GoodPtr Len true (bbStore s') off = Some (bbStore s') /\
    shouldCheckRead {| V := G; Offset := o |} sz (bbStore s') = true.
Proof.
  intros Hk Hsf Hy Hp Hd HD Hin Hc Hf Hu HV.
  eexists. split; [eapply updateTLStore_lock_domain; eauto|].
  cbn [with_tlStore bbStore]. split.
  - apply markGoodBytes_unclobbered. rewrite clearDomain_flag. exact Hf.
  - unfold shouldCheckRead. cbn [V Offset]. rewrite Hc.
    destruct G as [|a c|f i|i|]; try (rewrite List.Forall_forall in HD; specialize (HD _ Hin); discriminate).
    cbn [isNullPointer].
    rewrite (clearDomain_listed domain _ (bbStore s) HD Hin). reflexivity.
Qed.

End CheckFacts.

(** ** The progress counter *)

Section Progress.

Lemma TLProgress_step g :
  0 <= TLProgressN g < TLProgressLimit ->
  0 <= TLProgressN (TLProgress g) < TLProgressLimit /\
  TLProgressN (TLProgress g) + TLProgressLimit * Z.of_nat (errsDots (TLProgress g))
  = TLProgressN g + TLProgressLimit * Z.of_nat (errsDots g) + 1.
Proof.
  unfold TLProgress, TLProgressLimit. intros H.
  destruct (Z.eqb_spec (TLProgressN g + 1) 1000); simpl; lia.
Qed.

(** X16. The progress counter stays below its limit and one dot is
    printed for every thousand calls: after [n] calls the counter is the
    old count plus [n] modulo 1000, and the number of dots has grown by
    the quotient. *)
Theorem TLProgress_dots n : forall g,
  0 <= TLProgressN g < TLProgressLimit ->
  let g' := Nat.iter n TLProgress g in
  TLProgressN g' = (TLProgressN g + Z.of_nat n) mod TLProgressLimit /\
  Z.of_nat (errsDots g')
  = Z.of_nat (errsDots g) + (TLProgressN g + Z.of_nat n) / TLProgressLimit.
Proof.
  induction n as [|n IH]; intros g H; cbv zeta.
  - simpl. rewrite Z.add_0_r. unfold TLProgressLimit in *.
    rewrite Z.mod_small, Z.div_small by lia. lia.
  - cbn [Nat.iter]. specialize (IH g H). cbv zeta in IH. destruct IH as [IH1 IH2].
    set (g1 := Nat.iter n TLProgress g) in *.
    assert (Hb : 0 <= TLProgressN g1 < TLProgressLimit).
    { rewrite IH1. apply Z.mod_pos_bound. reflexivity. }
    destruct (TLProgress_step g1 Hb) as [S1 S2].
    unfold TLProgressLimit in *.
    assert (Hn : TLProgressN g + Z.of_nat (S n) = TLProgressN g + Z.of_nat n + 1) by lia.
    rewrite Hn.
    pose proof (Z.div_mod (TLProgressN g + Z.of_nat n) 1000 ltac:(lia)) as D1.
    pose proof (Z.div_mod (TLProgressN g + Z.of_nat n + 1) 1000 ltac:(lia)) as D2.
    pose proof (Z.mod_pos_bound (TLProgressN g + Z.of_nat n + 1) 1000 ltac:(lia)) as B2.
    change (Nat.iter (S n) TLProgress g) with (TLProgress g1). lia.
Qed.

End Progress.

(** ** Resetting and walking a context *)

Section ResetFacts.

Lemma IntegrationAttempt_nested_ind (P : IntegrationAttempt -> Prop) :
  (forall ia,
     Forall (fun kc => P (snd kc)) (inlineChildren ia) ->
     Forall (fun kp => Forall P (Iterations (snd kp))) (peelChildren ia) ->
     P ia) ->
  forall ia, P ia.
Proof.
  intros H. fix IH 1. intros ia. apply H.
  - destruct ia as [? ? ? ? ic pc ? ? ? ? ? ? ?]. cbn [inlineChildren].
    clear pc. revert ic. fix IHl 1. intros [|[k c] r]; constructor; [apply IH | apply IHl].
  - destruct ia as [? ? ? ? ic pc ? ? ? ? ? ? ?]. cbn [peelChildren].
    clear ic. revert pc. fix IHl 1. intros [|[k [its term en]] r]; constructor; [|apply IHl].
    cbn [snd Iterations]. clear IHl r.
    revert its. fix IHi 1. intros [|it its]; constructor; [apply IH | apply IHi].
Qed.

(** X17. [resetTentativeLoads] is idempotent: resetting a context tree
    that has just been reset changes nothing. *)
Theorem resetTentativeLoads_idempotent ia :
  resetTentativeLoads (resetTentativeLoads ia) = resetTentativeLoads ia.
Proof.
  induction ia as [ia Hic Hpc] using IntegrationAttempt_nested_ind.
  destruct ia as [tl inv off bbs ic pc run rd ys en root callers bk].
  cbn [inlineChildren peelChildren] in Hic, Hpc.
  cbn [resetTentativeLoads thisL invarInfo BBsOffset BBs inlineChildren peelChildren
       readsTentativeData yieldState isEnabled isRootMainCall hasCallers backupTlStore].
  f_equal.
  - rewrite map_map. apply map_ext_in. intros [k c] Hin. cbn [fst snd]. f_equal.
    rewrite List.Forall_forall in Hic. apply (Hic _ Hin).
  - rewrite map_map. apply map_ext_in. intros [k [its term en']] Hin. cbn [fst snd].
    f_equal. rewrite List.Forall_forall in Hpc. specialize (Hpc _ Hin).
    cbn [snd Iterations] in Hpc.
    destruct term; [|reflexivity]. f_equal.
    rewrite map_map. apply map_ext_in. intros it Hit.
    rewrite List.Forall_forall in Hpc. apply (Hpc _ Hit).
Qed.

End ResetFacts.

Section WalkInvariant.

Variable cfg : Config.
Variable isNullOrConst : ShadowValue -> bool.
Variable doTLStoreMerge : IntegrationAttempt -> nat -> option TLLocalStore.
Variable doTLCallMerge : IntegrationAttempt -> IntegrationAttempt -> option TLLocalStore.
Variable TLWalkPathConditions :
  IntegrationAttempt -> nat -> bool -> bool -> TLLocalStore -> Result TLLocalStore.
Variable edgeIsDead : IntegrationAttempt -> nat -> nat -> bool.

Lemma sameBlock_refl BB : sameBlock BB BB.
Proof. unfold sameBlock. tauto. Qed.

Lemma sameBlock_trans A B C : sameBlock A B -> sameBlock B C -> sameBlock A C.
Proof. unfold sameBlock. intros (A1 & A2 & A3) (B1 & B2 & B3). repeat split; congruence. Qed.

Lemma sameBlock_sym A B : sameBlock A B -> sameBlock B A.
Proof. unfold sameBlock. intros (A1 & A2 & A3). repeat split; congruence. Qed.

Lemma sameBlocks_refl l : Forall2 (option_Forall2 sameBlock) l l.
Proof.
  induction l as [|[BB|] r IH]; constructor; auto; constructor. apply sameBlock_refl.
Qed.

Lemma sameBlocks_trans l1 : forall l2 l3,
  Forall2 (option_Forall2 sameBlock) l1 l2 ->
  Forall2 (option_Forall2 sameBlock) l2 l3 ->
  Forall2 (option_Forall2 sameBlock) l1 l3.
Proof.
  induction l1 as [|x r IH]; intros l2 l3 H1 H2.
  - inversion H1; subst. inversion H2; subst. constructor.
  - inversion H1 as [|? y ? r2 Hxy Hr]; subst.
    inversion H2 as [|? z ? r3 Hyz Hr']; subst.
    constructor; [|eapply IH; eauto].
    destruct Hxy as [BB1 BB2 Hb|]; inversion Hyz; subst; constructor.
    eapply sameBlock_trans; eauto.
Qed.

Lemma sameContext_refl ia : sameContext ia ia.
Proof. unfold sameContext. pose proof (sameBlocks_refl (BBs ia)). tauto. Qed.

Lemma sameContext_trans a b c :
  sameContext a b -> sameContext b c -> sameContext a c.
Proof.
  unfold sameContext. intros H1 H2.
  destruct H1 as (A1 & A2 & A3 & A4 & A5 & A6 & A7 & A8 & A9 & A10 & A11 & A12 & A13).
  destruct H2 as (B1 & B2 & B3 & B4 & B5 & B6 & B7 & B8 & B9 & B10 & B11 & B12 & B13).
  pose proof (sameBlocks_trans _ _ _ A4 B4).
  repeat split; try congruence; auto.
Qed.

Lemma sameContext_set_BBs ia l :
  Forall2 (option_Forall2 sameBlock) (BBs ia) l -> sameContext ia (set_BBs l ia).
Proof. intros H. unfold sameContext. simpl. tauto. Qed.

Lemma getBB_lookup ia i BB :
  getBB ia i = Some BB ->
  (BBsOffset ia <= i)%nat /\ BBs ia !! (i - BBsOffset ia)%nat = Some (Some BB).
Proof.
  unfold getBB. destruct (Nat.ltb_spec i (BBsOffset ia)); [discriminate|].
  destruct (BBs ia !! (i - BBsOffset ia)%nat) as [[B|]|]; try discriminate.
  intros [= <-]. auto.
Qed.

(** Replacing, in a context related to [ia], the block that [ia] has at
    [i] by a block that differs from it in store and flags only. *)
Lemma sameContext_setBB ia ia1 i BB BB' :
  sameContext ia ia1 -> getBB ia i = Some BB -> sameBlock BB BB' ->
  sameContext ia (setBB ia1 i BB').
Proof.
  intros H1 HB Hs. apply getBB_lookup in HB as [_ HB].
  eapply sameContext_trans; [exact H1|].
  unfold setBB. apply sameContext_set_BBs.
  destruct H1 as (_ & _ & Hoff & HF & _). rewrite Hoff.
  destruct (Forall2_lookup_l _ _ _ _ _ HF HB) as (y & Hy & Hxy).
  inversion Hxy as [? BB1 Hb|]; subst.
  rewrite <- (list_insert_id (BBs ia1) (i - BBsOffset ia)%nat (Some BB1)) at 1
    by exact Hy.
  apply Forall2_insert; [apply sameBlocks_refl|].
  constructor. eapply sameBlock_trans; [apply sameBlock_sym; exact Hb | exact Hs].
Qed.

Lemma sameContext_setEntryStore ia st ia' :
  setEntryStore ia st = Ok ia' -> sameContext ia ia'.
Proof.
  unfold setEntryStore. destruct (BBs ia) as [|[BB|] rest] eqn:E; try discriminate.
  intros H. injection H as <-. apply sameContext_set_BBs. rewrite E.
  constructor; [|apply sameBlocks_refl]. constructor. unfold sameBlock. simpl. tauto.
Qed.

Lemma sameContext_setBBStore ia i st ia' :
  setBBStore ia i st = Ok ia' -> sameContext ia ia'.
Proof.
  unfold setBBStore. destruct (getBB ia i) as [BB|] eqn:E; [|discriminate].
  intros H. injection H as <-.
  eapply sameContext_setBB; [apply sameContext_refl | exact E|].
  unfold sameBlock. simpl. tauto.
Qed.

Lemma map_fst_updateInst {A} i (a : A) m : map fst (updateInst i a m) = map fst m.
Proof.
  induction m as [|[k b] r IH]; simpl; [reflexivity|].
  destruct (N.eqb k i); simpl; congruence.
Qed.

Lemma map_fst_updateLoop {A} l (a : A) m : map fst (updateLoop l a m) = map fst m.
Proof.
  induction m as [|[k b] r IH]; simpl; [reflexivity|].
  destruct (Loop_eqb k l); simpl; congruence.
Qed.

Lemma updateTLStore_yield SI en s s' :
  updateTLStore cfg SI en s = Some s' ->
  iaYieldState s = BARRIER_HERE -> iaYieldState s' = BARRIER_HERE.
Proof.
  unfold updateTLStore. intros H Hy.
  repeat match type of H with
    | lift_store ?r _ = Some _ => destruct r; simpl in H; inversion H; subst; exact Hy
    | Some _ = Some _ => inversion H; subst; solve [exact Hy | reflexivity]
    | None = Some _ => discriminate H
    | context [match ?x with _ => _ end] => destruct x eqn:?
    | context [if ?x then _ else _] => destruct x eqn:?
    end.
Qed.

Lemma TLAnalyseInstruction_sticky SI cdh sp s SI' s' :
  TLAnalyseInstruction cfg isNullOrConst SI cdh sp s = Some (SI', s') ->
  (iaReadsTentativeData s = true -> iaReadsTentativeData s' = true) /\
  (iaYieldState s = BARRIER_HERE -> iaYieldState s' = BARRIER_HERE).
Proof.
  unfold TLAnalyseInstruction. intros H.
  destruct (TLS_eqb (isThreadLocal SI) TLS_NEVERCHECK);
    [injection H as <- <-; tauto|].
  destruct (is_LoadInst SI || isCopyInst SI).
  - destruct (sp && TLS_eqb (isThreadLocal SI) TLS_MUSTCHECK);
      [injection H as <- <-; tauto|].
    destruct (updateTLStore _ _ _ _) as [s''|] eqn:E; [|discriminate].
    injection H as <- <-.
    pose proof (updateTLStore_reads _ _ _ _ _ E) as R.
    pose proof (updateTLStore_yield _ _ _ _ E) as Y.
    destruct (TLS_eqb _ TLS_MUSTCHECK); simpl in R, Y; split; auto; congruence.
  - destruct (updateTLStore _ _ _ _) as [s''|] eqn:E; [|discriminate].
    injection H as <- <-.
    pose proof (updateTLStore_reads _ _ _ _ _ E) as R.
    pose proof (updateTLStore_yield _ _ _ _ E) as Y.
    split; auto; congruence.
Qed.

Lemma TLAnalyseInstruction_static SI cdh sp s SI' s' :
  TLAnalyseInstruction cfg isNullOrConst SI cdh sp s = Some (SI', s') ->
  staticPart SI' = staticPart SI.
Proof.
  unfold TLAnalyseInstruction. intros H.
  destruct (TLS_eqb (isThreadLocal SI) TLS_NEVERCHECK);
    [injection H as <- <-; reflexivity|].
  destruct (is_LoadInst SI || isCopyInst SI).
  - destruct (sp && TLS_eqb (isThreadLocal SI) TLS_MUSTCHECK);
      [injection H as <- <-; reflexivity|].
    destruct (updateTLStore _ _ _ _); [|discriminate].
    injection H as <- <-. reflexivity.
  - destruct (updateTLStore _ _ _ _); [|discriminate].
    injection H as <- <-. reflexivity.
Qed.

Lemma sameContext_set_flags ia y r :
  (readsTentativeData ia = true -> r = true) ->
  (yieldState ia = BARRIER_HERE -> y = BARRIER_HERE) ->
  sameContext ia (set_flags y r ia).
Proof.
  intros H1 H2. unfold sameContext. simpl.
  pose proof (sameBlocks_refl (BBs ia)). tauto.
Qed.

Lemma sameContext_set_inlineChildren ia i IA :
  sameContext ia (set_inlineChildren (updateInst i IA (inlineChildren ia)) ia).
Proof.
  unfold sameContext. simpl. rewrite map_fst_updateInst.
  pose proof (sameBlocks_refl (BBs ia)). tauto.
Qed.

Lemma sameContext_set_peelChildren ia l pa :
  sameContext ia (set_peelChildren (updateLoop l pa (peelChildren ia)) ia).
Proof.
  unfold sameContext. simpl. rewrite map_fst_updateLoop.
  pose proof (sameBlocks_refl (BBs ia)). tauto.
Qed.

Ltac bindOk H :=
  match type of H with
  | @mbind _ _ _ _ ?f ?r = ?rhs =>
      let E := fresh "E" in
      change (bindR r f = rhs) in H;
      destruct r eqn:E; cbn [bindR] in H; [|discriminate H|discriminate H]
  | bindR ?r _ = Ok _ =>
      let E := fresh "E" in
      destruct r eqn:E; cbn [bindR] in H; [|discriminate H|discriminate H]
  end.

Section Body.

Variable walk : WalkFn.
Hypothesis walk_same : forall g ia l c sp l2h g' ia',
  walk g ia l c sp l2h = Ok (g', ia') -> sameContext ia ia'.

Lemma walkInsts_same todo : forall g ia BBst done cdh sp g' ia' st' insts' broke,
  walkInsts cfg isNullOrConst doTLCallMerge walk g ia BBst done todo cdh sp
    = Ok (g', ia', st', insts', broke) ->
  sameContext ia ia' /\
  map staticPart insts' = map staticPart (done ++ todo).
Proof.
  induction todo as [|SI rest IH]; intros g ia BBst done cdh sp g' ia' st' insts' broke H.
  - simpl in H. injection H as <- <- <- <- <-.
    split; [apply sameContext_refl | rewrite app_nil_r; reflexivity].
  - cbn [walkInsts] in H.
    bindOk H. bindOk H. destruct a0 as [SI' s'].
    destruct (TLAnalyseInstruction _ _ _ _ _ _) as [[SI0 s0]|] eqn:ET; [|discriminate].
    simpl in E0. injection E0 as -> ->.
    pose proof (TLAnalyseInstruction_static _ _ _ _ _ _ ET) as HS.
    apply TLAnalyseInstruction_sticky in ET as [R Y]. simpl in R, Y.
    pose proof (sameContext_set_flags ia (iaYieldState s') (iaReadsTentativeData s') R Y) as S1.
    assert (HD : map staticPart ((done ++ [SI']) ++ rest)
                 = map staticPart (done ++ SI :: rest)).
    { rewrite <- app_assoc. simpl. rewrite !map_app. simpl. rewrite HS. reflexivity. }
    cbv zeta in H.
    destruct (is_CallInst SI').
    + destruct (getInlineAttempt _ SI') as [IA|].
      * bindOk H. bindOk H. destruct a1 as [g1 IA2].
        pose proof (sameContext_set_inlineChildren
                      (set_flags (iaYieldState s') (iaReadsTentativeData s') ia)
                      (instId SI') IA2) as S2.
        destruct (doTLCallMerge _ IA2).
        -- apply IH in H as [H1 H2]. split; [|congruence].
           eapply sameContext_trans; [exact S1|].
           eapply sameContext_trans; [exact S2 | exact H1].
        -- injection H as <- <- <- <- <-. split; [|exact HD].
           eapply sameContext_trans; [exact S1 | exact S2].
      * apply IH in H as [H1 H2]. split; [|congruence].
        eapply sameContext_trans; eauto.
    + apply IH in H as [H1 H2]. split; [|congruence].
      eapply sameContext_trans; eauto.
Qed.

Lemma findTentativeLoadsInUnboundedLoop_same g ia UL cdh sp g' ia' :
  findTentativeLoadsInUnboundedLoop edgeIsDead walk g ia UL cdh sp = Ok (g', ia') ->
  sameContext ia ia'.
Proof.
  unfold findTentativeLoadsInUnboundedLoop. intros H.
  bindOk H. bindOk H. bindOk H.
  apply sameContext_setBBStore in E1.
  eapply sameContext_trans; [exact E1|].
  destruct (negb (edgeIsDead _ _ _)).
  - destruct (negb sp).
    + bindOk H. destruct a2 as [g2 ia2]. bindOk H. bindOk H.
      apply walk_same in E2. apply sameContext_setBBStore in E4. apply walk_same in H.
      eauto using sameContext_trans.
    + apply walk_same in H. exact H.
  - apply walk_same in H. exact H.
Qed.

Lemma walkChildLoop_same g ia scope cdh sp g' ia' :
  walkChildLoop edgeIsDead walk g ia scope cdh sp = Ok (g', ia') ->
  sameContext ia ia'.
Proof.
  unfold walkChildLoop. intros H. bindOk H.
  destruct (getPeelAttempt ia scope) as [[its [|] en]|].
  - bindOk H. destruct its as [|it its']; [discriminate|].
    bindOk H. destruct a1 as [g1 its1]. injection H as <- <-.
    apply sameContext_set_peelChildren.
  - eapply findTentativeLoadsInUnboundedLoop_same; eauto.
  - eapply findTentativeLoadsInUnboundedLoop_same; eauto.
Qed.

Lemma walkBlock_same g ia l LI startIdx i BB cdh sp l2h g' ia' :
  getBB ia i = Some BB ->
  walkBlock cfg isNullOrConst doTLStoreMerge doTLCallMerge TLWalkPathConditions
    walk g ia l LI startIdx i BB cdh sp l2h = Ok (g', ia') ->
  sameContext ia ia'.
Proof.
  unfold walkBlock. intros HB H. cbv zeta in H. bindOk H. bindOk H. bindOk H.
  destruct a1 as [[[[g1 ia1] st3] insts'] broke].
  apply walkInsts_same in E1 as [E1 HS]. simpl in HS.
  destruct st3 as [st|].
  - bindOk H. injection H as <- <-.
    eapply sameContext_setBB; [exact E1 | exact HB|].
    unfold sameBlock. simpl. auto.
  - destruct broke; [|discriminate]. injection H as <- <-.
    eapply sameContext_setBB; [exact E1 | exact HB|].
    unfold sameBlock. simpl. auto.
Qed.

Lemma walkBlocks_same n : forall g ia l LI startIdx i cdh sp l2h g' ia',
  walkBlocks cfg isNullOrConst doTLStoreMerge doTLCallMerge TLWalkPathConditions
    edgeIsDead walk n g ia l LI startIdx i cdh sp l2h = Ok (g', ia') ->
  sameContext ia ia'.
Proof.
  induction n as [|n IH]; intros g ia l LI startIdx i cdh sp l2h g' ia' H.
  - simpl in H. injection H as <- <-. apply sameContext_refl.
  - cbn [walkBlocks] in H. cbv zeta in H.
    destruct (i =? _)%nat; [injection H as <- <-; apply sameContext_refl|].
    bindOk H.
    destruct (match l with None => true | Some l' => contains l' (naturalScope a) end);
      [|injection H as <- <-; apply sameContext_refl].
    destruct (getBB ia i) as [BB|] eqn:EB.
    + destruct (negb (scope_eqb _ l)).
      * bindOk H. bindOk H. destruct a1 as [g1 ia1].
        apply walkChildLoop_same in E1. apply IH in H.
        eapply sameContext_trans; eauto.
      * bindOk H. destruct a0 as [g1 ia1].
        apply (walkBlock_same _ _ _ _ _ _ _ _ _ _ _ _ EB) in E0. apply IH in H.
        eapply sameContext_trans; eauto.
    + apply IH in H. exact H.
Qed.

Lemma findTentativeLoadsInLoop_body_same g ia l cdh sp l2h g' ia' :
  findTentativeLoadsInLoop_body cfg isNullOrConst doTLStoreMerge doTLCallMerge
    TLWalkPathConditions edgeIsDead walk g ia l cdh sp l2h = Ok (g', ia') ->
  sameContext ia ia'.
Proof.
  unfold findTentativeLoadsInLoop_body. intros H.
  destruct (tentativeLoadsRun ia); [injection H as <- <-; apply sameContext_refl|].
  cbv zeta in H. bindOk H.
  apply walkBlocks_same in H. exact H.
Qed.

End Body.

(** X18. A walk that returns changes nothing in its context but stores
    and classifications: the scope, the invariant model and the block
    range are unchanged; the same blocks exist, each with its descriptor,
    its edge liveness and its instructions, of which only the
    thread-locality state may differ; the keys of the inlined and peeled
    children, the enabled, root and caller fields and the backup store
    are unchanged; the run flag is never set by the walk; and the
    reads-tentative-data flag and the yield barrier, once raised, are
    never lowered. *)
Theorem findTentativeLoadsInLoop_keeps_context fuel : forall g ia l cdh sp l2h g' ia',
  findTentativeLoadsInLoop cfg isNullOrConst doTLStoreMerge doTLCallMerge
    TLWalkPathConditions edgeIsDead fuel g ia l cdh sp l2h = Ok (g', ia') ->
  sameContext ia ia'.
Proof.
  induction fuel as [|fuel IH]; intros g ia l cdh sp l2h g' ia' H; [discriminate|].
  cbn [findTentativeLoadsInLoop] in H.
  eapply findTentativeLoadsInLoop_body_same; eauto.
Qed.

End WalkInvariant.

(** ** The shadow model: committed blocks, globals, blocks *)

Section ShadowsFacts.

Lemma getCommittedBreakBlockAt_above cbs idx :
  Forall (fun B => (idx < startIndex B)%nat) cbs ->
  getCommittedBreakBlockAt cbs idx = None.
Proof.
  induction 1 as [|B r HB Hr IH]; simpl; [reflexivity|].
  destruct (Nat.leb_spec (startIndex B) idx); [lia|]. exact IH.
Qed.

Lemma filter_above cbs idx :
  Forall (fun B => (idx < startIndex B)%nat) cbs ->
  List.filter (fun B => (startIndex B <=? idx)%nat) cbs = [].
Proof.
  induction 1 as [|B r HB Hr IH]; simpl; [reflexivity|].
  destruct (Nat.leb_spec (startIndex B) idx); [lia|]. exact IH.
Qed.

(** X19. When the committed blocks are ordered by their start index,
    [getCommittedBreakBlockAt] returns the break block of the last
    committed block that starts at or before the index, and null when
    there is none (no committed block, or the index lies before the
    first); it never aborts. *)
Theorem getCommittedBreakBlockAt_sorted cbs idx :
  StronglySorted (fun A B => (startIndex A <= startIndex B)%nat) cbs ->
  getCommittedBreakBlockAt cbs idx
  = breakBlock <$> last (List.filter (fun B => (startIndex B <=? idx)%nat) cbs).
Proof.
  induction 1 as [|B r Hs IH Hall]; [reflexivity|].
  cbn [getCommittedBreakBlockAt List.filter].
  destruct (Nat.leb_spec (startIndex B) idx) as [L|L]; cbn [andb].
  - destruct r as [|next r'].
    + reflexivity.
    + destruct (Nat.ltb_spec idx (startIndex next)) as [L'|L'].
      * rewrite filter_above; [reflexivity|].
        inversion Hs as [|? ? Hs' Hn]; subst.
        constructor; [exact L'|].
        eapply Forall_impl; [exact Hn|]. simpl. intros; lia.
      * rewrite IH. cbn [List.filter].
        destruct (Nat.leb_spec (startIndex next) idx); [|lia].
        rewrite last_cons_cons. reflexivity.
  - rewrite getCommittedBreakBlockAt_above, filter_above; try reflexivity;
      (eapply Forall_impl; [exact Hall|]; simpl; intros; lia).
Qed.

Lemma GlobalValue_nested_ind (P : GlobalValue -> Prop) :
  (forall id, P (GlobalVariable id)) ->
  (forall id, P (GlobalFunction id)) ->
  P (GlobalAlias None) ->
  (forall A, P A -> P (GlobalAlias (Some A))) ->
  forall V, P V.
Proof.
  intros H1 H2 H3 H4. fix IH 1.
  intros [id|id|[A|]]; [apply H1 | apply H2 | apply H4; apply IH | apply H3].
Qed.

(** X20. When [getUnderlyingGlobal] returns a global, that global is
    not an alias and is its own underlying global. *)
Theorem getUnderlyingGlobal_resolves V U :
  getUnderlyingGlobal V = Some U ->
  (forall GA, U <> GlobalAlias GA) /\ getUnderlyingGlobal U = Some U.
Proof.
  induction V as [id|id| |A IH] using GlobalValue_nested_ind; simpl; intros H.
  - injection H as <-. split; [discriminate | reflexivity].
  - injection H as <-. split; [discriminate | reflexivity].
  - discriminate.
  - apply IH. exact H.
Qed.

Lemma numberGlobals_spec globals : forall i shadow idxs,
  (i + length globals <= length shadow)%nat ->
  NoDup (map gvId globals) ->
  exists shadow' idxs',
    numberGlobals i globals shadow idxs = Some (shadow', idxs') /\
    length shadow' = length shadow /\
    (forall j, (j < i \/ i + length globals <= j)%nat -> shadow' !! j = shadow !! j) /\
    (forall k g, globals !! k = Some g ->
       idxs' !! gvId g = Some (i + k)%nat /\
       exists sg, shadow !! (i + k)%nat = Some sg /\
         shadow' !! (i + k)%nat
         = Some {| ShadowGV.G := Some (gvId g);
                   ShadowGV.storeSize := ShadowGV.storeSize sg;
                   ShadowGV.allocIdx := ShadowGV.allocIdx sg |}) /\
    (forall key, key ∉ map gvId globals -> idxs' !! key = idxs !! key).
Proof.
  induction globals as [|it rest IH]; intros i shadow idxs Hlen Hnd.
  - exists shadow, idxs. simpl.
    split; [reflexivity|]. split; [reflexivity|]. split; [auto|].
    split; [intros k g Hk; discriminate | auto].
  - cbn [numberGlobals]. simpl in Hlen.
    destruct (lookup_lt_is_Some_2 shadow i ltac:(lia)) as [sg Hsg]. rewrite Hsg.
    simpl in Hnd. apply NoDup_cons in Hnd as [Hnotin Hnd].
    set (sg1 := {| ShadowGV.G := Some (gvId it);
                   ShadowGV.storeSize := ShadowGV.storeSize sg;
                   ShadowGV.allocIdx := ShadowGV.allocIdx sg |}).
    destruct (IH (S i) (<[i := sg1]> shadow) (<[gvId it := i]> idxs))
      as (shadow' & idxs' & E & L & Hout & Hin & Hkeys);
      [rewrite length_insert; lia | exact Hnd |].
    exists shadow', idxs'. split; [exact E|].
    rewrite length_insert in L. split; [exact L|]. split; [|split].
    + intros j Hj. simpl in Hj. rewrite Hout by lia.
      apply list_lookup_insert_ne. lia.
    + intros [|k] g Hk.
      * simpl in Hk. injection Hk as <-. rewrite Nat.add_0_r. split.
        -- rewrite Hkeys by exact Hnotin. apply lookup_insert_eq.
        -- exists sg. split; [exact Hsg|].
           rewrite Hout by lia. apply list_lookup_insert_eq. 
           apply lookup_lt_Some in Hsg. exact Hsg.
      * simpl in Hk. destruct (Hin k g Hk) as [H1 (sg' & H2 & H3)].
        replace (i + S k)%nat with (S i + k)%nat by lia.
        split; [exact H1|]. exists sg'. split; [|exact H3].
        rewrite list_lookup_insert_ne in H2 by lia. exact H2.
    + intros key Hkey. rewrite Hkeys.
      * apply lookup_insert_ne. intros Heq. apply Hkey. simpl.
        apply elem_of_cons. left. symmetry. exact Heq.
      * intros Hx. apply Hkey. simpl. apply elem_of_cons. right. exact Hx.
Qed.

Lemma i32_small z : - 2 ^ 31 <= z < 2 ^ 31 -> i32 z = z.
Proof. intros H. unfold i32. rewrite Z.mod_small; lia. Qed.

Lemma u32_small z : 0 <= z < 2 ^ 32 -> u32 z = z.
Proof. intros H. unfold u32. apply Z.mod_small. exact H. Qed.

Lemma sizeGlobals_spec globals : forall i shadow heap,
  (forall k g, globals !! k = Some g ->
     exists sg, shadow !! (i + k)%nat = Some sg /\
                ShadowGV.G sg = Some (gvId g) /\ ShadowGV.allocIdx sg = None) ->
  Z.of_nat (length heap + length globals) < 2 ^ 31 ->
  exists shadow' new,
    sizeGlobals i globals shadow heap = Some (shadow', heap ++ new) /\
    length shadow' = length shadow /\
    length new = length (List.filter (fun g => negb (gvIsConstant g)) globals) /\
    (forall j, (j < i \/ i + length globals <= j)%nat -> shadow' !! j = shadow !! j) /\
    (forall k g, globals !! k = Some g ->
       exists sg, shadow' !! (i + k)%nat = Some sg /\
                  globalSized heap (heap ++ new) (i + k) g sg).
Proof.
  induction globals as [|it rest IH]; intros i shadow heap Hpre Hb.
  - exists shadow, []. simpl. rewrite app_nil_r.
    split; [reflexivity|]. split; [reflexivity|]. split; [reflexivity|].
    split; [auto | intros k g Hk; discriminate].
  - cbn [sizeGlobals]. simpl length in Hb.
    destruct (Hpre O it eq_refl) as (sg0 & Hsg0 & HG0 & HA0).
    rewrite Nat.add_0_r in Hsg0. rewrite Hsg0.
    assert (Hi : (i < length shadow)%nat) by (eapply lookup_lt_Some; eauto).
    assert (Hpre' : forall sg1 k g, rest !! k = Some g ->
              exists sg, <[i := sg1]> shadow !! (S i + k)%nat = Some sg /\
                         ShadowGV.G sg = Some (gvId g) /\ ShadowGV.allocIdx sg = None).
    { intros sg1 k g Hk. destruct (Hpre (S k) g Hk) as (sg & H1 & H2).
      exists sg. split; [|exact H2].
      rewrite list_lookup_insert_ne by lia.
      replace (S i + k)%nat with (i + S k)%nat by lia. exact H1. }
    destruct (gvIsConstant it) eqn:Ec.
    + set (sg1 := {| ShadowGV.G := ShadowGV.G sg0;
                     ShadowGV.storeSize := Some (gvPointerStoreSize it);
                     ShadowGV.allocIdx := ShadowGV.allocIdx sg0 |}).
      destruct (IH (S i) (<[i := sg1]> shadow) heap (Hpre' sg1) ltac:(lia))
        as (shadow' & new & E & L & Ln & Hout & Hin).
      exists shadow', new. split; [exact E|].
      rewrite length_insert in L. split; [exact L|].
      split; [simpl; rewrite Ec; exact Ln|]. split.
      * intros j Hj. simpl in Hj. rewrite Hout by lia.
        apply list_lookup_insert_ne. lia.
      * intros [|k] g Hk.
        -- simpl in Hk. injection Hk as <-. rewrite Nat.add_0_r.
           exists sg1. split.
           ++ rewrite Hout by lia. apply list_lookup_insert_eq. exact Hi.
           ++ unfold globalSized. rewrite Ec. simpl. auto.
        -- simpl in Hk. destruct (Hin k g Hk) as (sg & H1 & H2).
           replace (i + S k)%nat with (S i + k)%nat by lia.
           exists sg. auto.
    + rewrite (i32_small (Z.of_nat (length heap))) by lia.
      set (AD := {| AllocData.allocIdx := Z.of_nat (length heap);
                    AllocData.storeSize := gvValueStoreSize it;
                    AllocData.isCommitted := true;
                    AllocData.allocValue := i;
                    AllocData.allocType := ShadowGV.G sg0 |}).
      set (sg1 := {| ShadowGV.G := ShadowGV.G sg0;
                     ShadowGV.storeSize := Some (gvValueStoreSize it);
                     ShadowGV.allocIdx := Some (Z.of_nat (length heap)) |}).
      destruct (IH (S i) (<[i := sg1]> shadow) (heap ++ [AD]) (Hpre' sg1))
        as (shadow' & new & E & L & Ln & Hout & Hin).
      { rewrite length_app. simpl. lia. }
      exists shadow', (AD :: new).
      replace (heap ++ AD :: new) with ((heap ++ [AD]) ++ new)
        by (rewrite <- app_assoc; reflexivity).
      split; [exact E|].
      rewrite length_insert in L. split; [exact L|].
      split; [simpl; rewrite Ec; simpl; rewrite Ln; reflexivity|]. split.
      * intros j Hj. simpl in Hj. rewrite Hout by lia.
        apply list_lookup_insert_ne. lia.
      * intros [|k] g Hk.
        -- simpl in Hk. injection Hk as <-. rewrite Nat.add_0_r.
           exists sg1. split.
           ++ rewrite Hout by lia. apply list_lookup_insert_eq. exact Hi.
           ++ unfold globalSized. rewrite Ec. split; [exact HG0|].
              exists (length heap), AD. split; [reflexivity|]. split; [lia|].
              split.
              ** rewrite <- app_assoc. simpl.
                 rewrite lookup_app_r by lia. rewrite Nat.sub_diag. reflexivity.
              ** simpl. repeat split; auto.
        -- simpl in Hk. destruct (Hin k g Hk) as (sg & H1 & H2).
           replace (i + S k)%nat with (S i + k)%nat by lia.
           exists sg. split; [exact H1|].
           unfold globalSized in *. destruct H2 as [H2 H3]. split; [exact H2|].
           destruct (gvIsConstant g); [exact H3|].
           destruct H3 as (a & ad & A1 & A2 & A3).
           exists a, ad. split; [exact A1|]. split; [|exact A3].
           rewrite length_app in A2. simpl in A2. lia.
Qed.

(** X21. For globals with distinct identities and sizes within the
    32-bit counters, [initShadowGlobals] succeeds; the array has one slot
    per global plus the extra slots; the index recorded for the i-th
    global is i and slot i names that global; a constant global gets the
    store size of its pointer type and no heap slot; every other global
    gets a fresh heap slot, beyond the ones that existed, that points
    back to it and records its size; and the heap grows by exactly the
    number of globals that are not constant. *)
Theorem initShadowGlobals_round_trip globals extraSlots idxs0 heap0 :
  NoDup (map gvId globals) ->
  0 <= extraSlots ->
  Z.of_nat (length globals) + extraSlots < 2 ^ 32 ->
  Z.of_nat (length heap0 + length globals) < 2 ^ 31 ->
  exists shadowGlobals shadowGlobalsIdx new,
    initShadowGlobals globals extraSlots idxs0 heap0
    = Some (shadowGlobals, shadowGlobalsIdx, heap0 ++ new) /\
    Z.of_nat (length shadowGlobals) = Z.of_nat (length globals) + extraSlots /\
    length new = length (List.filter (fun g => negb (gvIsConstant g)) globals) /\
    forall i g, globals !! i = Some g ->
      shadowGlobalsIdx !! gvId g = Some i /\
      exists sg, shadowGlobals !! i = Some sg /\
                 globalSized heap0 (heap0 ++ new) i g sg.
Proof.
  intros Hnd Hex Hb32 Hb31. unfold initShadowGlobals.
  rewrite (u32_small (Z.of_nat (length globals))) by lia.
  rewrite (u32_small (Z.of_nat (length globals) + extraSlots)) by lia.
  set (shadow0 := replicate _ ShadowGV.fresh).
  assert (L0 : Z.of_nat (length shadow0) = Z.of_nat (length globals) + extraSlots).
  { unfold shadow0. rewrite length_replicate. lia. }
  destruct (numberGlobals_spec globals O shadow0 idxs0 ltac:(lia) Hnd)
    as (shadow1 & idxs & E1 & L1 & Hout1 & Hin1 & _).
  rewrite E1. cbn [mbind option_bind].
  destruct (sizeGlobals_spec globals O shadow1 heap0) as (shadow2 & new & E2 & L2 & Ln & _ & Hin2).
  { intros k g Hk. destruct (Hin1 k g Hk) as [_ (sg & H1 & H2)].
    eexists. split; [exact H2|]. simpl. split; [reflexivity|].
    unfold shadow0 in H1. apply lookup_replicate in H1 as [-> _]. reflexivity. }
  { exact Hb31. }
  rewrite E2. cbn [mbind option_bind].
  exists shadow2, idxs, new. split; [reflexivity|].
  split; [rewrite L2, L1; exact L0|]. split; [exact Ln|].
  intros i g Hi. split.
  - apply (Hin1 i g Hi).
  - apply (Hin2 i g Hi).
Qed.

Section Blocks.

Variable invarInsts : nat -> list ShadowInstruction.

(** X22. When [createBB] succeeds the block did not exist before and
    is found by [getBB] afterwards, the other blocks are untouched, the
    new block points to the descriptor of its index, all its successor
    edges are dead and every instruction is must-check with no runtime
    check attached; creating it a second time is fatal, while
    [getOrCreateBB] then returns it without changing the context. *)
Theorem createBB_then_lookup ia i ia' BB :
  createBB invarInsts ia i = Ok (ia', BB) ->
  getBB ia i = None /\
  getBB ia' i = Some BB /\
  (forall j, j <> i -> getBB ia' j = getBB ia j) /\
  getBBInvar ia i = Some (invar BB) /\
  succsAlive BB = repeat false (length (succIdxs (invar BB))) /\
  Forall (fun SI => isThreadLocal SI = TLS_MUSTCHECK /\
                    needsRuntimeCheck SI = RUNTIME_CHECK_NONE) (insts BB) /\
  createBB invarInsts ia' i = Fatal /\
  getOrCreateBB invarInsts ia' i = Ok (ia', BB).
Proof.
  unfold createBB. intros H.
  destruct (Nat.ltb_spec i (BBsOffset ia)) as [L|L]; [discriminate|].
  destruct (BBs ia !! (i - BBsOffset ia)%nat) as [[old|]|] eqn:E; try discriminate.
  unfold mbind, Result_bind in H.
  destruct (getBBInvar ia i) as [BBI|] eqn:EI; [|discriminate].
  cbn [ofOption bindR] in H. injection H as <- <-.
  assert (Hlt : (i - BBsOffset ia < length (BBs ia))%nat)
    by (eapply lookup_lt_Some; eauto).
  assert (G1 : forall B, getBB (setBB ia i B) i = Some B).
  { intros B. unfold getBB, setBB. cbn [BBsOffset BBs set_BBs].
    destruct (Nat.ltb_spec i (BBsOffset ia)); [lia|].
    rewrite list_lookup_insert_eq by exact Hlt. reflexivity. }
  split; [|split; [|split; [|split; [|split; [|split; [|split]]]]]].
  - unfold getBB. destruct (Nat.ltb_spec i (BBsOffset ia)); [lia|]. rewrite E. reflexivity.
  - apply G1.
  - intros j Hj. unfold getBB, setBB. cbn [BBsOffset BBs set_BBs].
    destruct (Nat.ltb_spec j (BBsOffset ia)); [reflexivity|].
    rewrite list_lookup_insert_ne by lia. reflexivity.
  - reflexivity.
  - cbn [succsAlive invar]. induction (succIdxs BBI); simpl; congruence.
  - cbn [insts]. apply Forall_map. apply Forall_forall. intros; split; reflexivity.
  - unfold setBB. cbn [BBsOffset BBs set_BBs].
    destruct (Nat.ltb_spec i (BBsOffset ia)); [lia|].
    rewrite list_lookup_insert_eq by exact Hlt. reflexivity.
  - unfold getOrCreateBB. rewrite G1. reflexivity.
Qed.

End Blocks.

Lemma assignIndices_lookup blocks : forall i m,
  NoDup (map blockId blocks) ->
  (forall k BB, blocks !! k = Some BB ->
     assignIndices i blocks m !! blockId BB = Some (i + k)%nat) /\
  (forall b, b ∉ map blockId blocks -> assignIndices i blocks m !! b = m !! b).
Proof.
  induction blocks as [|B rest IH]; intros i m Hnd; simpl.
  - split; [intros k BB Hk; discriminate | auto].
  - simpl in Hnd. apply NoDup_cons in Hnd as [Hnotin Hnd].
    destruct (IH (S i) (<[blockId B := i]> m) Hnd) as [H1 H2].
    split.
    + intros [|k] BB Hk; simpl in Hk.
      * injection Hk as <-. rewrite H2 by exact Hnotin.
        rewrite Nat.add_0_r. apply lookup_insert_eq.
      * rewrite (H1 k BB Hk). f_equal. lia.
    + intros b Hb. rewrite H2.
      * apply lookup_insert_ne. intros Heq. apply Hb.
        apply elem_of_cons. left. symmetry. exact Heq.
      * intros Hx. apply Hb. apply elem_of_cons. right. exact Hx.
Qed.

Lemma buildBlocks_lookup F BBIndices blocks : forall i k BB,
  blocks !! k = Some BB ->
  exists SBB,
    fst (buildBlocks F BBIndices i blocks) !! k = Some SBB /\
    idx SBB = (i + k)%nat /\
    succIdxs SBB = map (indexOf BBIndices) (blockSuccs BB) /\
    predIdxs SBB = map (indexOf BBIndices) (blockPreds BB).
Proof.
  induction blocks as [|B rest IH]; intros i k BB Hk; [discriminate|].
  cbn [buildBlocks]. rewrite scanPredecessors_spec.
  destruct (buildBlocks F BBIndices (S i) rest) as [SBBs w] eqn:E.
  destruct k as [|k]; simpl in Hk.
  - injection Hk as <-. eexists. split; [reflexivity|].
    simpl. repeat split; auto.
  - destruct (IH (S i) k BB Hk) as (SBB & H1 & H2 & H3).
    rewrite E in H1. exists SBB. split; [exact H1|]. split; [lia | exact H3].
Qed.

Lemma buildBlocks_length F BBIndices blocks : forall i,
  length (fst (buildBlocks F BBIndices i blocks)) = length blocks.
Proof.
  induction blocks as [|B rest IH]; intros i; [reflexivity|].
  cbn [buildBlocks]. rewrite scanPredecessors_spec.
  specialize (IH (S i)).
  destruct (buildBlocks F BBIndices (S i) rest) as [SBBs w]. simpl in *. congruence.
Qed.

Lemma setNaturalScope_edges l first count BBs :
  map edgesOf (setNaturalScope l first count BBs) = map edgesOf BBs.
Proof.
  induction BBs as [|SBB rest IH]; simpl; [reflexivity|].
  rewrite IH. destruct (_ && _); reflexivity.
Qed.

Lemma forEachLoop_edges (f : LLVMLoop -> list ShadowBBInvar * list (Loop * ShadowLoopInvar)
                             -> Result (list ShadowBBInvar * list (Loop * ShadowLoopInvar)))
    loops :
  Forall (fun c => forall a a', f c a = Ok a' ->
                     map edgesOf (fst a') = map edgesOf (fst a)) loops ->
  forall a a', forEachLoop f loops a = Ok a' ->
               map edgesOf (fst a') = map edgesOf (fst a).
Proof.
  induction 1 as [|c r Hc Hr IH]; intros a a' H; cbn [forEachLoop] in H.
  - injection H as <-. reflexivity.
  - destruct (f c a) as [a1| |] eqn:E; try discriminate.
    rewrite (IH _ _ H). eapply Hc; eauto.
Qed.

Lemma getLoopInfo_edges F BBIndices L : forall Parent acc acc',
  getLoopInfo F BBIndices L Parent acc = Ok acc' ->
  map edgesOf (fst acc') = map edgesOf (fst acc).
Proof.
  induction L as [h p l bs s c subs IH] using LLVMLoop_nested_ind.
  intros Parent acc acc' H. cbn [getLoopInfo] in H.
  destruct (negb (s && c)); [discriminate|].
  destruct (scanOptimisticEdges F BBIndices _ _ None) as [oe| |]; try discriminate.
  eapply forEachLoop_edges in H.
  - rewrite H. cbn [fst]. apply setNaturalScope_edges.
  - eapply Forall_impl; [exact IH|]. intros c0 Hc a a' Ha. eapply Hc; eauto.
Qed.

(** X23. When the blocks of the topological order have distinct
    identities and the builder succeeds, the model has one descriptor per
    block, the i-th descriptor has index i, and its successor and
    predecessor indices are the positions in the order of the block's
    successors and predecessors, whatever the loop pass did to the
    scopes. *)
Theorem block_indices_consistent F RootIA info warns :
  NoDup (map blockId (TopOrderedBlocks F)) ->
  getFunctionInvarInfo F RootIA = Ok (info, warns) ->
  length (fBBs info) = length (TopOrderedBlocks F) /\
  forall i BB, TopOrderedBlocks F !! i = Some BB ->
    exists SBB,
      fBBs info !! i = Some SBB /\ idx SBB = i /\
      (forall k S j SB, blockSuccs BB !! k = Some S ->
         TopOrderedBlocks F !! j = Some SB -> blockId SB = S ->
         succIdxs SBB !! k = Some j) /\
      (forall k P j PB, blockPreds BB !! k = Some P ->
         TopOrderedBlocks F !! j = Some PB -> blockId PB = P ->
         predIdxs SBB !! k = Some j).
Proof.
  intros Hnd H. unfold getFunctionInvarInfo in H.
  set (BBIndices := assignIndices 0 (TopOrderedBlocks F) ∅) in *.
  pose proof (buildBlocks_length F BBIndices (TopOrderedBlocks F) 0%nat) as HL.
  pose proof (buildBlocks_lookup F BBIndices (TopOrderedBlocks F) 0%nat) as HB.
  destruct (buildBlocks F BBIndices 0 (TopOrderedBlocks F)) as [SBBs w].
  destruct (getTopLevelLoops _ _ _) as [[SBBs' loops]| |] eqn:EL; try discriminate.
  injection H as <- <-. cbn [fBBs].
  assert (HE : map edgesOf SBBs' = map edgesOf SBBs).
  { unfold getTopLevelLoops in EL.
    apply forEachLoop_edges in EL; [exact EL|].
    apply List.Forall_forall. intros L _ a a' Ha. eapply getLoopInfo_edges; eauto. }
  cbn [fst] in HL, HB.
  split.
  - rewrite <- HL. rewrite <- (length_map edgesOf SBBs'), HE. apply length_map.
  - intros i BB Hi. destruct (HB i BB Hi) as (SBB & H1 & H2 & H3 & H4).
    assert (HS : exists SBB', SBBs' !! i = Some SBB' /\ edgesOf SBB' = edgesOf SBB).
    { assert (X : map edgesOf SBBs' !! i = Some (edgesOf SBB))
        by (rewrite HE, list_lookup_fmap, H1; reflexivity).
      change (map edgesOf SBBs') with (edgesOf <$> SBBs') in X.
      rewrite list_lookup_fmap in X.
      destruct (SBBs' !! i) as [SBB'|]; [|discriminate].
      simpl in X. apply (inj Some) in X.
      exists SBB'. split; [reflexivity | exact X]. }
    destruct HS as (SBB' & HS1 & HS2).
    unfold edgesOf in HS2. injection HS2 as E1 E2 E3 E4.
    exists SBB'. split; [exact HS1|]. split; [simpl in H2; congruence|].
    destruct (assignIndices_lookup (TopOrderedBlocks F) 0%nat ∅ Hnd) as [HA _].
    split.
    + intros k S j SB Hk Hj <-. rewrite E2, H3.
      rewrite list_lookup_fmap, Hk. simpl. f_equal.
      unfold indexOf. fold BBIndices in HA. rewrite (HA j SB Hj). reflexivity.
    + intros k P j PB0 Hk Hj <-. rewrite E3, H4.
      rewrite list_lookup_fmap, Hk. simpl. f_equal.
      unfold indexOf. fold BBIndices in HA. rewrite (HA j PB0 Hj). reflexivity.
Qed.

End ShadowsFacts.


(** ** Loop descriptors *)

Section LoopDescriptors.

Lemma forEachLoop_appends
    (f : LLVMLoop -> list ShadowBBInvar * list (Loop * ShadowLoopInvar)
         -> Result (list ShadowBBInvar * list (Loop * ShadowLoopInvar)))
    loops :
  Forall (fun c => forall a a', f c a = Ok a' ->
            exists more, snd a' = snd a ++ more /\ length more = loopCount c) loops ->
  forall a a', forEachLoop f loops a = Ok a' ->
    exists more, snd a' = snd a ++ more /\
                 length more = list_sum (map loopCount loops).
Proof.
  induction 1 as [|c r Hc Hr IH]; intros a a' H; cbn [forEachLoop] in H.
  - injection H as <-. exists []. rewrite app_nil_r. auto.
  - destruct (f c a) as [a1| |] eqn:E; try discriminate.
    destruct (Hc _ _ E) as (m1 & E1 & L1).
    destruct (IH _ _ H) as (m2 & E2 & L2).
    exists (m1 ++ m2). rewrite E2, E1, <- app_assoc. split; [reflexivity|].
    rewrite length_app. simpl. lia.
Qed.

Lemma getLoopInfo_appends F BBIndices L : forall Parent acc acc',
  getLoopInfo F BBIndices L Parent acc = Ok acc' ->
  exists more,
    snd acc' = snd acc ++ more /\ length more = loopCount L /\
    match L, more with
    | mkLLVMLoop h p l bs _ _ _, (key, LI) :: _ =>
        key = match Parent with None => TopLoop h | Some q => SubLoop h q end /\
        LI = {| headerIdx := indexOf BBIndices h;
                preheaderIdx := indexOf BBIndices p;
                latchIdx := indexOf BBIndices l;
                nBlocks := length bs |}
    | _, [] => False
    end.
Proof.
  induction L as [h p l bs s c subs IH] using LLVMLoop_nested_ind.
  intros Parent acc acc' H. cbn [getLoopInfo] in H.
  destruct (negb (s && c)); [discriminate|].
  destruct (scanOptimisticEdges F BBIndices _ _ None) as [oe| |]; try discriminate.
  apply forEachLoop_appends in H.
  - destruct H as (more & E & Ln). cbn [snd] in E.
    eexists. split; [rewrite E, <- app_assoc; reflexivity|].
    split; [simpl; rewrite Ln; reflexivity|]. simpl. auto.
  - eapply Forall_impl; [exact IH|]. intros c0 Hc a a' Ha.
    destruct (Hc _ _ _ Ha) as (more & E & Ln & _). eauto.
Qed.

(** X25. When the builder succeeds it has recorded one loop descriptor
    for every loop of the nest, and every top-level loop is recorded
    under its own key with the indices of its header, preheader and latch
    and the number of its blocks. *)
Theorem loop_descriptors_recorded F RootIA info warns :
  getFunctionInvarInfo F RootIA = Ok (info, warns) ->
  length (LInfo info) = list_sum (map loopCount (topLevelLoops F)) /\
  forall L, In L (topLevelLoops F) ->
    In (TopLoop (loopHeader L),
        match L with
        | mkLLVMLoop h p l bs _ _ _ =>
            let BBIndices := assignIndices 0 (TopOrderedBlocks F) ∅ in
            {| headerIdx := indexOf BBIndices h;
               preheaderIdx := indexOf BBIndices p;
               latchIdx := indexOf BBIndices l;
               nBlocks := length bs |}
        end) (LInfo info).
Proof.
  intros H. unfold getFunctionInvarInfo in H.
  set (BBIndices := assignIndices 0 (TopOrderedBlocks F) ∅) in *.
  destruct (buildBlocks F BBIndices 0 (TopOrderedBlocks F)) as [SBBs w].
  destruct (getTopLevelLoops _ _ _) as [[SBBs' loops]| |] eqn:EL; try discriminate.
  injection H as <- <-. cbn [LInfo].
  unfold getTopLevelLoops in EL.
  assert (G : forall ls acc acc',
            forEachLoop (fun L a => getLoopInfo F BBIndices L None a) ls acc = Ok acc' ->
            (exists more, snd acc' = snd acc ++ more /\
                          length more = list_sum (map loopCount ls)) /\
            (forall x, In x (snd acc) -> In x (snd acc')) /\
            forall L, In L ls ->
              In (TopLoop (loopHeader L),
                  match L with
                  | mkLLVMLoop h p l bs _ _ _ =>
                      {| headerIdx := indexOf BBIndices h;
                         preheaderIdx := indexOf BBIndices p;
                         latchIdx := indexOf BBIndices l;
                         nBlocks := length bs |}
                  end) (snd acc')).
  { induction ls as [|L r IH]; intros acc acc' HE; cbn [forEachLoop] in HE.
    - injection HE as <-. split; [exists []; rewrite app_nil_r; auto|].
      split; [auto | intros L []].
    - destruct (getLoopInfo F BBIndices L None acc) as [a1| |] eqn:E1; try discriminate.
      destruct (getLoopInfo_appends _ _ _ _ _ _ E1) as (m1 & A1 & L1 & D1).
      destruct (IH _ _ HE) as ((m2 & A2 & L2) & Hin & Hall).
      split; [|split].
      + exists (m1 ++ m2). rewrite A2, A1, <- app_assoc. split; [reflexivity|].
        rewrite length_app. simpl. lia.
      + intros x Hx. apply Hin. rewrite A1. apply in_or_app. left. exact Hx.
      + intros L0 [<-|HL]; [|apply Hall; exact HL].
        apply Hin. rewrite A1. apply in_or_app. right.
        destruct L as [h p l bs s c subs]. destruct m1 as [|[key LI] m1']; [destruct D1|].
        destruct D1 as [-> ->]. left. reflexivity. }
  destruct (G _ _ _ EL) as ((more & A & Ln) & _ & Hall).
  cbn [snd app] in *. subst loops. split; [exact Ln | exact Hall].
Qed.

End LoopDescriptors.

(** ** Predecessors that come after their successor *)

Section PredecessorOrder.

Lemma buildBlocks_warnings_eq F BBIndices blocks : forall i,
  snd (buildBlocks F BBIndices i blocks)
  = concat (imap (fun k BB =>
                    flat_map (warningFor F BBIndices (i + k) BB
                                (getLoopFor (topLevelLoops F) (blockId BB)))
                             (blockPreds BB)) blocks).
Proof.
  induction blocks as [|B rest IH]; intros i; [reflexivity|].
  cbn [buildBlocks]. rewrite scanPredecessors_spec.
  specialize (IH (S i)).
  destruct (buildBlocks F BBIndices (S i) rest) as [SBBs w].
  cbn [snd] in *. rewrite imap_cons. cbn [concat].
  rewrite Nat.add_0_r. f_equal. rewrite IH. f_equal.
  apply imap_ext. intros k BB _. cbn. replace (i + S k)%nat with (S (i + k)) by lia.
  reflexivity.
Qed.

Lemma warningFor_In F BBIndices i BB PI d :
  In d (warningFor F BBIndices i BB (getLoopFor (topLevelLoops F) (blockId BB)) PI)
  <-> (i < indexOf BBIndices PI)%nat /\ isHeaderOfScope F BB = false
      /\ d = {| diagBlock := blockName BB; diagFunction := functionName F;
                diagPred := nameOf F PI |}.
Proof.
  unfold warningFor, isHeaderOfScope.
  destruct (Nat.ltb_spec i (indexOf BBIndices PI)) as [Hlt|Hge]; cbn [andb].
  - destruct (getLoopFor (topLevelLoops F) (blockId BB)) as [L|].
    + destruct (N.eqb (blockId BB) (loopHeader L)); cbn [negb In].
      * split; [intros [] | intros (_ & H & _); discriminate H].
      * split; [intros [<-|[]]; auto | intros (_ & _ & ->); auto].
    + cbn [In]. split; [intros [<-|[]]; auto | intros (_ & _ & ->); auto].
  - cbn [In]. split; [intros [] | intros (H & _); lia].
Qed.

Lemma buildBlocks_warnings F BBIndices blocks : forall i d,
  In d (snd (buildBlocks F BBIndices i blocks))
  <-> exists k BB PI,
        blocks !! k = Some BB /\ In PI (blockPreds BB)
        /\ (i + k < indexOf BBIndices PI)%nat
        /\ isHeaderOfScope F BB = false
        /\ d = {| diagBlock := blockName BB; diagFunction := functionName F;
                  diagPred := nameOf F PI |}.
Proof.
  induction blocks as [|B rest IH]; intros i d.
  - cbn. split; [intros [] | intros (k & BB & PI & H & _); discriminate H].
  - cbn [buildBlocks]. rewrite scanPredecessors_spec.
    specialize (IH (S i) d).
    destruct (buildBlocks F BBIndices (S i) rest) as [SBBs w].
    cbn [snd] in *. rewrite in_app_iff, in_flat_map, IH. split.
    + intros [(PI & HPI & Hd)|(k & BB & PI & Hk & HPI & Hlt & Hh & Hd)].
      * apply warningFor_In in Hd as (Hlt & Hh & Hd).
        exists 0%nat, B, PI. rewrite Nat.add_0_r. auto.
      * exists (S k), BB, PI. replace (i + S k)%nat with (S i + k)%nat by lia. auto.
    + intros (k & BB & PI & Hk & HPI & Hlt & Hh & Hd).
      destruct k as [|k]; cbn in Hk.
      * injection Hk as <-. left. exists PI. split; [exact HPI|].
        apply warningFor_In. rewrite Nat.add_0_r in Hlt. auto.
      * right. exists k, BB, PI.
        replace (S i + k)%nat with (i + S k)%nat by lia. auto.
Qed.

(** C7 (amended). A predecessor that comes after its successor in the
    topological order, where the successor is not the header of its loop,
    makes the builder print a warning naming the block, the function and
    the predecessor; the index of the predecessor is recorded in the
    block's descriptor all the same, and the build goes on: when every
    loop passes the two checks of [getLoopInfo] (simplified and LCSSA
    form, at most one optimistic edge) the builder returns the model.  The
    warnings returned are exactly those of such pairs of a block and a
    predecessor, in the order of the blocks and of their predecessors. *)
Theorem predecessor_after_successor_warns (F : LLVMFunction) (RootIA : bool) :
  let BBIndices := assignIndices 0 (TopOrderedBlocks F) ∅ in
  forallb (loopNormal F BBIndices) (topLevelLoops F) = true ->
  exists info warns,
    getFunctionInvarInfo F RootIA = Ok (info, warns)
    /\ (forall d, In d warns <->
          exists i BB PI,
            TopOrderedBlocks F !! i = Some BB /\ In PI (blockPreds BB)
            /\ (i < indexOf BBIndices PI)%nat
            /\ isHeaderOfScope F BB = false
            /\ d = {| diagBlock := blockName BB; diagFunction := functionName F;
                      diagPred := nameOf F PI |})
    /\ warns = concat (imap (fun i BB =>
                               flat_map (warningFor F BBIndices i BB
                                           (getLoopFor (topLevelLoops F) (blockId BB)))
                                        (blockPreds BB)) (TopOrderedBlocks F))
    /\ (forall i BB, TopOrderedBlocks F !! i = Some BB ->
          exists SBB,
            fBBs info !! i = Some SBB /\ idx SBB = i
            /\ predIdxs SBB = map (indexOf BBIndices) (blockPreds BB)).
Proof.
  intros BBIndices Hn. unfold getFunctionInvarInfo. fold BBIndices.
  pose proof (buildBlocks_warnings F BBIndices (TopOrderedBlocks F) 0%nat) as HW.
  pose proof (buildBlocks_warnings_eq F BBIndices (TopOrderedBlocks F) 0%nat) as HQ.
  pose proof (buildBlocks_lookup F BBIndices (TopOrderedBlocks F) 0%nat) as HB.
  destruct (buildBlocks F BBIndices 0 (TopOrderedBlocks F)) as [SBBs w].
  cbn [fst snd] in HW, HQ, HB.
  destruct (getTopLevelLoops_outcome F BBIndices (topLevelLoops F) (SBBs, []))
    as [Hok _].
  destruct (Hok Hn) as [[SBBs' loops] EL]. rewrite EL.
  do 2 eexists. split; [reflexivity|]. cbn [fBBs].
  split; [exact HW|]. split; [exact HQ|].
  assert (HE : map edgesOf SBBs' = map edgesOf SBBs).
  { unfold getTopLevelLoops in EL.
    apply forEachLoop_edges in EL; [exact EL|].
    apply List.Forall_forall. intros L _ a a' Ha. eapply getLoopInfo_edges; eauto. }
  intros i BB Hi. destruct (HB i BB Hi) as (SBB & H1 & H2 & H3 & H4).
  assert (X : map edgesOf SBBs' !! i = Some (edgesOf SBB))
    by (rewrite HE; change (map edgesOf SBBs) with (edgesOf <$> SBBs);
        rewrite list_lookup_fmap, H1; reflexivity).
  change (map edgesOf SBBs') with (edgesOf <$> SBBs') in X.
  rewrite list_lookup_fmap in X.
  destruct (SBBs' !! i) as [SBB'|]; [|discriminate X].
  apply (inj Some) in X. unfold edgesOf in X.
  exists SBB'. split; [reflexivity|].
  injection X as X1 X2 X3 X4. cbn in H2. split; congruence.
Qed.

End PredecessorOrder.

Lemma predecessor_after_successor_warns_witness :
  exists info warns SBB,
    getFunctionInvarInfo irreducibleFn true = Ok (info, warns)
    /\ In {| diagBlock := "A"; diagFunction := "f"; diagPred := "B" |} warns
    /\ fBBs info !! 1%nat = Some SBB
    /\ predIdxs SBB = [0%nat; 2%nat].
Proof.
  destruct (predecessor_after_successor_warns irreducibleFn true eq_refl)
    as (info & warns & H & Hin & _ & Hidx).
  destruct (Hidx 1%nat
              {| blockId := 1; blockName := "A"; blockInsts := [OpOther];
                 blockSuccs := [2%N; 3%N]; blockPreds := [0%N; 2%N] |} eq_refl)
    as (SBB & HS & _ & HP).
  exists info, warns, SBB. split; [exact H|]. split; [|split; [exact HS | exact HP]].
  apply Hin.
  exists 1%nat, {| blockId := 1; blockName := "A"; blockInsts := [OpOther];
                   blockSuccs := [2%N; 3%N]; blockPreds := [0%N; 2%N] |}, 2%N.
  split; [reflexivity|]. split; [right; left; reflexivity|].
  split; [vm_compute; lia|]. split; reflexivity.
Defined.

(** One optimistic edge in a loop is accepted, a second one in the same
    loop stops the build. *)
Lemma two_optimistic_edges_fatal :
  (exists info warns, getFunctionInvarInfo loopFn true = Ok (info, warns))
  /\ getFunctionInvarInfo twoEdgesFn true = Fatal.
Proof.
  split; [do 2 eexists|]; vm_compute; reflexivity.
Qed.

(** C7, as stated, fails: block A of [irreducibleFn] has index 1, its
    predecessor B has index 2, A is in no loop, and the builder returns
    the model together with one warning. *)
Lemma predecessor_violation_counterexample :
  getLoopFor (topLevelLoops irreducibleFn) 1 = None
  /\ exists info SBB,
       getFunctionInvarInfo irreducibleFn true
       = Ok (info, [ {| diagBlock := "A"; diagFunction := "f"; diagPred := "B" |} ])
       /\ fBBs info !! 1%nat = Some SBB
       /\ idx SBB = 1%nat
       /\ In 2%nat (predIdxs SBB).
Proof.
  split; [reflexivity|]. do 2 eexists.
  split; [vm_compute; reflexivity|].
  split; [reflexivity|]. split; [reflexivity|]. simpl. auto.
Qed.


(** ** The properties above at concrete inputs *)

Lemma gapStore_listed O M :
  getReadableStoreFor gapStore O = Some M -> M = [(0, 2); (6, 8)].
Proof.
  intros H. destruct O as [|a c|f i|i|]; simpl in H; try discriminate.
  - apply lookup_singleton_Some in H as [_ <-]. reflexivity.
  - destruct f as [|f]; simpl in H; [|destruct f; discriminate].
    rewrite lookup_empty in H. discriminate.
  - apply lookup_singleton_Some in H as [_ <-]. reflexivity.
Qed.

Lemma storeWf_gapStore : storeWf gapStore.
Proof. intros O M H. rewrite (gapStore_listed O M H). cbn. lia. Qed.

Lemma signedRange_gapStore O M :
  getReadableStoreFor gapStore O = Some M -> signedRange M.
Proof. intros H. rewrite (gapStore_listed O M H). split; cbn; lia. Qed.

Lemma getReadableCopy_canonical_witness :
  exists M', getReadableCopy [(0, 4); (4, 8); (10, 12)] = Some M' /\
             IntervalMap.wf M' /\ IntervalMap.mem 5 M' = true.
Proof.
  destruct (getReadableCopy_canonical [(0, 4); (4, 8); (10, 12)] 0)
    as (M' & E & W & Hm & _).
  { cbn. lia. }
  exists M'. split; [exact E|]. split; [exact W|]. rewrite Hm. reflexivity.
Defined.

Lemma markGoodBytes_marks_range_witness :
  exists st',
    markGoodBytes (ptrTo (SVHeapObj 0)) 4 true gapStore 1 = Some st' /\
    knownSafe st' (SVHeapObj 0) 3 = true /\
    knownSafe st' (SVHeapObj 0) 5 = false.
Proof.
  destruct (markGoodBytes_marks_range (ptrTo (SVHeapObj 0)) 4 gapStore 1
              {| V := SVHeapObj 0; Offset := 0 |})
    as (st' & E & Hk & _); try reflexivity.
  { intros M H. apply (storeWf_gapStore _ _ H). }
  exists st'. split; [exact E|]. rewrite !Hk. split; reflexivity.
Defined.

Lemma markGoodBytes_covered_noop_witness :
  markGoodBytes (ptrTo (SVHeapObj 0)) 2 true gapStore 0 = Some gapStore.
Proof.
  apply (markGoodBytes_covered_noop (ptrTo (SVHeapObj 0)) 2 gapStore 0
           {| V := SVHeapObj 0; Offset := 0 |}); try reflexivity.
  - intros M H. apply (storeWf_gapStore _ _ H).
  - intros x Hx. cbn in Hx. change (u64 (0 + 0)) with 0 in Hx. change (u64 (0 + 0 + 2)) with 2 in Hx.
    assert (Hc : x = 0 \/ x = 1) by lia. destruct Hc as [-> | ->]; reflexivity.
Defined.

Lemma shouldCheckRead_exact_witness :
  shouldCheckRead {| V := SVHeapObj 0; Offset := 6 |} 2 gapStore = false <->
  forall x, 6 <= x < 6 + 2 -> knownSafe gapStore (SVHeapObj 0) x = true.
Proof.
  apply (shouldCheckRead_exact {| V := SVHeapObj 0; Offset := 6 |} 2 gapStore);
    try reflexivity.
  - intros M H. apply (signedRange_gapStore _ _ H).
  - cbn. lia.
Defined.

Lemma shouldCheckRead_monotone_witness :
  shouldCheckRead {| V := SVHeapObj 0; Offset := 0 |} 4 clobberedStore = true.
Proof.
  apply (shouldCheckRead_monotone {| V := SVHeapObj 0; Offset := 0 |} 4
           clobberedStore gapStore); try reflexivity.
  - intros M H. discriminate H.
  - intros M H. apply (signedRange_gapStore _ _ H).
  - intros x H. discriminate H.
Defined.

Lemma read_after_write_witness :
  exists st',
    markGoodBytes (ptrTo (SVHeapObj 0)) 4 true gapStore 1 = Some st' /\
    shouldCheckRead {| V := SVHeapObj 0; Offset := 2 |} 3 st' = false.
Proof.
  apply (read_after_write (ptrTo (SVHeapObj 0)) 4 gapStore 1
           {| V := SVHeapObj 0; Offset := 0 |} 2 3); try reflexivity;
    try (cbn; lia).
  intros M H. apply (signedRange_gapStore _ _ H).
Defined.

Lemma updateTLStore_monotone_witness :
  exists s',
    updateTLStore cfgThreads (storeInst (SVHeapObj 0) 4) true (stateOf gapStore)
    = Some s' /\
    knownSafe (bbStore s') (SVHeapObj 0) 7 = true.
Proof.
  destruct (updateTLStore cfgThreads (storeInst (SVHeapObj 0) 4) true
              (stateOf gapStore)) as [s'|] eqn:E; [|vm_compute in E; discriminate E].
  exists s'. split; [reflexivity|].
  destruct (updateTLStore_monotone cfgThreads (storeInst (SVHeapObj 0) 4) true
              (stateOf gapStore) s' eq_refl storeWf_gapStore E) as [_ H].
  apply H. reflexivity.
Defined.

Lemma shouldCheckCopy_mustcheck_witness :
  shouldCheckCopy cfgRealloc memcpyInst (getCallArgOperand memcpyInst 1)
    (getCallArgOperand memcpyInst 2) clobberedStore = TLS_MUSTCHECK.
Proof.
  apply (proj1 (shouldCheckCopy_mustcheck cfgRealloc memcpyInst
                  (getCallArgOperand memcpyInst 1) (getCallArgOperand memcpyInst 2)
                  clobberedStore)).
  exists 4, {| V := SVHeapObj 0; Offset := 0 |}, [(0, 4, knownScalar)], 0, 4, knownScalar.
  repeat split; try reflexivity; try discriminate.
  left. reflexivity.
Defined.


Lemma shouldCheckLoad_single_pointer_witness :
  shouldCheckLoad cfgThreads nullOrConstGV
    (loadInst 2 (SVHeapObj 0) 2 knownScalar) gapStore = TLS_NOCHECK <->
  forall x, 0 <= x < 0 + 2 -> knownSafe gapStore (SVHeapObj 0) x = true.
Proof.
  refine (proj1 (shouldCheckLoad_single_pointer cfgThreads nullOrConstGV
                   (loadInst 2 (SVHeapObj 0) 2 knownScalar) gapStore
                   false false (ptrTo (SVHeapObj 0)) 2
                   {| V := SVHeapObj 0; Offset := 0 |}
                   eq_refl eq_refl eq_refl eq_refl eq_refl eq_refl eq_refl
                   _ _ _ _)).
  - intros M H. apply (signedRange_gapStore _ _ H).
  - cbn. lia.
  - lia.
  - cbn. lia.
Defined.

Lemma no_yield_no_checks_witness :
  exists insts',
    analyseInsts cfgThreads nullOrConstGV
      [allocInst (SVStackObj 0 0) 8; storeInst (SVStackObj 0 0) 4;
       callInst 3 putsFn;
       loadInst 2 (SVStackObj 0 0) 4 knownScalar] false false (stateOf entryStore)
    = Some (insts', stateOf entryStore) /\
    Forall (fun SI' => is_LoadInst SI' || isCopyInst SI' = true ->
                       isThreadLocal SI' <> TLS_MUSTCHECK) insts'.
Proof.
  refine (proj1 (no_yield_no_checks cfgThreads nullOrConstGV
           [allocInst (SVStackObj 0 0) 8; storeInst (SVStackObj 0 0) 4;
            callInst 3 putsFn;
            loadInst 2 (SVStackObj 0 0) 4 knownScalar] false (stateOf entryStore)
           _ _ _)).
  - reflexivity.
  - split; [reflexivity|]. repeat constructor.
  - repeat constructor.
Defined.

Lemma checked_load_sets_reads_flag_witness :
  exists SI' s',
    TLAnalyseInstruction cfgThreads nullOrConstGV
      (loadInst 2 (SVStackObj 0 0) 4 knownScalar) false false (stateOf clobberedStore)
    = Some (SI', s') /\
    (isThreadLocal SI' = TLS_MUSTCHECK /\
     shouldCheckLoad cfgThreads nullOrConstGV
       (loadInst 2 (SVStackObj 0 0) 4 knownScalar) clobberedStore = TLS_MUSTCHECK /\
     iaReadsTentativeData s' = true).
Proof.
  do 2 eexists. split; [vm_compute; reflexivity|].
  refine (proj2 (checked_load_sets_reads_flag cfgThreads nullOrConstGV
            (leafContext true (Some clobberedStore) [])
            (leafBlock (Some clobberedStore) [])
            (loadInst 2 (SVStackObj 0 0) 4 knownScalar) false
            (stateOf clobberedStore) _ _ false _ _ _) _);
    [reflexivity | vm_compute; reflexivity | vm_compute; reflexivity | reflexivity].
Defined.

Lemma realloc_check_not_reported_witness :
  exists SI' s',
    TLAnalyseInstruction cfgRealloc nullOrConstGV reallocInst false false
      (stateOf clobberedStore) = Some (SI', s') /\
    isThreadLocal SI' = TLS_MUSTCHECK /\
    iaReadsTentativeData s' = true /\
    requiresRuntimeCheck2 (leafContext true (Some clobberedStore) [])
      (leafBlock (Some clobberedStore) []) SI' true = false.
Proof.
  do 2 eexists. split; [vm_compute; reflexivity|].
  split; [reflexivity|].
  eapply (realloc_check_not_reported cfgRealloc nullOrConstGV
            (leafContext true (Some clobberedStore) [])
            (leafBlock (Some clobberedStore) [])
            reallocInst reallocFn _ _ false (stateOf clobberedStore) _ _ true);
    [reflexivity | reflexivity | reflexivity | reflexivity
     | vm_compute; reflexivity | reflexivity].
Defined.

Lemma lock_domain_yield_witness :
  exists s',
    updateTLStore cfgLocks (callInst 3 yieldFn) true (stateOf gapStore) = Some s' /\
    knownSafe (bbStore s') (SVGlobal 0 false) 1 = false /\
    getReadableStoreFor (bbStore s') (SVHeapObj 1)
    = getReadableStoreFor gapStore (SVHeapObj 1) /\
    iaYieldState s' = BARRIER_NONE.
Proof.
  destruct (lock_domain_yield cfgLocks (callInst 3 yieldFn) (Some yieldFn) [] 0 true
              (stateOf gapStore) [SVGlobal 0 false])
    as (s' & E & Hk & Ho & _ & Hy & _); try reflexivity.
  - right. reflexivity.
  - apply not_elem_of_empty.
  - repeat constructor.
  - exists s'. split; [exact E|]. split; [apply Hk; left; reflexivity|].
    split; [|exact Hy].
    apply Ho. intros G [<-|[]]. discriminate.
Defined.

Lemma lock_domain_store_not_remarked_witness :
  exists s',
    updateTLStore cfgLocks (callInst 3 yieldFn) true (stateOf entryStore) = Some s' /\
    markGoodBytes (ptrTo (SVGlobal 0 false)) 4 true (bbStore s') 0 = Some (bbStore s') /\
    shouldCheckRead {| V := SVGlobal 0 false; Offset := 0 |} 4 (bbStore s') = true.
Proof.
  apply (lock_domain_store_not_remarked cfgLocks (callInst 3 yieldFn) (Some yieldFn)
           [] 0 true (stateOf entryStore) [SVGlobal 0 false] (SVGlobal 0 false)
           (ptrTo (SVGlobal 0 false)) 4 0 {| V := SVGlobal 0 false; Offset := 0 |} 0 4);
    try reflexivity.
  - right. reflexivity.
  - apply not_elem_of_empty.
  - repeat constructor.
  - left. reflexivity.
Defined.

Lemma TLProgress_dots_witness :
  TLProgressN (Nat.iter 2500 TLProgress globals0) = 500 /\
  errsDots (Nat.iter 2500 TLProgress globals0) = 2%nat.
Proof.
  destruct (TLProgress_dots 2500 globals0) as [H1 H2].
  { cbn. unfold TLProgressLimit. lia. }
  split; [exact H1|]. apply Nat2Z.inj. exact H2.
Defined.

Lemma findTentativeLoadsInLoop_keeps_context_witness :
  exists g ia,
    walkLeaf 1 globals0 twoLoadsContext None false false false = Ok (g, ia) /\
    sameContext twoLoadsContext ia.
Proof.
  destruct (walkLeaf 1 globals0 twoLoadsContext None false false false)
    as [[g ia]| |] eqn:E;
    [|vm_compute in E; discriminate E|vm_compute in E; discriminate E].
  exists g, ia. split; [reflexivity|].
  exact (findTentativeLoadsInLoop_keeps_context cfgThreads nullOrConstGV noStoreMerge
           noCallMerge noPathConditions allEdgesLive 1 globals0 twoLoadsContext None
           false false false g ia E).
Defined.

Lemma getCommittedBreakBlockAt_sorted_witness :
  getCommittedBreakBlockAt
    [ {| startIndex := 0; breakBlock := 10 |};
      {| startIndex := 5; breakBlock := 11 |};
      {| startIndex := 9; breakBlock := 12 |} ] 7 = Some 11%N.
Proof.
  rewrite getCommittedBreakBlockAt_sorted; [reflexivity|].
  repeat constructor; cbn; lia.
Defined.

Lemma getUnderlyingGlobal_resolves_witness :
  getUnderlyingGlobal (GlobalVariable 3) = Some (GlobalVariable 3).
Proof.
  apply (getUnderlyingGlobal_resolves
           (GlobalAlias (Some (GlobalAlias (Some (GlobalVariable 3)))))
           (GlobalVariable 3)).
  reflexivity.
Defined.

Lemma initShadowGlobals_round_trip_witness :
  exists shadowGlobals shadowGlobalsIdx new,
    initShadowGlobals threeGlobals 1 ∅ [] = Some (shadowGlobals, shadowGlobalsIdx, new) /\
    Z.of_nat (length shadowGlobals) = 4 /\ length new = 2%nat /\
    shadowGlobalsIdx !! 12%N = Some 2%nat.
Proof.
  destruct (initShadowGlobals_round_trip threeGlobals 1 ∅ [])
    as (sh & idxs & new & E & L & Ln & H); try (cbn; lia).
  { refine (bool_decide_unpack _ _). vm_compute. exact I. }
  exists sh, idxs, new. split; [exact E|]. split; [exact L|]. split; [exact Ln|].
  apply (H 2%nat {| gvId := 12; gvIsConstant := false; gvPointerStoreSize := 8;
                    gvValueStoreSize := 32 |} eq_refl).
Defined.

Lemma createBB_then_lookup_witness :
  exists ia' BB,
    createBB (fun _ => [settledLoad]) unbuiltContext 0 = Ok (ia', BB) /\
    getBB ia' 0 = Some BB /\
    createBB (fun _ => [settledLoad]) ia' 0 = Fatal.
Proof.
  do 2 eexists. split; [vm_compute; reflexivity|].
  edestruct (createBB_then_lookup (fun _ => [settledLoad]) unbuiltContext 0%nat)
    as (_ & H1 & _ & _ & _ & _ & H2 & _); [vm_compute; reflexivity|].
  split; [exact H1 | exact H2].
Defined.

Lemma block_indices_consistent_witness :
  exists info warns,
    getFunctionInvarInfo irreducibleFn true = Ok (info, warns) /\
    length (fBBs info) = 4%nat.
Proof.
  destruct (getFunctionInvarInfo irreducibleFn true) as [[info warns]| |] eqn:E;
    [|vm_compute in E; discriminate E|vm_compute in E; discriminate E].
  exists info, warns. split; [reflexivity|].
  destruct (block_indices_consistent irreducibleFn true info warns) as [H _];
    [|exact E|exact H].
  refine (bool_decide_unpack _ _). vm_compute. exact I.
Defined.

Lemma walkCopyInst_marks_both_witness :
  exists st',
    walkCopyInst (ptrTo (SVHeapObj 1)) (ptrTo (SVHeapObj 0)) (constOperand 4) true
      gapStore = Some st' /\
    knownSafe st' (SVHeapObj 1) 3 = true /\
    knownSafe st' (SVHeapObj 0) 3 = true /\
    knownSafe st' (SVHeapObj 0) 7 = true.
Proof.
  destruct (walkCopyInst_marks_both (ptrTo (SVHeapObj 1)) (ptrTo (SVHeapObj 0))
              (constOperand 4) 4 gapStore
              {| V := SVHeapObj 1; Offset := 0 |} {| V := SVHeapObj 0; Offset := 0 |})
    as (st' & E & Hf & Ht & Hm & _); try reflexivity.
  { apply storeWf_gapStore. }
  exists st'. split; [exact E|].
  split; [apply Hf; vm_compute; split; [discriminate | reflexivity]|].
  split; [apply Ht; vm_compute; split; [discriminate | reflexivity]|].
  apply Hm. reflexivity.
Defined.

Lemma loop_descriptors_recorded_witness :
  exists info warns,
    getFunctionInvarInfo loopFn true = Ok (info, warns) /\
    length (LInfo info) = 2%nat /\
    In (TopLoop 1, {| headerIdx := 1; preheaderIdx := 0; latchIdx := 2; nBlocks := 2 |})
       (LInfo info).
Proof.
  destruct (getFunctionInvarInfo loopFn true) as [[info warns]| |] eqn:E;
    [|vm_compute in E; discriminate E|vm_compute in E; discriminate E].
  exists info, warns. split; [reflexivity|].
  destruct (loop_descriptors_recorded loopFn true info warns E) as [H1 H2].
  split; [exact H1|].
  apply (H2 (mkLLVMLoop 1 0 2 [1%N; 2%N] true true
               [mkLLVMLoop 2 1 2 [2%N] true true []])).
  left. reflexivity.
Defined.
